(** * Juicebox: the repository layer of [db/index.js]

  A shallow embedding of the persistence layer: users author posts,
  posts carry tags through the [post_tags] join table.  Every exported
  function of [db/index.js] is translated to a computation over a
  [world] made of the JavaScript heap (the objects callers hand in)
  and the relational store behind [client].  Rows travel as JavaScript
  objects, exactly as [client.query] hands them back. *)

From stdpp Require Import gmap strings list fin_maps pretty.

Set Warnings "-register-all".
Set Default Proof Using "Type".
Open Scope string_scope.
Open Scope list_scope.

(** ** JavaScript values *)

Module JS.

(** The values the repository sees: primitives, arrays and plain
    objects (own enumerable properties only). *)
Inductive jsval :=
  | JUndefined
  | JNull
  | JNum (n : Z)
  | JStr (s : string)
  | JArr (xs : list jsval)
  | JObj (o : gmap string jsval).

(** What a rejected promise carries. *)
Inductive exn :=
  | PostNotFoundError   (* thrown by hand in getPostById *)
  | TypeError           (* raised by the JavaScript runtime *)
  | StoreError.         (* a query rejected by the database *)

Inductive outcome (A : Type) :=
  | Ok (a : A)
  | Throw (e : exn).
Global Arguments Ok {A} a.
Global Arguments Throw {A} e.

Global Instance exn_eq_dec : EqDecision exn.
Proof. solve_decision. Defined.

(** [!v] is true exactly for the falsy values. *)
Definition truthy (v : jsval) : bool :=
  match v with
  | JUndefined | JNull => false
  | JNum n => negb (n =? 0)%Z
  | JStr s => negb (String.eqb s "")
  | JArr _ | JObj _ => true
  end.

(** [v.k]: reading a property of [undefined] or [null] throws, a
    missing property reads as [undefined]. *)
Definition get_prop (v : jsval) (k : string) : outcome jsval :=
  match v with
  | JUndefined | JNull => Throw TypeError
  | JObj o => Ok (default JUndefined (o !! k))
  | JNum _ | JStr _ | JArr _ => Ok JUndefined
  end.

(** [const { rows: [x] } = ...]: the first row, or [undefined]. *)
Definition first_row (rows : list (gmap string jsval)) : jsval :=
  match rows with
  | [] => JUndefined
  | r :: _ => JObj r
  end.

Definition is_undefined (v : jsval) : bool :=
  match v with JUndefined => true | _ => false end.

End JS.
Export JS.

Abbreviation jsobj := (gmap string jsval).

(** ** The relational store *)

Module Db.

(** Modelled from the spec: the table declarations are not part of the
    source.  Four tables, [users(id pk, username unique not null,
    password not null, name, location)], [posts(id pk, authorId fk ->
    users.id, title, content)], [tags(id pk, name unique not null)] and
    [post_tags(postId fk -> posts.id, tagId fk -> tags.id,
    unique(postId, tagId))]; the three [id] columns draw their default
    from a sequence.  Columns hold values of their declared type. *)
Record user_row := User
  { u_id : Z; u_username : string; u_password : string;
    u_name : string; u_location : string }.
Record post_row := Post
  { p_id : Z; p_authorId : Z; p_title : string; p_content : string }.
Record tag_row := Tag { t_id : Z; t_name : string }.
Record post_tag_row := PostTag { pt_postId : Z; pt_tagId : Z }.

Global Instance user_row_eq_dec : EqDecision user_row.
Proof. solve_decision. Defined.
Global Instance post_row_eq_dec : EqDecision post_row.
Proof. solve_decision. Defined.
Global Instance tag_row_eq_dec : EqDecision tag_row.
Proof. solve_decision. Defined.
Global Instance post_tag_row_eq_dec : EqDecision post_tag_row.
Proof. solve_decision. Defined.

Record store := Store
  { users : list user_row;
    posts : list post_row;
    tags : list tag_row;
    post_tags : list post_tag_row;
    users_id_seq : Z;      (* the next value of each id sequence *)
    posts_id_seq : Z;
    tags_id_seq : Z }.

Definition empty_store : store := Store [] [] [] [] 1 1 1.

Definition with_users (us : list user_row) (s : store) : store :=
  Store us (posts s) (tags s) (post_tags s)
        (users_id_seq s) (posts_id_seq s) (tags_id_seq s).
Definition with_posts (ps : list post_row) (s : store) : store :=
  Store (users s) ps (tags s) (post_tags s)
        (users_id_seq s) (posts_id_seq s) (tags_id_seq s).
Definition with_tags (ts : list tag_row) (s : store) : store :=
  Store (users s) (posts s) ts (post_tags s)
        (users_id_seq s) (posts_id_seq s) (tags_id_seq s).
Definition with_post_tags (pts : list post_tag_row) (s : store) : store :=
  Store (users s) (posts s) (tags s) pts
        (users_id_seq s) (posts_id_seq s) (tags_id_seq s).

(** [nextval]: a sequence value is consumed even when the row that
    asked for it is skipped or rejected. *)
Definition bump_users_seq (s : store) : store :=
  Store (users s) (posts s) (tags s) (post_tags s)
        (users_id_seq s + 1) (posts_id_seq s) (tags_id_seq s).
Definition bump_posts_seq (s : store) : store :=
  Store (users s) (posts s) (tags s) (post_tags s)
        (users_id_seq s) (posts_id_seq s + 1) (tags_id_seq s).
Definition bump_tags_seq (s : store) : store :=
  Store (users s) (posts s) (tags s) (post_tags s)
        (users_id_seq s) (posts_id_seq s) (tags_id_seq s + 1).

(** *** Rows as the driver returns them *)

(** [select *] / [returning *] on [users]. *)
Definition user_star (u : user_row) : jsobj :=
  <["id" := JNum (u_id u)]>
    (<["username" := JStr (u_username u)]>
      (<["password" := JStr (u_password u)]>
        (<["name" := JStr (u_name u)]>
          (<["location" := JStr (u_location u)]> ∅)))).

(** [select id, username, name, location]. *)
Definition user_proj (u : user_row) : jsobj :=
  <["id" := JNum (u_id u)]>
    (<["username" := JStr (u_username u)]>
      (<["name" := JStr (u_name u)]>
        (<["location" := JStr (u_location u)]> ∅))).

Definition post_star (p : post_row) : jsobj :=
  <["id" := JNum (p_id p)]>
    (<["authorId" := JNum (p_authorId p)]>
      (<["title" := JStr (p_title p)]>
        (<["content" := JStr (p_content p)]> ∅))).

(** [select id from posts]. *)
Definition post_id_only (p : post_row) : jsobj :=
  <["id" := JNum (p_id p)]> ∅.

Definition tag_star (t : tag_row) : jsobj :=
  <["id" := JNum (t_id t)]> (<["name" := JStr (t_name t)]> ∅).

(** *** Query parameters

    A parameter is accepted for a column when it already has the
    column's type: a number for an integer column, a string for a text
    column.  Anything else is rejected by the query. *)
Definition pg_int (v : jsval) : option Z :=
  match v with JNum n => Some n | _ => None end.
Definition pg_text (v : jsval) : option string :=
  match v with JStr s => Some s | _ => None end.

(** The result of one statement: the rows, or a store failure. *)
Definition result := outcome (list jsobj).

(** *** Statements on [users] *)

(** [select id, username, name, location from users] *)
Definition select_users (s : store) : store * result :=
  (s, Ok (user_proj <$> users s)).

(** [insert into users (username, password, name, location)
     values ($1, $2, $3, $4) on conflict (username) do nothing
     returning *] *)
Definition insert_user (username password name location : string)
    (s : store) : store * result :=
  let id := users_id_seq s in
  let s1 := bump_users_seq s in
  if bool_decide (username ∈ u_username <$> users s) then (s1, Ok [])
  else if bool_decide (id ∈ u_id <$> users s) then (s1, Throw StoreError)
  else
    let u := User id username password name location in
    (with_users (users s ++ [u]) s1, Ok [user_star u]).

(** One [set "key"=$n] item: the key is used verbatim as the column
    name, so a key that names no column makes the statement fail. *)
Definition user_assign (k : string) (v : jsval)
    : option (user_row → user_row) :=
  if decide (k = "id") then
    n ← pg_int v;
    Some (λ u, User n (u_username u) (u_password u) (u_name u) (u_location u))
  else if decide (k = "username") then
    x ← pg_text v;
    Some (λ u, User (u_id u) x (u_password u) (u_name u) (u_location u))
  else if decide (k = "password") then
    x ← pg_text v;
    Some (λ u, User (u_id u) (u_username u) x (u_name u) (u_location u))
  else if decide (k = "name") then
    x ← pg_text v;
    Some (λ u, User (u_id u) (u_username u) (u_password u) x (u_location u))
  else if decide (k = "location") then
    x ← pg_text v;
    Some (λ u, User (u_id u) (u_username u) (u_password u) (u_name u) x)
  else None.

Fixpoint assign_all {R : Type} (assign : string → jsval → option (R → R))
    (items : list (string * jsval)) : option (R → R) :=
  match items with
  | [] => Some id
  | (k, v) :: rest =>
      match assign k v, assign_all assign rest with
      | Some f, Some g => Some (λ r, g (f r))
      | _, _ => None
      end
  end.

(** The constraints that involve [users]: primary key, unique
    username, and the authors of the posts. *)
Definition users_constraints (us : list user_row) (s : store) : Prop :=
  NoDup (u_id <$> us) ∧ NoDup (u_username <$> us) ∧
  Forall (λ p, p_authorId p ∈ u_id <$> us) (posts s).

Global Instance users_constraints_dec us s : Decision (users_constraints us s).
Proof. unfold users_constraints. apply _. Defined.

(** [update users set <items> where id=${id} returning *] *)
Definition update_users (id : Z) (items : list (string * jsval))
    (s : store) : store * result :=
  match items, assign_all user_assign items with
  | [], _ | _, None => (s, Throw StoreError)
  | _, Some f =>
      let us' := (λ u, if decide (u_id u = id) then f u else u) <$> users s in
      if bool_decide (users_constraints us' s)
      then (with_users us' s,
            Ok (user_star ∘ f <$> filter (λ u, u_id u = id) (users s)))
      else (s, Throw StoreError)
  end.

(** [select id, name, username, location from users where id=${userId}]
    and [SELECT id, username, name, location FROM users WHERE id=$1]:
    the same four columns. *)
Definition select_user_by_id (userId : Z) (s : store) : store * result :=
  (s, Ok (user_proj <$> filter (λ u, u_id u = userId) (users s))).

(** [SELECT * FROM users WHERE username=$1] *)
Definition select_user_by_username (username : string) (s : store)
    : store * result :=
  (s, Ok (user_star <$> filter (λ u, u_username u = username) (users s))).

(** *** Statements on [posts] *)

(** [INSERT INTO posts("authorId", title, content) VALUES($1, $2, $3)
     RETURNING *] *)
Definition insert_post (authorId : Z) (title content : string)
    (s : store) : store * result :=
  let id := posts_id_seq s in
  let s1 := bump_posts_seq s in
  if bool_decide (authorId ∈ u_id <$> users s ∧ id ∉ p_id <$> posts s)
  then
    let p := Post id authorId title content in
    (with_posts (posts s ++ [p]) s1, Ok [post_star p])
  else (s1, Throw StoreError).

Definition post_assign (k : string) (v : jsval)
    : option (post_row → post_row) :=
  if decide (k = "id") then
    n ← pg_int v;
    Some (λ p, Post n (p_authorId p) (p_title p) (p_content p))
  else if decide (k = "authorId") then
    n ← pg_int v;
    Some (λ p, Post (p_id p) n (p_title p) (p_content p))
  else if decide (k = "title") then
    x ← pg_text v;
    Some (λ p, Post (p_id p) (p_authorId p) x (p_content p))
  else if decide (k = "content") then
    x ← pg_text v;
    Some (λ p, Post (p_id p) (p_authorId p) (p_title p) x)
  else None.

(** The constraints that involve [posts]: primary key, the author of
    each post, and the posts the join rows point to. *)
Definition posts_constraints (ps : list post_row) (s : store) : Prop :=
  NoDup (p_id <$> ps) ∧
  Forall (λ p, p_authorId p ∈ u_id <$> users s) ps ∧
  Forall (λ pt, pt_postId pt ∈ p_id <$> ps) (post_tags s).

Global Instance posts_constraints_dec ps s : Decision (posts_constraints ps s).
Proof. unfold posts_constraints. apply _. Defined.

(** [update posts set <items> where id=${postId} returning *] *)
Definition update_posts (postId : Z) (items : list (string * jsval))
    (s : store) : store * result :=
  match items, assign_all post_assign items with
  | [], _ | _, None => (s, Throw StoreError)
  | _, Some f =>
      let ps' := (λ p, if decide (p_id p = postId) then f p else p) <$> posts s in
      if bool_decide (posts_constraints ps' s)
      then (with_posts ps' s,
            Ok (post_star ∘ f <$> filter (λ p, p_id p = postId) (posts s)))
      else (s, Throw StoreError)
  end.

(** [select id from posts] *)
Definition select_post_ids (s : store) : store * result :=
  (s, Ok (post_id_only <$> posts s)).

(** [select id from posts where posts."authorId"=${userId}] *)
Definition select_post_ids_by_author (userId : Z) (s : store)
    : store * result :=
  (s, Ok (post_id_only <$> filter (λ p, p_authorId p = userId) (posts s))).

(** [SELECT * FROM posts WHERE id=$1] *)
Definition select_post_by_id (postId : Z) (s : store) : store * result :=
  (s, Ok (post_star <$> filter (λ p, p_id p = postId) (posts s))).

(** *** Statements on [tags] and [post_tags] *)

(** The tags joined to a post: [tags JOIN post_tags ON
    tags.id=post_tags."tagId" WHERE post_tags."postId"=postId]. *)
Definition tags_of_post (postId : Z) (s : store) : list tag_row :=
  t ← tags s;
  pt ← post_tags s;
  if decide (t_id t = pt_tagId pt ∧ pt_postId pt = postId) then [t] else [].

(** [SELECT tags.* FROM tags JOIN post_tags ON tags.id=post_tags."tagId"
     WHERE post_tags."postId"=$1] *)
Definition select_tags_of_post (postId : Z) (s : store) : store * result :=
  (s, Ok (tag_star <$> tags_of_post postId s)).

(** [select posts.id from posts
     join post_tags on posts.id=post_tags."postId"
     join tags on tags.id=post_tags."tagId" where tags.name=$1] *)
Definition select_post_ids_by_tag_name (tagName : string) (s : store)
    : store * result :=
  (s, Ok (p ← posts s;
          pt ← post_tags s;
          t ← tags s;
          if decide (p_id p = pt_postId pt ∧ t_id t = pt_tagId pt ∧
                     t_name t = tagName)
          then [post_id_only p] else [])).

(** The rows of [insert into tags(name) values ... on conflict (name)
    do nothing], one after the other: a name already in the table is
    skipped, a generated id that collides with the primary key aborts
    the statement.  Every row consumes a sequence value. *)
Fixpoint insert_tag_rows (names : list string) (ts : list tag_row) (seq : Z)
    : option (list tag_row) * Z :=
  match names with
  | [] => (Some ts, seq)
  | n :: rest =>
      if bool_decide (n ∈ t_name <$> ts)
      then insert_tag_rows rest ts (seq + 1)
      else if bool_decide (seq ∈ t_id <$> ts) then (None, (seq + 1)%Z)
      else insert_tag_rows rest (ts ++ [Tag seq n]) (seq + 1)
  end.

(** [insert into tags(name) values ($1), ($2), ... on conflict (name)
     do nothing returning *].  The rows that come back are never
     looked at by the caller. *)
Definition insert_tags (params : list jsval) (s : store) : store * result :=
  match mapM pg_text params with
  | None | Some [] => (s, Throw StoreError)
  | Some names =>
      match insert_tag_rows names (tags s) (tags_id_seq s) with
      | (None, seq) =>
          (Store (users s) (posts s) (tags s) (post_tags s) (users_id_seq s)
                 (posts_id_seq s) seq,
           Throw StoreError)
      | (Some ts, seq) =>
          (Store (users s) (posts s) ts (post_tags s) (users_id_seq s)
                 (posts_id_seq s) seq,
           Ok (tag_star <$> drop (length (tags s)) ts))
      end
  end.

(** [select * from tags where tags.name in ($1, $2, ...)] *)
Definition select_tags_by_names (params : list jsval) (s : store)
    : store * result :=
  match mapM pg_text params with
  | None | Some [] => (s, Throw StoreError)
  | Some names =>
      (s, Ok (tag_star <$> filter (λ t, t_name t ∈ names) (tags s)))
  end.

(** [delete from post_tags where "tagId" not in (<ids>) and "postId"=$1]:
    the ids are pasted into the statement, which only parses when there
    is at least one and each is an integer literal. *)
Definition delete_post_tags_not_in (ids : list jsval) (postId : Z)
    (s : store) : store * result :=
  match mapM pg_int ids with
  | None | Some [] => (s, Throw StoreError)
  | Some keep =>
      let deleted pt := (pt_tagId pt ∉ keep) ∧ pt_postId pt = postId in
      (with_post_tags (filter (λ pt, ¬ deleted pt) (post_tags s)) s, Ok [])
  end.

(** [insert into post_tags("postId", "tagId") values ($1, $2)
     on conflict ("postId", "tagId") do nothing] *)
Definition insert_post_tag (postId : Z) (tagId : jsval) (s : store)
    : store * result :=
  match pg_int tagId with
  | None => (s, Throw StoreError)
  | Some tid =>
      if bool_decide (PostTag postId tid ∈ post_tags s) then (s, Ok [])
      else if bool_decide (postId ∈ p_id <$> posts s ∧ tid ∈ t_id <$> tags s)
      then (with_post_tags (post_tags s ++ [PostTag postId tid]) s, Ok [])
      else (s, Throw StoreError)
  end.

(** *** Well-formed stores

    What the declared constraints guarantee of every store, and what
    the id sequences guarantee as long as ids are only drawn from them
    (an update that writes an [id] column by hand can run ahead of its
    sequence). *)
Definition store_ok (s : store) : Prop :=
  (NoDup (u_id <$> users s) ∧ NoDup (u_username <$> users s) ∧
   Forall (λ u, (u_id u < users_id_seq s)%Z) (users s)) ∧
  (NoDup (p_id <$> posts s) ∧
   Forall (λ p, (p_id p < posts_id_seq s)%Z) (posts s) ∧
   Forall (λ p, p_authorId p ∈ u_id <$> users s) (posts s)) ∧
  (NoDup (t_id <$> tags s) ∧ NoDup (t_name <$> tags s) ∧
   Forall (λ t, (t_id t < tags_id_seq s)%Z) (tags s)) ∧
  (NoDup (post_tags s) ∧
   Forall (λ pt, pt_postId pt ∈ p_id <$> posts s) (post_tags s) ∧
   Forall (λ pt, pt_tagId pt ∈ t_id <$> tags s) (post_tags s)).

Global Instance store_ok_dec s : Decision (store_ok s).
Proof. unfold store_ok. apply _. Defined.

End Db.
Export Db.

(** ** Computations of the repository *)

Module Run.

Definition loc := positive.

(** The heap holds the objects that callers pass by reference; [db] is
    the database behind the single [client]. *)
Record world := World { heap : gmap loc jsobj; db : store }.

(** An [async] function: it may change the world, and its promise
    either resolves or rejects.  Nothing is rolled back on rejection. *)
Definition M (A : Type) : Type := world → world * outcome A.

Definition ret {A} (a : A) : M A := λ w, (w, Ok a).
Definition throw {A} (e : exn) : M A := λ w, (w, Throw e).
Definition bind {A B} (m : M A) (k : A → M B) : M B :=
  λ w, match m w with
       | (w', Ok a) => k a w'
       | (w', Throw e) => (w', Throw e)
       end.
Definition lift {A} (o : outcome A) : M A := λ w, (w, o).

(** [await client.query(...)] *)
Definition query (q : store → store * result) : M (list jsobj) :=
  λ w, let '(s', r) := q (db w) in (World (heap w) s', r).

End Run.
Export Run.

Notation "'let*' x ':=' m 'in' k" := (bind m (λ x, k))
  (at level 10, x name, m at level 100, k at level 200,
   format "'[v' 'let*'  x  ':='  m  'in' '/' k ']'").

(** [xs.map(cb)] where [cb] is an [async] arrow function: each call
    runs its callback up to the query it sends, in order, and hands
    back a promise; the single connection then serves the queries in
    that same order.  A callback that throws before returning its
    promise stops the [map] on the spot, the queries already sent still
    run.  The callbacks that go on to send more queries ([getPostById])
    only read, so running each promise to its end before the next
    starts gives the same world and the same results.  The list holds
    how each promise settles. *)
Fixpoint map_async {X A} (cb : X → outcome (M A)) (xs : list X)
    : M (list (outcome A)) :=
  match xs with
  | [] => ret []
  | x :: rest =>
      match cb x with
      | Throw e => throw e
      | Ok p => λ w,
          let '(w1, r) := p w in
          match map_async cb rest w1 with
          | (w2, Ok rs) => (w2, Ok (r :: rs))
          | (w2, Throw e) => (w2, Throw e)
          end
      end
  end.

(** [await Promise.all(promises)]: the values in order, or the first
    rejection. *)
Fixpoint promise_all {A} (settled : list (outcome A)) : outcome (list A) :=
  match settled with
  | [] => Ok []
  | Throw e :: _ => Throw e
  | Ok a :: rest =>
      match promise_all rest with
      | Ok l => Ok (a :: l)
      | Throw e => Throw e
      end
  end.

(** The receiver of [tagList.map(...)]: only arrays have a [map]. *)
Definition array_elems (v : jsval) : outcome (list jsval) :=
  match v with
  | JArr xs => Ok xs
  | _ => Throw TypeError
  end.

(** [tagList.length === 0] *)
Definition length_is_zero (v : jsval) : outcome bool :=
  match v with
  | JUndefined | JNull => Throw TypeError
  | JArr xs => Ok (bool_decide (length xs = 0))
  | JStr s => Ok (bool_decide (String.length s = 0))
  | JObj o => Ok (match o !! "length" with
                  | Some (JNum n) => bool_decide (n = 0%Z)
                  | _ => false
                  end)
  | JNum _ => Ok false
  end.

(** A value read from a row and passed on where an integer id is
    expected. *)
Definition as_id (v : jsval) : M Z :=
  match pg_int v with
  | Some n => ret n
  | None => throw StoreError
  end.

(** The [fields = {}] parameter: [None] is the omitted argument, for
    which a fresh empty object stands in.  A reference that holds no
    object behaves as [null] does: reading from it throws. *)
Definition read_fields (fields : option loc) : M jsobj :=
  λ w, match fields with
       | None => (w, Ok ∅)
       | Some l =>
           match heap w !! l with
           | Some o => (w, Ok o)
           | None => (w, Throw TypeError)
           end
       end.

(** [delete fields.k], on the caller's own object. *)
Definition delete_field (fields : option loc) (k : string) : M unit :=
  λ w, match fields with
       | None => (w, Ok ())
       | Some l => (World (alter (delete k) l (heap w)) (db w), Ok ())
       end.

(** The double quote character. *)
Definition dquote : string := String (Ascii.ascii_of_nat 34) EmptyString.

(** [Object.keys(fields).map((key, idx) => `"${key}"=$${idx + 1}`)
     .join(", ")] *)
Definition set_string (keys : list string) : string :=
  String.concat ", "
    (imap (λ idx key, dquote +:+ key +:+ dquote +:+ "=$" +:+ pretty (idx + 1)%nat)
          keys).

(** ** The repository: [db/index.js] *)

(** *** Users *)

Definition getAllUsers : M jsval :=
  let* rows := query select_users in
  ret (JArr (JObj <$> rows)).

Definition createUser (username password name location : string) : M jsval :=
  let* rows := query (insert_user username password name location) in
  ret (first_row rows).

Definition updateUser (id : Z) (fields : option loc) : M jsval :=
  let* o := read_fields fields in
  let items := map_to_list o in
  let setString := set_string items.*1 in
  if bool_decide (String.length setString = 0) then ret JUndefined
  else
    let* rows := query (update_users id items) in
    ret (first_row rows).

Definition getUserByUsername (username : string) : M jsval :=
  let* rows := query (select_user_by_username username) in
  ret (first_row rows).

(** *** Posts *)

Definition getPostById (postId : Z) : M jsval :=
  let* rows := query (select_post_by_id postId) in
  match rows with
  | [] => throw PostNotFoundError
  | post :: _ =>
      let* tags := query (select_tags_of_post postId) in
      let* authorId := lift (get_prop (JObj post) "authorId") in
      let* authorId := as_id authorId in
      let* authors := query (select_user_by_id authorId) in
      let author := first_row authors in
      let post := <["tags" := JArr (JObj <$> tags)]> post in
      let post := <["author" := author]> post in
      let post := delete "authorId" post in
      ret (JObj post)
  end.

(** [postIds.map(({ id }) => getPostById(id))] followed by
    [Promise.all]. *)
Definition getPosts (postIds : list jsobj) : M jsval :=
  let* settled :=
    map_async (λ row : jsobj,
      Ok (let* id := as_id (default JUndefined (row !! "id")) in
          getPostById id)) postIds in
  let* posts := lift (promise_all settled) in
  ret (JArr posts).

Definition getAllPosts : M jsval :=
  let* postIds := query select_post_ids in
  getPosts postIds.

Definition getPostsByUser (userId : Z) : M jsval :=
  let* postIds := query (select_post_ids_by_author userId) in
  getPosts postIds.

Definition getPostsByTagName (tagName : string) : M jsval :=
  let* postIds := query (select_post_ids_by_tag_name tagName) in
  getPosts postIds.

Definition getUserById (userId : Z) : M jsval :=
  let* rows := query (select_user_by_id userId) in
  let user := first_row rows in
  if negb (truthy user) then ret JUndefined
  else
    let* id := lift (get_prop user "id") in
    if negb (truthy id) then ret JUndefined
    else
      let* id := as_id id in
      let* posts := getPostsByUser id in
      match user with
      | JObj o => ret (JObj (<["posts" := posts]> o))
      | _ => ret user
      end.

(** *** Tags *)

Definition createTags (tagList : jsval) : M jsval :=
  let* empty := lift (length_is_zero tagList) in
  if (empty : bool) then ret JUndefined
  else
    let* names := lift (array_elems tagList) in
    let* _ := query (insert_tags names) in
    let* rows := query (select_tags_by_names names) in
    ret (JArr (JObj <$> rows)).

(** *** The join table *)

Definition createPostTag (postId : Z) (tagId : jsval) : M jsval :=
  let* _ := query (insert_post_tag postId tagId) in
  ret JUndefined.

Definition addTagsToPost (postId : Z) (tagList : jsval) : M jsval :=
  let* tags := lift (array_elems tagList) in
  let* settled :=
    map_async (λ tag,
      match get_prop tag "id" with
      | Ok tagId => Ok (createPostTag postId tagId)
      | Throw e => Throw e
      end) tags in
  let* _ := lift (promise_all settled) in
  getPostById postId.

(** *** Creating and updating posts *)

(** [tags = []] in the parameter list: the default replaces an omitted
    (or [undefined]) [tags]. *)
Definition createPost (authorId : Z) (title content : string) (tags : jsval)
    : M jsval :=
  let tags := if is_undefined tags then JArr [] else tags in
  let* rows := query (insert_post authorId title content) in
  let post := first_row rows in
  let* tagList := createTags tags in
  let* id := lift (get_prop post "id") in
  let* id := as_id id in
  addTagsToPost id tagList.

(** [tagList.map((tag) => `${tag.id}`)] *)
Fixpoint tag_ids (tags : list jsval) : outcome (list jsval) :=
  match tags with
  | [] => Ok []
  | tag :: rest =>
      match get_prop tag "id", tag_ids rest with
      | Ok i, Ok ids => Ok (i :: ids)
      | Throw e, _ | _, Throw e => Throw e
      end
  end.

Definition updatePost (postId : Z) (fields : option loc) : M jsval :=
  let* o := read_fields fields in
  let tags := default JUndefined (o !! "tags") in
  let* _ := delete_field fields "tags" in
  let* o := read_fields fields in
  let items := map_to_list o in
  let setString := set_string items.*1 in
  let* _ :=
    if bool_decide (0 < String.length setString)
    then query (update_posts postId items) else ret [] in
  if is_undefined tags then getPostById postId
  else
    let* tagList := createTags tags in
    let* elems := lift (array_elems tagList) in
    let* ids := lift (tag_ids elems) in
    let* _ := query (delete_post_tags_not_in ids postId) in
    let* _ := addTagsToPost postId tagList in
    getPostById postId.

(** ** The calls a client can make

    The exported functions, and [getPostById], which the module keeps
    to itself but the spec lists in the public contract. *)

Inductive call :=
  | GetAllUsers
  | CreateUser (username password name location : string)
  | UpdateUser (id : Z) (fields : option loc)
  | GetUserById (userId : Z)
  | GetUserByUsername (username : string)
  | CreatePost (authorId : Z) (title content : string) (tags : jsval)
  | UpdatePost (postId : Z) (fields : option loc)
  | GetAllPosts
  | GetPostsByUser (userId : Z)
  | GetPostById (postId : Z)
  | GetPostsByTagName (tagName : string)
  | CreateTags (tagList : jsval)
  | AddTagsToPost (postId : Z) (tagList : jsval).

Definition run_call (c : call) : M jsval :=
  match c with
  | GetAllUsers => getAllUsers
  | CreateUser u p n l => createUser u p n l
  | UpdateUser id f => updateUser id f
  | GetUserById id => getUserById id
  | GetUserByUsername u => getUserByUsername u
  | CreatePost a t c tags => createPost a t c tags
  | UpdatePost id f => updatePost id f
  | GetAllPosts => getAllPosts
  | GetPostsByUser id => getPostsByUser id
  | GetPostById id => getPostById id
  | GetPostsByTagName n => getPostsByTagName n
  | CreateTags l => createTags l
  | AddTagsToPost id l => addTagsToPost id l
  end.

(** The post id a call hands to the post-aggregate read on the
    caller's behalf. *)
Definition requested_post (c : call) : option Z :=
  match c with
  | GetPostById id | UpdatePost id _ | AddTagsToPost id _ => Some id
  | _ => None
  end.

(** ** Vocabulary of the properties *)

(** A JavaScript array of strings, as callers write tag names. *)
Definition js_strings (names : list string) : jsval := JArr (JStr <$> names).

(** [exposes k v]: some object inside [v], at any depth, has a
    property named [k]. *)
Fixpoint exposes (k : string) (v : jsval) : bool :=
  match v with
  | JArr xs => existsb (exposes k) xs
  | JObj o =>
      bool_decide (is_Some (o !! k)) ||
      map_fold (λ _ v' acc, acc || exposes k v') false o
  | _ => false
  end.

(** The shape of a post aggregate: [author] and [tags] are there,
    [authorId] and [password] are nowhere. *)
Definition post_aggregate (v : jsval) : Prop :=
  (∃ o, v = JObj o ∧ is_Some (o !! "author") ∧ is_Some (o !! "tags")) ∧
  exposes "authorId" v = false ∧ exposes "password" v = false.

(** The names of the tags a post is labelled with. *)
Definition tag_names_of_post (postId : Z) (s : store) : gset string :=
  list_to_set (t_name <$> tags_of_post postId s).

(** The ids the names resolve to. *)
Definition resolved_ids (names : list string) (s : store) : list Z :=
  t_id <$> filter (λ t, t_name t ∈ names) (tags s).

(** Everything [updatePost] does once [delete fields.tags] has run. *)
Definition updatePost_rest (postId : Z) (fields : option loc) (tags : jsval)
    : M jsval :=
  let* o := read_fields fields in
  let items := map_to_list o in
  let setString := set_string items.*1 in
  let* _ :=
    if bool_decide (0 < String.length setString)
    then query (update_posts postId items) else ret [] in
  if is_undefined tags then getPostById postId
  else
    let* tagList := createTags tags in
    let* elems := lift (array_elems tagList) in
    let* ids := lift (tag_ids elems) in
    let* _ := query (delete_post_tags_not_in ids postId) in
    let* _ := addTagsToPost postId tagList in
    getPostById postId.

(** A computation that leaves the caller's objects alone. *)
Definition keeps_heap {A} (m : M A) : Prop := ∀ w, heap (m w).1 = heap w.

(** A computation that only reads. *)
Definition read_only {A} (m : M A) : Prop := ∀ w, (m w).1 = w.

(** The object [getPostById] assembles from the row of a post. *)
Definition aggregate (p : post_row) (s : store) : jsobj :=
  delete "authorId"
    (<["author" :=
         first_row (user_proj <$> filter (λ u, u_id u = p_authorId p) (users s))]>
       (<["tags" := JArr (JObj <$> (tag_star <$> tags_of_post (p_id p) s))]>
          (post_star p))).

(** What the sequence and the constraints guarantee of [tags]. *)
Definition tags_ok (ts : list tag_row) (seq : Z) : Prop :=
  NoDup (t_id <$> ts) ∧ NoDup (t_name <$> ts) ∧
  Forall (λ t, (t_id t < seq)%Z) ts.

(** The outcome [out] of [createTags] on [names] from the world [w],
    as an upsert-get: nothing but [tags] and its sequence changes; for
    no name at all nothing changes and [undefined] comes back;
    otherwise the rows that were there stay, no row is added for a name
    that was not asked for, every name asked for has exactly one row,
    and the rows of the names asked for come back. *)
Definition upsert_get (names : list string) (w : world)
    (out : world * outcome jsval) : Prop :=
  store_ok (db out.1) ∧ heap out.1 = heap w ∧
  users (db out.1) = users (db w) ∧ posts (db out.1) = posts (db w) ∧
  post_tags (db out.1) = post_tags (db w) ∧
  (names = [] → out = (w, Ok JUndefined)) ∧
  (names ≠ [] →
   tags (db w) `prefix_of` tags (db out.1) ∧
   (∀ t, t ∈ tags (db out.1) → t ∈ tags (db w) ∨ t_name t ∈ names) ∧
   (∀ n, n ∈ names →
      ∃ t, filter (λ t, t_name t = n) (tags (db out.1)) = [t]) ∧
   out.2 = Ok (JArr (JObj <$> (tag_star <$>
             filter (λ t, t_name t ∈ names) (tags (db out.1)))))).

(** The join table after [createPostTag postId tagId]: the pair is
    added at the end unless it is there already. *)
Definition link_row (postId tagId : Z) (pts : list post_tag_row)
    : list post_tag_row :=
  if bool_decide (PostTag postId tagId ∈ pts) then pts
  else pts ++ [PostTag postId tagId].

Definition link_rows (postId : Z) (tagIds : list Z) (pts : list post_tag_row)
    : list post_tag_row :=
  foldl (λ acc tagId, link_row postId tagId acc) pts tagIds.

(** Every value a computation resolves to satisfies [Q]. *)
Definition returns {A} (Q : A → Prop) (m : M A) : Prop :=
  ∀ w a, (m w).2 = Ok a → Q a.

(** A computation that never rejects with [PostNotFoundError]. *)
Definition nf_free {A} (m : M A) : Prop :=
  ∀ w, (m w).2 ≠ Throw PostNotFoundError.

(** A computation that rejects with [PostNotFoundError] only when the
    post [postId] has no row in the store it leaves. *)
Definition nf_only {A} (postId : Z) (m : M A) : Prop :=
  ∀ w, (m w).2 = Throw PostNotFoundError →
       postId ∉ p_id <$> posts (db (m w).1).

(** A computation that leaves the [posts] table alone. *)
Definition keeps_posts {A} (m : M A) : Prop :=
  ∀ w, posts (db (m w).1) = posts (db w).

(** A statement fails with a store error or not at all. *)
Definition store_failure (q : store → store * result) : Prop :=
  ∀ s e, (q s).2 = Throw e → e = StoreError.

(** A computation that keeps the store well-formed. *)
Definition keeps_ok {A} (m : M A) : Prop :=
  ∀ w, store_ok (db w) → store_ok (db (m w).1).

(** A statement that keeps the store well-formed. *)
Definition stmt_keeps_ok (q : store → store * result) : Prop :=
  ∀ s, store_ok s → store_ok (q s).1.

(** A computation that, of the whole world, only adds join rows of the
    post [postId]. *)
Definition links_only {A} (postId : Z) (m : M A) : Prop :=
  ∀ w,
    heap (m w).1 = heap w ∧ users (db (m w).1) = users (db w) ∧
    posts (db (m w).1) = posts (db w) ∧ tags (db (m w).1) = tags (db w) ∧
    ∃ new, post_tags (db (m w).1) = post_tags (db w) ++ new ∧
           Forall (λ pt, pt_postId pt = postId) new.

(** A computation that, of the store, only adds rows to [tags]. *)
Definition tags_only {A} (m : M A) : Prop :=
  ∀ w,
    users (db (m w).1) = users (db w) ∧ posts (db (m w).1) = posts (db w) ∧
    post_tags (db (m w).1) = post_tags (db w) ∧
    tags (db w) `prefix_of` tags (db (m w).1).

(** The text a [fields] object holds for a column, or the text the
    row had when the object has no such key. *)
Definition text_field (o : jsobj) (k : string) (d : string) : string :=
  match o !! k with
  | Some (JStr x) => x
  | _ => d
  end.

(** A [fields] object that only sets columns among [cols], each to a
    string, and sets at least one. *)
Definition sets_text (cols : list string) (o : jsobj) : Prop :=
  o ≠ ∅ ∧ map_Forall (λ k v, k ∈ cols ∧ ∃ x, v = JStr x) o.

(** A user row with the profile columns a [fields] object sets. *)
Definition patch_user (o : jsobj) (u : user_row) : user_row :=
  User (u_id u) (u_username u)
       (text_field o "password" (u_password u))
       (text_field o "name" (u_name u))
       (text_field o "location" (u_location u)).

(** A post row with the text columns a [fields] object sets. *)
Definition patch_post (o : jsobj) (p : post_row) : post_row :=
  Post (p_id p) (p_authorId p)
       (text_field o "title" (p_title p))
       (text_field o "content" (p_content p)).

(** ** A small scenario

    Alice registers and publishes one post labelled [#a] and [#b]; the
    scenario the examples below start from. *)
Definition world0 : world := World ∅ empty_store.

Definition world_alice : world :=
  (createUser "alice" "pw" "Alice" "NY" world0).1.

Definition world_hello : world :=
  (createPost 1 "Hello" "World" (js_strings ["#a"; "#b"]) world_alice).1.

(** The caller's [fields] object, at a fixed place of the heap. *)
Definition fields_at : loc := 1%positive.

Definition with_fields (o : jsobj) (w : world) : world :=
  World (<[fields_at := o]> (heap w)) (db w).

(** Alice's row once its [id] has been rewritten to 0 by hand. *)
Definition world_zero : world :=
  (updateUser 1 (Some fields_at) (with_fields {["id" := JNum 0]} world_alice)).1.

(** * Properties *)

(** ** Running computations *)

Section monad_laws.
Context {A B : Type}.
Implicit Types (m : M A) (k : A → M B) (w : world).

Lemma bind_ok m k w w' a : m w = (w', Ok a) → bind m k w = k a w'.
Proof. unfold bind. by intros ->. Qed.

Lemma bind_throw m k w w' e :
  m w = (w', Throw e) → bind m k w = (w', Throw e).
Proof. unfold bind. by intros ->. Qed.

Lemma bind_inv m k w w2 r :
  bind m k w = (w2, r) →
  (∃ w1 a, m w = (w1, Ok a) ∧ k a w1 = (w2, r)) ∨
  (∃ e, m w = (w2, Throw e) ∧ r = Throw e).
Proof.
  unfold bind. destruct (m w) as [w1 [a|e]]; intros H.
  - left. eauto.
  - right. exists e. by simplify_eq.
Qed.

End monad_laws.

(** ** The heap is only touched by [delete fields.tags] *)

Create HintDb heap discriminated.

Lemma keeps_heap_ret {A} (a : A) : keeps_heap (ret a).
Proof. done. Qed.
Lemma keeps_heap_throw {A} e : keeps_heap (@throw A e).
Proof. done. Qed.
Lemma keeps_heap_lift {A} (o : outcome A) : keeps_heap (lift o).
Proof. done. Qed.
Lemma keeps_heap_query q : keeps_heap (query q).
Proof. intros w. unfold query. by destruct (q (db w)). Qed.
Lemma keeps_heap_read_fields f : keeps_heap (read_fields f).
Proof. intros w. unfold read_fields. by repeat case_match. Qed.
Lemma keeps_heap_as_id v : keeps_heap (as_id v).
Proof. intros w. unfold as_id. by case_match. Qed.

Lemma keeps_heap_bind {A B} (m : M A) (k : A → M B) :
  keeps_heap m → (∀ a, keeps_heap (k a)) → keeps_heap (bind m k).
Proof.
  intros Hm Hk w. unfold bind. specialize (Hm w).
  destruct (m w) as [w1 [a|e]]; simpl in *; [|done].
  by rewrite Hk.
Qed.

Lemma keeps_heap_map_async {X A} (cb : X → outcome (M A)) xs :
  (∀ x p, cb x = Ok p → keeps_heap p) → keeps_heap (map_async cb xs).
Proof.
  intros Hcb. induction xs as [|x xs IH]; intros w; simpl; [done|].
  destruct (cb x) as [p|e] eqn:Hx; [|done].
  pose proof (Hcb _ _ Hx w) as Hp. destruct (p w) as [w1 r]. simpl in Hp.
  specialize (IH w1). destruct (map_async cb xs w1) as [w2 [rs|e]];
    simpl in *; congruence.
Qed.

Global Hint Resolve keeps_heap_ret keeps_heap_throw keeps_heap_lift
  keeps_heap_query keeps_heap_read_fields keeps_heap_as_id : heap.

Ltac keeps_heap :=
  repeat first
    [ progress auto with heap
    | apply keeps_heap_bind; [|intros ?]
    | apply keeps_heap_map_async; intros ? ? ?
    | case_match
    | progress simplify_eq ].

Lemma keeps_heap_getPostById postId : keeps_heap (getPostById postId).
Proof. unfold getPostById. keeps_heap. Qed.

Lemma keeps_heap_getPosts rows : keeps_heap (getPosts rows).
Proof.
  unfold getPosts. keeps_heap.
Qed.

Lemma keeps_heap_createTags tagList : keeps_heap (createTags tagList).
Proof. unfold createTags. keeps_heap. Qed.

Lemma keeps_heap_addTagsToPost postId tagList :
  keeps_heap (addTagsToPost postId tagList).
Proof.
  unfold addTagsToPost. keeps_heap.
Qed.

Global Hint Resolve keeps_heap_getPostById keeps_heap_getPosts
  keeps_heap_createTags keeps_heap_addTagsToPost : heap.

(** ** [updatePost] and the caller's [fields] object *)

Lemma read_fields_some w l o :
  heap w !! l = Some o → read_fields (Some l) w = (w, Ok o).
Proof. unfold read_fields. by intros ->. Qed.

Lemma delete_field_some w l k o :
  heap w !! l = Some o →
  delete_field (Some l) k w = (World (<[l := delete k o]> (heap w)) (db w), Ok ()).
Proof.
  intros Hl. unfold delete_field. do 2 f_equal.
  apply map_eq. intros l'. rewrite lookup_alter, lookup_insert.
  case_decide; [by rewrite Hl|done].
Qed.

Lemma updatePost_unfold postId l w o :
  heap w !! l = Some o →
  updatePost postId (Some l) w =
  updatePost_rest postId (Some l) (default JUndefined (o !! "tags"))
    (World (<[l := delete "tags" o]> (heap w)) (db w)).
Proof.
  intros Hl. unfold updatePost.
  rewrite (bind_ok _ _ _ _ _ (read_fields_some _ _ _ Hl)).
  by rewrite (bind_ok _ _ _ _ _ (delete_field_some _ _ "tags" _ Hl)).
Qed.

Lemma keeps_heap_updatePost_rest postId fields tags :
  keeps_heap (updatePost_rest postId fields tags).
Proof. unfold updatePost_rest. keeps_heap. Qed.

(** C10. [updatePost] mutates its caller's argument: whatever the
    [fields] object held and whether the call resolves or rejects, the
    object the caller passed has lost its [tags] property when the call
    is over, and nothing else in the heap has changed.  The key is
    gone before the column update is built, so [tags] is never sent as
    a column. *)
Theorem updatePost_deletes_tags_key (w : world) (postId : Z) (l : loc)
    (o : jsobj) :
  heap w !! l = Some o →
  let w' := (updatePost postId (Some l) w).1 in
  heap w' = <[l := delete "tags" o]> (heap w) ∧
  (∃ o', heap w' !! l = Some o' ∧ o' !! "tags" = None) ∧
  updatePost postId (Some l) w =
    updatePost_rest postId (Some l) (default JUndefined (o !! "tags"))
      (World (<[l := delete "tags" o]> (heap w)) (db w)).
Proof.
  intros Hl w'.
  assert (heap w' = <[l := delete "tags" o]> (heap w)) as Hw'.
  { unfold w'. rewrite (updatePost_unfold _ _ _ _ Hl).
    by rewrite keeps_heap_updatePost_rest. }
  split_and!; [done| |by apply updatePost_unfold].
  exists (delete "tags" o). rewrite Hw', lookup_insert_eq.
  split; [done|]. apply lookup_delete_eq.
Qed.

(** ** The [set] string and the empty field mapping *)

Lemma set_string_nil : set_string [] = "".
Proof. reflexivity. Qed.

Lemma set_string_cons k keys : 0 < String.length (set_string (k :: keys)).
Proof.
  unfold set_string. simpl.
  destruct (imap _ keys); simpl; lia.
Qed.

Lemma set_string_empty_iff keys :
  String.length (set_string keys) = 0 ↔ keys = [].
Proof.
  destruct keys as [|k keys]; [done|].
  pose proof (set_string_cons k keys). split; [lia|done].
Qed.

Lemma keys_nil_iff (o : jsobj) : (map_to_list o).*1 = [] ↔ o = ∅.
Proof.
  rewrite <-map_to_list_empty_iff. destruct (map_to_list o); naive_solver.
Qed.

(** ** The post-aggregate read *)

Lemma getPostById_eq postId w :
  getPostById postId w =
  (w, match filter (λ p, p_id p = postId) (posts (db w)) with
      | [] => Throw PostNotFoundError
      | p :: _ => Ok (JObj (aggregate p (db w)))
      end).
Proof.
  destruct w as [h s]. unfold getPostById, bind, query, select_post_by_id.
  simpl. destruct (filter _ (posts s)) as [|p ps] eqn:Hf; simpl; [done|].
  assert (p_id p = postId) as <-.
  { assert (p ∈ filter (λ p, p_id p = postId) (posts s)) as Hp
      by (rewrite Hf; left).
    by apply list_elem_of_filter in Hp as [? _]. }
  reflexivity.
Qed.

Lemma getPostById_read_only postId : read_only (getPostById postId).
Proof. intros w. by rewrite getPostById_eq. Qed.

Lemma getPostById_missing postId w :
  postId ∉ p_id <$> posts (db w) →
  getPostById postId w = (w, Throw PostNotFoundError).
Proof.
  intros Hn. rewrite getPostById_eq.
  destruct (filter _ _) as [|p ps] eqn:Hf; [done|]. exfalso. apply Hn.
  assert (p ∈ filter (λ p, p_id p = postId) (posts (db w))) as Hp
    by (rewrite Hf; left).
  apply list_elem_of_filter in Hp as [<- Hp]. by apply list_elem_of_fmap_2.
Qed.

Lemma getPostById_found postId w :
  postId ∈ p_id <$> posts (db w) →
  ∃ p, p ∈ posts (db w) ∧ p_id p = postId ∧
       getPostById postId w = (w, Ok (JObj (aggregate p (db w)))).
Proof.
  intros (p & -> & Hp)%list_elem_of_fmap. rewrite getPostById_eq.
  destruct (filter _ _) as [|p' ps] eqn:Hf.
  - assert (p ∈ filter (λ q, p_id q = p_id p) (posts (db w))) as Hin
      by (by apply list_elem_of_filter).
    rewrite Hf in Hin. by apply elem_of_nil in Hin.
  - assert (p' ∈ filter (λ q, p_id q = p_id p) (posts (db w))) as Hin
      by (rewrite Hf; left).
    apply list_elem_of_filter in Hin as [? ?]. eauto.
Qed.

Lemma getPostById_outcome postId w :
  (postId ∈ p_id <$> posts (db w) ∧ ∃ v, (getPostById postId w).2 = Ok v) ∨
  ((postId ∉ p_id <$> posts (db w)) ∧
   (getPostById postId w).2 = Throw PostNotFoundError).
Proof.
  destruct (decide (postId ∈ p_id <$> posts (db w))) as [Hin|Hn].
  - left. split; [done|]. destruct (getPostById_found _ _ Hin) as (p&_&_&->).
    eauto.
  - right. split; [done|]. by rewrite getPostById_missing.
Qed.

(** ** Updates that have nothing to do *)

(** C9. No-op updates.  With an empty field mapping (the literal [{}]
    or the omitted argument) [updateUser] sends no statement, leaves
    the world as it is and resolves to [undefined]; [updatePost], with
    no [tags] key and no column, sends no write either, leaves the
    world as it is and resolves to what [getPostById] returns for the
    same, untouched world: the aggregate of the post when it exists. *)
Theorem noop_updates (w : world) (id : Z) (fields : option loc) :
  fields = None ∨ (∃ l, fields = Some l ∧ heap w !! l = Some ∅) →
  updateUser id fields w = (w, Ok JUndefined) ∧
  updatePost id fields w = (w, (getPostById id w).2) ∧
  (id ∈ p_id <$> posts (db w) →
   ∃ p, p ∈ posts (db w) ∧ p_id p = id ∧
        updatePost id fields w = (w, Ok (JObj (aggregate p (db w))))).
Proof.
  intros Hf.
  assert (read_fields fields w = (w, Ok ∅)) as Hread.
  { destruct Hf as [->|(l & -> & Hl)]; [done|]. by apply read_fields_some. }
  assert (delete_field fields "tags" w = (w, Ok ())) as Hdel.
  { destruct Hf as [->|(l & -> & Hl)]; [done|].
    rewrite (delete_field_some _ _ _ _ Hl). destruct w as [h s]. simpl in *.
    do 2 f_equal. rewrite delete_empty. by apply insert_id. }
  assert (updatePost id fields w = (w, (getPostById id w).2)) as Hpost.
  { unfold updatePost.
    rewrite (bind_ok _ _ _ _ _ Hread), (bind_ok _ _ _ _ _ Hdel).
    rewrite (bind_ok _ _ _ _ _ Hread). rewrite lookup_empty. simpl.
    rewrite map_to_list_empty. simpl. unfold bind, ret.
    by rewrite getPostById_eq. }
  split_and!.
  - unfold updateUser. rewrite (bind_ok _ _ _ _ _ Hread).
    by rewrite map_to_list_empty.
  - done.
  - intros Hin. destruct (getPostById_found _ _ Hin) as (p & Hp & Hid & Hget).
    exists p. split_and!; [done..|]. by rewrite Hpost, Hget.
Qed.

(** ** The join *)

Lemma elem_of_tags_of_post t postId s :
  t ∈ tags_of_post postId s ↔
  t ∈ tags s ∧ PostTag postId (t_id t) ∈ post_tags s.
Proof.
  unfold tags_of_post. rewrite list_elem_of_bind. split.
  - intros (t' & (pt & Hpt & Hin)%list_elem_of_bind & Ht').
    case_decide as Hd; [|by apply elem_of_nil in Hpt].
    apply list_elem_of_singleton in Hpt as ->. destruct Hd as [Hd <-].
    split; [done|]. rewrite Hd. by destruct pt.
  - intros [Ht Hpt]. exists t. split; [|done].
    apply list_elem_of_bind. exists (PostTag postId (t_id t)).
    split; [|done]. rewrite decide_True by done. left.
Qed.

Lemma tags_of_post_unlinked postId s :
  postId ∉ pt_postId <$> post_tags s → tags_of_post postId s = [].
Proof.
  intros Hn. destruct (tags_of_post postId s) as [|t ts] eqn:Htp; [done|].
  assert (t ∈ tags_of_post postId s) as Ht by (rewrite Htp; left).
  apply elem_of_tags_of_post in Ht as [_ Ht]. exfalso. apply Hn.
  by apply (list_elem_of_fmap_2 pt_postId) in Ht.
Qed.

(** ** [createPost] without tags *)

Lemma createTags_empty w : createTags (JArr []) w = (w, Ok JUndefined).
Proof. reflexivity. Qed.

(** C4. [createPost] with the tag list omitted or empty: the post row
    is inserted first, then [createTags] resolves to [undefined] for the
    empty list and [addTagsToPost] calls [map] on it, so the promise
    rejects with a [TypeError]; the new row stays in [posts], carries no
    tag, and nothing is rolled back.  (The insert itself goes through
    when the author exists.) *)
Theorem createPost_without_tags_throws (w : world) (authorId : Z)
    (title content : string) (tagList : jsval) :
  store_ok (db w) →
  authorId ∈ u_id <$> users (db w) →
  tagList = JUndefined ∨ tagList = JArr [] →
  let id := posts_id_seq (db w) in
  let out := createPost authorId title content tagList w in
  out.2 = Throw TypeError ∧
  posts (db out.1) = posts (db w) ++ [Post id authorId title content] ∧
  tags_of_post id (db out.1) = [] ∧
  users (db out.1) = users (db w) ∧
  tags (db out.1) = tags (db w) ∧
  post_tags (db out.1) = post_tags (db w) ∧
  heap out.1 = heap w.
Proof.
  intros Hok Hauthor Htags id out.
  destruct Hok as (_ & (_ & Hseq & _) & _ & (_ & Hfk & _)).
  assert (id ∉ p_id <$> posts (db w)) as Hfresh.
  { intros (p & Hid & Hp)%list_elem_of_fmap.
    rewrite Forall_forall in Hseq. specialize (Hseq _ Hp). unfold id in *. lia. }
  assert (out = (World (heap w)
                   (with_posts (posts (db w) ++ [Post id authorId title content])
                      (bump_posts_seq (db w))), Throw TypeError)) as ->.
  { unfold out, createPost, bind at 1, query, insert_post.
    rewrite bool_decide_eq_true_2 by done.
    by destruct Htags as [-> | ->]. }
  simpl. split_and!; try done.
  apply tags_of_post_unlinked. simpl.
  intros (pt & Hid & Hpt)%list_elem_of_fmap.
  rewrite Forall_forall in Hfk. specialize (Hfk _ Hpt). by rewrite <-Hid in Hfk.
Qed.

(** ** [createUser] and the unique username *)

Lemma filter_none {A} (P : A → Prop) `{∀ x, Decision (P x)} (l : list A) :
  (∀ x, x ∈ l → ¬ P x) → filter P l = [].
Proof.
  induction l as [|x l IH]; intros Hl; [done|].
  rewrite filter_cons_False by (apply Hl; left).
  apply IH. intros y Hy. apply Hl. by right.
Qed.

Lemma createUser_conflict w username password name location :
  username ∈ u_username <$> users (db w) →
  createUser username password name location w =
    (World (heap w) (bump_users_seq (db w)), Ok JUndefined).
Proof.
  intros Hin. unfold createUser, bind, query, insert_user.
  by rewrite bool_decide_eq_true_2.
Qed.

Lemma createUser_fresh w username password name location :
  store_ok (db w) →
  username ∉ u_username <$> users (db w) →
  let u := User (users_id_seq (db w)) username password name location in
  createUser username password name location w =
    (World (heap w) (with_users (users (db w) ++ [u]) (bump_users_seq (db w))),
     Ok (JObj (user_star u))).
Proof.
  intros ((_ & _ & Hseq) & _) Hn u. unfold createUser, bind, query, insert_user.
  rewrite bool_decide_eq_false_2 by done.
  rewrite bool_decide_eq_false_2; [done|].
  intros (u' & Hid & Hu')%list_elem_of_fmap.
  rewrite Forall_forall in Hseq. specialize (Hseq _ Hu'). lia.
Qed.

Lemma store_ok_insert_user s u :
  store_ok s → u_id u = users_id_seq s → u_username u ∉ u_username <$> users s →
  store_ok (with_users (users s ++ [u]) (bump_users_seq s)).
Proof.
  intros ((Hu1 & Hu2 & Hu3) & (Hp1 & Hp2 & Hp3) & Ht & Hj) Hid Hn.
  split_and!; simpl; try done; try apply Ht; try apply Hj.
  - rewrite fmap_app. apply NoDup_app. split_and!; [done| |apply NoDup_singleton].
    intros i (u' & -> & Hu')%list_elem_of_fmap Hi. simpl in Hi.
    apply list_elem_of_singleton in Hi.
    rewrite Forall_forall in Hu3. specialize (Hu3 _ Hu'). lia.
  - rewrite fmap_app. apply NoDup_app. split_and!; [done| |apply NoDup_singleton].
    intros n Hin Hn'. simpl in Hn'. apply list_elem_of_singleton in Hn' as ->.
    done.
  - apply Forall_app. split.
    + eapply Forall_impl; [done|]. simpl. intros; lia.
    + apply Forall_singleton. lia.
  - eapply Forall_impl; [done|]. simpl. intros p Hp. rewrite fmap_app.
    apply elem_of_app. by left.
Qed.

Lemma store_ok_bump_users_seq s : store_ok s → store_ok (bump_users_seq s).
Proof.
  intros ((Hu1 & Hu2 & Hu3) & Hp & Ht & Hj).
  split_and!; simpl; try done; try apply Hp; try apply Ht; try apply Hj.
  eapply Forall_impl; [done|]. simpl. intros; lia.
Qed.

(** C6. Conflict tolerance of [createUser].  Inserting a username that
    is already there is skipped without an error and resolves to
    [undefined]; called twice with the same, so far unused, username it
    resolves to the new row the first time and to [undefined] the second
    time, and the table then holds exactly one row for that username:
    the one the first call wrote. *)
Theorem createUser_conflict_tolerance (w : world)
    (username pw1 n1 l1 pw2 n2 l2 : string) :
  store_ok (db w) →
  username ∉ u_username <$> users (db w) →
  let u := User (users_id_seq (db w)) username pw1 n1 l1 in
  let out1 := createUser username pw1 n1 l1 w in
  let out2 := createUser username pw2 n2 l2 out1.1 in
  out1.2 = Ok (JObj (user_star u)) ∧
  users (db out1.1) = users (db w) ++ [u] ∧
  out2.2 = Ok JUndefined ∧
  users (db out2.1) = users (db out1.1) ∧
  filter (λ u', u_username u' = username) (users (db out2.1)) = [u] ∧
  store_ok (db out2.1) ∧
  (∀ w' p n l, username ∈ u_username <$> users (db w') →
     (createUser username p n l w').2 = Ok JUndefined ∧
     users (db (createUser username p n l w').1) = users (db w')).
Proof.
  intros Hok Hn u out1 out2.
  assert (out1 = (World (heap w)
            (with_users (users (db w) ++ [u]) (bump_users_seq (db w))),
            Ok (JObj (user_star u)))) as H1
    by (by apply createUser_fresh).
  assert (username ∈ u_username <$> users (db out1.1)) as Hin.
  { rewrite H1. simpl. rewrite fmap_app. apply elem_of_app. right. left. }
  assert (out2 = (World (heap out1.1) (bump_users_seq (db out1.1)),
                  Ok JUndefined)) as H2
    by (by apply createUser_conflict).
  rewrite H2, H1. simpl. split_and!; try done.
  - rewrite filter_app.
    rewrite filter_none; [by rewrite filter_cons_True|].
    intros u' Hu' Heq. apply Hn. rewrite <-Heq.
    by apply list_elem_of_fmap_2.
  - apply store_ok_bump_users_seq. by apply store_ok_insert_user.
  - intros w' p n l Hin'. by rewrite createUser_conflict.
Qed.

(** ** [createTags]: insert ignoring conflicts, then select *)

Lemma filter_unique {A B} `{EqDecision B} (f : A → B) (l : list A) x :
  NoDup (f <$> l) → x ∈ l → filter (λ y, f y = f x) l = [x].
Proof.
  induction l as [|y l IH]; intros Hnd Hx; [by apply elem_of_nil in Hx|].
  rewrite fmap_cons in Hnd. apply NoDup_cons in Hnd as [Hy Hnd].
  apply elem_of_cons in Hx as [->|Hx].
  - rewrite filter_cons_True by done. f_equal. apply filter_none.
    intros z Hz Heq. apply Hy. rewrite <-Heq. by apply list_elem_of_fmap_2.
  - rewrite filter_cons_False; [by apply IH|].
    intros Heq. apply Hy. rewrite Heq. by apply list_elem_of_fmap_2.
Qed.

Lemma mapM_pg_text names : mapM pg_text (JStr <$> names) = Some names.
Proof. by apply mapM_fmap_Some. Qed.

Lemma mapM_pg_int ids : mapM pg_int (JNum <$> ids) = Some ids.
Proof. by apply mapM_fmap_Some. Qed.

Lemma insert_tag_rows_spec names ts seq :
  tags_ok ts seq →
  ∃ new,
    insert_tag_rows names ts seq =
      (Some (ts ++ new), (seq + Z.of_nat (length names))%Z) ∧
    tags_ok (ts ++ new) (seq + Z.of_nat (length names)) ∧
    (∀ n, n ∈ names → n ∈ t_name <$> ts ++ new) ∧
    (∀ t, t ∈ new → t_name t ∈ names).
Proof.
  revert ts seq. induction names as [|n names IH]; intros ts seq Hok.
  { exists []. simpl. rewrite app_nil_r, Z.add_0_r.
    split_and!; [done..| |]; intros ? []%elem_of_nil. }
  destruct Hok as (Hid & Hnm & Hseq). simpl insert_tag_rows.
  replace (seq + Z.of_nat (length (n :: names)))%Z
    with (seq + 1 + Z.of_nat (length names))%Z by (simpl; lia).
  case_bool_decide as Hin.
  - destruct (IH ts (seq + 1)%Z) as (new & Heq & Hok' & Hall & Hnew).
    { split_and!; [done..|]. eapply Forall_impl; [done|]. simpl. intros; lia. }
    exists new. split_and!; [done..| |].
    + intros m [->|Hm]%elem_of_cons; [|by apply Hall].
      rewrite fmap_app. apply elem_of_app. by left.
    + intros t Ht. right. by apply Hnew.
  - rewrite bool_decide_eq_false_2.
    2:{ intros (t & Ht & Hin')%list_elem_of_fmap.
        rewrite Forall_forall in Hseq. specialize (Hseq _ Hin'). lia. }
    destruct (IH (ts ++ [Tag seq n]) (seq + 1)%Z)
      as (new & Heq & Hok' & Hall & Hnew).
    { split_and!.
      - rewrite fmap_app. apply NoDup_app.
        split_and!; [done| |apply NoDup_singleton].
        intros i (t & -> & Ht)%list_elem_of_fmap Hi.
        apply list_elem_of_singleton in Hi. simpl in Hi.
        rewrite Forall_forall in Hseq. specialize (Hseq _ Ht). lia.
      - rewrite fmap_app. apply NoDup_app.
        split_and!; [done| |apply NoDup_singleton].
        intros m Hm Hm'. apply list_elem_of_singleton in Hm'. simpl in Hm'.
        by subst.
      - apply Forall_app. split; [|apply Forall_singleton; simpl; lia].
        eapply Forall_impl; [done|]. simpl. intros; lia. }
    exists (Tag seq n :: new). rewrite <-app_assoc in *. simpl in *.
    split_and!; [done..| |].
    + intros m [->|Hm]%elem_of_cons; [|by apply Hall].
      rewrite fmap_app. apply elem_of_app. right. left.
    + intros t [->|Ht]%elem_of_cons; [left|right; by apply Hnew].
Qed.

Lemma insert_tags_eq s names :
  names ≠ [] →
  insert_tags (JStr <$> names) s =
  match insert_tag_rows names (tags s) (tags_id_seq s) with
  | (None, seq) =>
      (Store (users s) (posts s) (tags s) (post_tags s) (users_id_seq s)
             (posts_id_seq s) seq, Throw StoreError)
  | (Some ts, seq) =>
      (Store (users s) (posts s) ts (post_tags s) (users_id_seq s)
             (posts_id_seq s) seq,
       Ok (tag_star <$> drop (length (tags s)) ts))
  end.
Proof. intros Hne. unfold insert_tags. rewrite mapM_pg_text. by destruct names. Qed.

Lemma select_tags_by_names_eq s names :
  names ≠ [] →
  select_tags_by_names (JStr <$> names) s =
  (s, Ok (tag_star <$> filter (λ t, t_name t ∈ names) (tags s))).
Proof.
  intros Hne. unfold select_tags_by_names. rewrite mapM_pg_text.
  by destruct names.
Qed.

Lemma createTags_run w names :
  store_ok (db w) → names ≠ [] →
  ∃ new,
    let s := db w in
    let s' := Store (users s) (posts s) (tags s ++ new) (post_tags s)
                (users_id_seq s) (posts_id_seq s)
                (tags_id_seq s + Z.of_nat (length names)) in
    createTags (js_strings names) w =
      (World (heap w) s',
       Ok (JArr (JObj <$> (tag_star <$>
             filter (λ t, t_name t ∈ names) (tags s ++ new))))) ∧
    store_ok s' ∧
    (∀ n, n ∈ names → n ∈ t_name <$> tags s ++ new) ∧
    (∀ t, t ∈ new → t_name t ∈ names).
Proof.
  intros Hok Hne.
  destruct Hok as (Hu & Hp & Ht & (Hj1 & Hj2 & Hj3)).
  destruct (insert_tag_rows_spec names _ _ Ht) as (new & Heq & Hok' & Hall & Hnew).
  exists new. simpl. split_and!; [| |done..].
  - unfold createTags.
    rewrite (bind_ok _ _ w w false).
    2:{ unfold lift, js_strings. simpl. rewrite bool_decide_eq_false_2; [done|].
        rewrite length_fmap. by destruct names. }
    rewrite (bind_ok _ _ w w (JStr <$> names)) by done.
    erewrite bind_ok.
    2:{ unfold query. rewrite insert_tags_eq, Heq by done. reflexivity. }
    erewrite bind_ok.
    2:{ unfold query. rewrite select_tags_by_names_eq by done. reflexivity. }
    done.
  - unfold store_ok. simpl.
    split_and!; try apply Hu; try apply Hp; try apply Hok'; try done.
    eapply Forall_impl; [done|]. simpl. intros pt Hpt.
    rewrite fmap_app. apply elem_of_app. by left.
Qed.

Lemma createTags_upsert_get_one w names :
  store_ok (db w) → upsert_get names w (createTags (js_strings names) w).
Proof.
  intros Hok. destruct (decide (names = [])) as [->|Hne].
  { unfold js_strings. simpl. rewrite createTags_empty. by split_and!. }
  destruct (createTags_run _ _ Hok Hne) as (new & Heq & Hok' & Hall & Hnew).
  simpl in *. rewrite Heq. split_and!; simpl; try done.
  intros _. split_and!; [by apply prefix_app_r| | |done].
  - intros t [Ht|Ht]%elem_of_app; [by left|right; by apply Hnew].
  - intros n (t & -> & Ht)%Hall%list_elem_of_fmap. exists t.
    apply filter_unique; [|done]. apply Hok'.
Qed.

(** C3. [createTags] is an idempotent upsert-get.  After a call every
    requested name has exactly one row in [tags], rows that were there
    keep their ids, and the rows (id and name) of all requested names
    come back, new or not; for the empty sequence [undefined] comes back
    and the store is not touched.  After two calls, whatever the names
    share, every name of either call still has exactly one row, and the
    second call hands back, for a name of the first, the row the first
    call left. *)
Theorem createTags_upsert_get_idempotent (w : world)
    (names1 names2 : list string) :
  store_ok (db w) →
  let out1 := createTags (js_strings names1) w in
  let out2 := createTags (js_strings names2) out1.1 in
  upsert_get names1 w out1 ∧
  upsert_get names2 out1.1 out2 ∧
  (∀ n, n ∈ names1 ++ names2 →
     ∃ t, filter (λ t, t_name t = n) (tags (db out2.1)) = [t]) ∧
  (∀ n t, n ∈ names1 → t ∈ tags (db out1.1) → t_name t = n →
     filter (λ t, t_name t = n) (tags (db out2.1)) = [t]).
Proof.
  intros Hok out1 out2.
  pose proof (createTags_upsert_get_one w names1 Hok) as H1.
  fold out1 in H1.
  assert (store_ok (db out1.1)) as Hok1 by apply H1.
  pose proof (createTags_upsert_get_one out1.1 names2 Hok1) as H2.
  fold out2 in H2.
  assert (tags (db out1.1) `prefix_of` tags (db out2.1)) as Hpre.
  { destruct (decide (names2 = [])) as [Hnil|Hne].
    - destruct H2 as (_ & _ & _ & _ & _ & Hemp & _). by rewrite (Hemp Hnil).
    - by apply H2. }
  assert (NoDup (t_name <$> tags (db out2.1))) as Hnd by apply H2.
  assert (∀ n t, t ∈ tags (db out1.1) → t_name t = n →
            filter (λ t, t_name t = n) (tags (db out2.1)) = [t]) as Hkeep.
  { intros n t Ht <-. apply filter_unique; [done|].
    destruct Hpre as [k ->]. apply elem_of_app. by left. }
  split_and!; [done..| |by eauto].
  intros n [Hn|Hn]%elem_of_app.
  - destruct (decide (names1 = [])) as [->|Hne];
      [by apply elem_of_nil in Hn|].
    destruct H1 as (_ & _ & _ & _ & _ & _ & H1). specialize (H1 Hne).
    destruct H1 as (_ & _ & Hone & _). destruct (Hone _ Hn) as [t Ht].
    exists t. apply Hkeep.
    + assert (t ∈ filter (λ t, t_name t = n) (tags (db out1.1))) as Hin
        by (rewrite Ht; left).
      by apply list_elem_of_filter in Hin as [_ ?].
    + assert (t ∈ filter (λ t, t_name t = n) (tags (db out1.1))) as Hin
        by (rewrite Ht; left).
      by apply list_elem_of_filter in Hin as [? _].
  - destruct (decide (names2 = [])) as [->|Hne];
      [by apply elem_of_nil in Hn|].
    destruct H2 as (_ & _ & _ & _ & _ & _ & H2). specialize (H2 Hne).
    by apply H2.
Qed.

(** ** Linking tags to a post *)

Lemma with_post_tags_id s : with_post_tags (post_tags s) s = s.
Proof. by destruct s. Qed.

Lemma insert_post_tag_ok s postId tagId :
  postId ∈ p_id <$> posts s → tagId ∈ t_id <$> tags s →
  insert_post_tag postId (JNum tagId) s =
    (with_post_tags (link_row postId tagId (post_tags s)) s, Ok []).
Proof.
  intros Hp Ht. unfold insert_post_tag, link_row. simpl.
  case_bool_decide; [by rewrite with_post_tags_id|].
  by rewrite bool_decide_eq_true_2.
Qed.

Lemma elem_of_link_row pt postId tagId pts :
  pt ∈ link_row postId tagId pts ↔ pt ∈ pts ∨ pt = PostTag postId tagId.
Proof.
  unfold link_row. case_bool_decide as Hin.
  - split; [by left|]. by intros [?| ->].
  - by rewrite elem_of_app, list_elem_of_singleton.
Qed.

Lemma elem_of_link_rows pt postId tagIds pts :
  pt ∈ link_rows postId tagIds pts ↔
  pt ∈ pts ∨ ∃ i, i ∈ tagIds ∧ pt = PostTag postId i.
Proof.
  unfold link_rows. revert pts.
  induction tagIds as [|i tagIds IH]; intros pts; simpl.
  - split; [by left|]. intros [?|(i & Hi & _)]; [done|].
    by apply elem_of_nil in Hi.
  - rewrite IH, elem_of_link_row. split.
    + intros [[?| ->]|(j & Hj & ->)]; [by left|right..].
      * exists i. split; [left|done].
      * exists j. split; [by right|done].
    + intros [?|(j & [->|Hj]%elem_of_cons & ->)]; [by left; left|..].
      * left. by right.
      * right. eauto.
Qed.

Lemma link_rows_prefix postId tagIds pts :
  pts `prefix_of` link_rows postId tagIds pts.
Proof.
  unfold link_rows. revert pts.
  induction tagIds as [|i tagIds IH]; intros pts; simpl; [done|].
  etrans; [|apply IH]. unfold link_row. case_bool_decide; [done|].
  by apply prefix_app_r.
Qed.

Lemma link_rows_NoDup postId tagIds pts :
  NoDup pts → NoDup (link_rows postId tagIds pts).
Proof.
  unfold link_rows. revert pts.
  induction tagIds as [|i tagIds IH]; intros pts Hnd; simpl; [done|].
  apply IH. unfold link_row. case_bool_decide; [done|].
  apply NoDup_app. split_and!; [done| |apply NoDup_singleton].
  intros pt Hpt ->%list_elem_of_singleton. done.
Qed.

Lemma tag_star_id t : tag_star t !! "id" = Some (JNum (t_id t)).
Proof. reflexivity. Qed.

Lemma tag_ids_rows (R : list tag_row) :
  tag_ids (JObj <$> (tag_star <$> R)) = Ok (JNum <$> (t_id <$> R)).
Proof.
  induction R as [|t R IH]; [done|]. rewrite !fmap_cons. cbn [tag_ids].
  rewrite IH. reflexivity.
Qed.

Lemma promise_all_ok {A} (xs : list A) : promise_all (Ok <$> xs) = Ok xs.
Proof.
  induction xs as [|x xs IH]; [done|]. rewrite fmap_cons. cbn [promise_all].
  by rewrite IH.
Qed.

(** The [map] of [addTagsToPost] over rows that [createTags] handed
    back: every pair is linked, every promise resolves. *)
Lemma link_all h s postId (R : list tag_row) :
  postId ∈ p_id <$> posts s →
  (∀ t, t ∈ R → t_id t ∈ t_id <$> tags s) →
  map_async (λ tag,
      match get_prop tag "id" with
      | Ok tagId => Ok (createPostTag postId tagId)
      | Throw e => Throw e
      end) (JObj <$> (tag_star <$> R)) (World h s) =
  (World h (with_post_tags (link_rows postId (t_id <$> R) (post_tags s)) s),
   Ok (Ok <$> replicate (length R) JUndefined)).
Proof.
  revert s. induction R as [|t R IH]; intros s Hp Ht.
  { simpl. by rewrite with_post_tags_id. }
  rewrite !fmap_cons. simpl map_async.
  unfold createPostTag at 1, bind, query. simpl db.
  rewrite tag_star_id. simpl default.
  rewrite insert_post_tag_ok; [|done|apply Ht; left]. simpl.
  rewrite IH; [done|done|]. intros t' Ht'. simpl. apply Ht. by right.
Qed.

(** ** Reconciling the tags of a post *)

Lemma delete_post_tags_not_in_eq s ids postId :
  ids ≠ [] →
  delete_post_tags_not_in (JNum <$> ids) postId s =
  (with_post_tags
     (filter (λ pt, ¬ ((pt_tagId pt ∉ ids) ∧ pt_postId pt = postId))
             (post_tags s)) s, Ok []).
Proof.
  intros Hne. unfold delete_post_tags_not_in. rewrite mapM_pg_int.
  by destruct ids.
Qed.

Lemma addTagsToPost_rows h s postId (R : list tag_row) :
  postId ∈ p_id <$> posts s →
  (∀ t, t ∈ R → t_id t ∈ t_id <$> tags s) →
  let w' := World h (with_post_tags
                       (link_rows postId (t_id <$> R) (post_tags s)) s) in
  addTagsToPost postId (JArr (JObj <$> (tag_star <$> R))) (World h s) =
  getPostById postId w'.
Proof.
  intros Hp Ht w'. unfold addTagsToPost.
  rewrite (bind_ok _ _ _ (World h s) (JObj <$> (tag_star <$> R))) by done.
  rewrite (bind_ok _ _ _ _ _ (link_all h s postId R Hp Ht)).
  erewrite bind_ok; [done|]. unfold lift. by rewrite promise_all_ok.
Qed.

Lemma updatePost_tags_run w postId l D :
  store_ok (db w) →
  postId ∈ p_id <$> posts (db w) →
  D ≠ [] →
  heap w !! l = Some {["tags" := js_strings D]} →
  ∃ new,
    let s := db w in
    let ts := tags s ++ new in
    let ids := t_id <$> filter (λ t, t_name t ∈ D) ts in
    let s2 := Store (users s) (posts s) ts (post_tags s) (users_id_seq s)
                (posts_id_seq s) (tags_id_seq s + Z.of_nat (length D)) in
    let s' :=
      with_post_tags
        (link_rows postId ids
           (filter (λ pt, ¬ ((pt_tagId pt ∉ ids) ∧ pt_postId pt = postId))
                   (post_tags s))) s2 in
    updatePost postId (Some l) w =
      getPostById postId (World (<[l := ∅]> (heap w)) s') ∧
    store_ok s2 ∧
    (∀ n, n ∈ D → n ∈ t_name <$> ts) ∧
    (∀ t, t ∈ new → t_name t ∈ D).
Proof.
  intros Hok Hp HD Hl.
  set (w1 := World (<[l := ∅]> (heap w)) (db w)).
  destruct (createTags_run w1 D Hok HD) as (new & Hct & Hok2 & Hall & Hnew).
  exists new. simpl in *. split_and!; [|done..].
  set (ts := tags (db w) ++ new) in *.
  set (R := filter (λ t, t_name t ∈ D) ts) in *.
  assert (t_id <$> R ≠ []) as Hids.
  { destruct D as [|n D]; [done|].
    assert (n ∈ t_name <$> ts) as (t & Hn & Ht)%list_elem_of_fmap
      by (apply Hall; left).
    assert (t ∈ R) as HR by (apply list_elem_of_filter; split; [rewrite <-Hn; left|done]).
    intros Hnil. apply (list_elem_of_fmap_2 t_id) in HR. rewrite Hnil in HR.
    by apply elem_of_nil in HR. }
  rewrite (updatePost_unfold _ _ _ _ Hl).
  rewrite lookup_singleton_eq, delete_singleton_eq. simpl default.
  fold w1. unfold updatePost_rest.
  rewrite (bind_ok _ _ w1 w1 ∅) by (apply read_fields_some, lookup_insert_eq).
  rewrite map_to_list_empty. simpl.
  rewrite (bind_ok _ _ w1 w1 []) by done.
  rewrite (bind_ok _ _ _ _ _ Hct).
  erewrite bind_ok by done.
  erewrite bind_ok by (unfold lift; by rewrite tag_ids_rows).
  erewrite bind_ok.
  2:{ unfold query. simpl db. rewrite delete_post_tags_not_in_eq by done.
      reflexivity. }
  simpl heap.
  set (s2 := Store (users (db w)) (posts (db w)) ts (post_tags (db w))
               (users_id_seq (db w)) (posts_id_seq (db w))
               (tags_id_seq (db w) + Z.of_nat (length D))).
  set (s3 := with_post_tags
               (filter (λ pt, ¬ ((pt_tagId pt ∉ t_id <$> R) ∧ pt_postId pt = postId))
                  (post_tags s2)) s2).
  assert (∀ t, t ∈ R → t_id t ∈ t_id <$> tags s3) as HR.
  { intros t [_ Ht]%list_elem_of_filter. by apply list_elem_of_fmap_2. }
  pose proof (addTagsToPost_rows (<[l:=∅]> (heap w)) s3 postId R Hp HR) as Hadd.
  cbv zeta in Hadd.
  destruct (getPostById_found postId
    (World (<[l:=∅]> (heap w))
       (with_post_tags (link_rows postId (t_id <$> R) (post_tags s3)) s3)))
    as (p & _ & _ & Hget); [done|].
  rewrite Hget in Hadd.
  by rewrite (bind_ok _ _ _ _ _ Hadd).
Qed.

(** C1. Tag reconciliation.  For a post that exists and a non-empty
    sequence [D] of tag names, [updatePost(postId, {tags: D})] leaves
    the post labelled with exactly the names of [D], whatever it was
    labelled with before: the join rows of the post whose tag is not
    among the ids [D] resolves to are deleted, every tag of [D] is
    linked, the rows that were already right stay where they were (and
    the tags keep their ids), the rows of other posts are not touched,
    and the call resolves to the post as [getPostById] aggregates it
    from the store it leaves. *)
Theorem updatePost_reconciles_tags (w : world) (postId : Z) (l : loc)
    (D : list string) :
  store_ok (db w) →
  postId ∈ p_id <$> posts (db w) →
  D ≠ [] →
  heap w !! l = Some {["tags" := js_strings D]} →
  let out := updatePost postId (Some l) w in
  let s := db w in
  let s' := db out.1 in
  let ids := resolved_ids D s' in
  tag_names_of_post postId s' = list_to_set D ∧
  (∀ i, PostTag postId i ∈ post_tags s' ↔ i ∈ ids) ∧
  (∀ pt, pt ∈ post_tags s → pt_postId pt = postId → pt_tagId pt ∉ ids →
         pt ∉ post_tags s') ∧
  filter (λ pt, pt_postId pt ≠ postId ∨ pt_tagId pt ∈ ids) (post_tags s)
    `prefix_of` post_tags s' ∧
  (∀ pt, pt_postId pt ≠ postId → pt ∈ post_tags s' ↔ pt ∈ post_tags s) ∧
  tags s `prefix_of` tags s' ∧ users s' = users s ∧ posts s' = posts s ∧
  store_ok s' ∧
  getPostById postId out.1 = out ∧
  (∃ p, p ∈ posts s ∧ p_id p = postId ∧ out.2 = Ok (JObj (aggregate p s'))).
Proof.
  intros Hok Hp HD Hl out s s' ids.
  destruct (updatePost_tags_run w postId l D Hok Hp HD Hl)
    as (new & Hrun & Hok2 & Hall & Hnew).
  cbv zeta in Hrun. fold s in Hrun, Hok2, Hall.
  set (ts := tags s ++ new) in *.
  set (ids0 := t_id <$> filter (λ t, t_name t ∈ D) ts) in *.
  set (s2 := Store (users s) (posts s) ts (post_tags s) (users_id_seq s)
               (posts_id_seq s) (tags_id_seq s + Z.of_nat (length D))) in *.
  set (kept := filter (λ pt, ¬ ((pt_tagId pt ∉ ids0) ∧ pt_postId pt = postId))
                 (post_tags s)) in *.
  set (w' := World (<[l:=∅]> (heap w))
               (with_post_tags (link_rows postId ids0 kept) s2)) in *.
  destruct (getPostById_found postId w') as (p & Hpin & Hpid & Hget); [done|].
  assert (out = (w', Ok (JObj (aggregate p (db w'))))) as Hout
    by (unfold out; by rewrite Hrun).
  assert (s' = db w') as Hs' by (unfold s'; by rewrite Hout).
  assert (ids = ids0) as Hids by (unfold ids; by rewrite Hs').
  assert (post_tags s' = link_rows postId ids0 kept) as Hpts by (by rewrite Hs').
  assert (tags s' = ts) as Hts by (by rewrite Hs').
  destruct Hok as (Hu & Hpo & Ht & (Hj1 & Hj2 & Hj3)).
  destruct Hok2 as (_ & _ & (Htid & Htnm & Htseq) & _).
  assert (∀ pt, pt ∈ kept ↔
            pt ∈ post_tags s ∧ (pt_postId pt ≠ postId ∨ pt_tagId pt ∈ ids0))
    as Hkept.
  { intros pt. unfold kept. rewrite list_elem_of_filter. split.
    - intros [Hk ?]. split; [done|].
      destruct (decide (pt_postId pt = postId)); [|by left].
      destruct (decide (pt_tagId pt ∈ ids0)); [by right|]. by destruct Hk.
    - intros [? Hk]. split; [|done]. intros [? ?]. by destruct Hk. }
  assert (∀ i, PostTag postId i ∈ post_tags s' ↔ i ∈ ids0) as Hlinked.
  { intros i. rewrite Hpts, elem_of_link_rows, Hkept. simpl. split.
    - intros [[_ [?|?]]|(j & Hj & [= ->])]; done.
    - intros Hi. right. eauto. }
  rewrite Hids. split_and!.
  - apply set_eq. intros n. unfold tag_names_of_post.
    rewrite !elem_of_list_to_set, list_elem_of_fmap. split.
    + intros (t & -> & [Htin Hlink]%elem_of_tags_of_post).
      apply Hlinked in Hlink. unfold ids0 in Hlink.
      apply list_elem_of_fmap in Hlink as (t' & Hid & [Hn Ht']%list_elem_of_filter).
      rewrite Hts in Htin.
      assert (t = t') as ->; [|done].
      assert (filter (λ y, t_id y = t_id t) ts = [t]) as E1
        by (by apply filter_unique).
      assert (filter (λ y, t_id y = t_id t') ts = [t']) as E2
        by (by apply filter_unique).
      rewrite <-Hid in E2. congruence.
    + intros Hn.
      pose proof (Hall n Hn) as Hrow.
      apply list_elem_of_fmap in Hrow as (t & -> & Htin).
      exists t. split; [done|]. apply elem_of_tags_of_post.
      rewrite Hts. split; [done|]. apply Hlinked. unfold ids0.
      apply list_elem_of_fmap_2. by apply list_elem_of_filter.
  - done.
  - intros [pid tid] Hin Hpid' Hnot Hin'. simpl in *. subst pid.
    by apply Hlinked in Hin'.
  - rewrite Hpts. etrans; [|apply link_rows_prefix].
    unfold kept. erewrite list_filter_iff; [done|].
    intros pt. simpl. split.
    + intros Hk [? ?]. by destruct Hk.
    + intros Hk. destruct (decide (pt_postId pt = postId)); [|by left].
      destruct (decide (pt_tagId pt ∈ ids0)); [by right|]. by destruct Hk.
  - intros pt Hne. rewrite Hpts, elem_of_link_rows, Hkept. split.
    + intros [[? _]|(j & _ & ->)]; done.
    + intros ?. left. split; [done|by left].
  - rewrite Hts. by apply prefix_app_r.
  - by rewrite Hs'.
  - by rewrite Hs'.
  - rewrite Hs'. unfold store_ok. simpl.
    split_and!; try apply Hu; try apply Hpo; try done.
    + apply link_rows_NoDup. by apply NoDup_filter.
    + apply Forall_forall. intros pt [[Hin _]%Hkept|(j & _ & ->)]%elem_of_link_rows.
      * rewrite Forall_forall in Hj2. by apply Hj2.
      * done.
    + apply Forall_forall. intros pt [[Hin _]%Hkept|(j & Hj & ->)]%elem_of_link_rows.
      * rewrite Forall_forall in Hj3. unfold ts. rewrite fmap_app.
        apply elem_of_app. left. by apply Hj3.
      * simpl. unfold ids0 in Hj.
        apply list_elem_of_fmap in Hj as (t & -> & [_ Htin]%list_elem_of_filter).
        by apply list_elem_of_fmap_2.
  - rewrite Hout. simpl. by rewrite Hget.
  - exists p. rewrite Hs'. by rewrite Hout.
Qed.

(** ** What a post aggregate shows *)

Lemma map_fold_orb (f : jsval → bool) (o : jsobj) :
  map_fold (λ _ v acc, acc || f v) false o = false ↔
  ∀ k v, o !! k = Some v → f v = false.
Proof.
  apply (map_fold_weak_ind
    (λ r (m : jsobj), r = false ↔ ∀ k v, m !! k = Some v → f v = false)).
  - split; [|done]. intros _ k v. by rewrite lookup_empty.
  - intros i x m r Hi IH. rewrite orb_false_iff, IH. split.
    + intros [Hm Hx] k v [[-> ->]|[_ Hk]]%lookup_insert_Some; eauto.
    + intros Hall. split.
      * intros k v Hk. apply (Hall k). rewrite lookup_insert_ne; [done|].
        intros ->. congruence.
      * apply (Hall i). by rewrite lookup_insert_eq.
Qed.

Lemma exposes_obj k (o : jsobj) :
  exposes k (JObj o) = false ↔
  o !! k = None ∧ ∀ k' v, o !! k' = Some v → exposes k v = false.
Proof.
  simpl. rewrite orb_false_iff, map_fold_orb, bool_decide_eq_false.
  by rewrite <-eq_None_not_Some.
Qed.

Lemma exposes_arr k xs :
  exposes k (JArr xs) = false ↔ Forall (λ v, exposes k v = false) xs.
Proof.
  simpl. induction xs as [|x xs IH]; simpl.
  - split; [constructor|done].
  - rewrite orb_false_iff, IH, Forall_cons. done.
Qed.

Lemma exposes_tag_rows k (R : list tag_row) :
  k ≠ "id" → k ≠ "name" →
  exposes k (JArr (JObj <$> (tag_star <$> R))) = false.
Proof.
  intros H1 H2. apply exposes_arr. rewrite <-list_fmap_compose.
  apply Forall_fmap, Forall_forall. intros t _. simpl.
  apply exposes_obj. unfold tag_star. split.
  - by rewrite !lookup_insert_ne.
  - intros k' v [[<- <-]|[_ [[<- <-]|[_ Hk]]%lookup_insert_Some]]%lookup_insert_Some;
      done.
Qed.

Ltac in_list :=
  solve [repeat first [apply list_elem_of_here | apply list_elem_of_further]].

Ltac not_in_list :=
  let H := fresh in
  intros H; repeat (apply elem_of_cons in H as [H|H]; [discriminate|]);
  by apply elem_of_nil in H.

Lemma exposes_user_proj k u :
  k ∉ ["id"; "username"; "name"; "location"] →
  exposes k (JObj (user_proj u)) = false.
Proof.
  intros Hk. apply exposes_obj. unfold user_proj. split.
  - rewrite !lookup_insert_ne; [done|intros <-; apply Hk; in_list..].
  - intros k' v Hv.
    repeat (apply lookup_insert_Some in Hv as [[<- <-]|[_ Hv]]; [done|]).
    done.
Qed.

Lemma aggregate_shape p s : post_aggregate (JObj (aggregate p s)).
Proof.
  assert (∀ k, k ∉ ["id"; "username"; "name"; "location"; "title";
                    "content"; "tags"; "author"] →
               exposes k (JObj (aggregate p s)) = false) as Hex.
  { intros k Hk. apply exposes_obj. unfold aggregate, post_star. split.
    - destruct (decide (k = "authorId")) as [->|?]; [by rewrite lookup_delete_eq|].
      rewrite lookup_delete_ne by done.
      rewrite !lookup_insert_ne;
        [done|intros <-; first [done|apply Hk; in_list]..].
    - intros k' v [_ Hv]%lookup_delete_Some.
      apply lookup_insert_Some in Hv as [[<- <-]|[_ Hv]].
      { destruct (filter _ (users s)) as [|u us]; [done|]. simpl.
        apply exposes_user_proj. intros Hin. apply Hk. revert Hin.
        rewrite !elem_of_cons. tauto. }
      apply lookup_insert_Some in Hv as [[<- <-]|[_ Hv]].
      { apply exposes_tag_rows; intros ->; apply Hk; in_list. }
      repeat (apply lookup_insert_Some in Hv as [[<- <-]|[_ Hv]]; [done|]).
      done. }
  split_and!.
  - exists (aggregate p s). split_and!; [done|by eexists..].
  - apply Hex. not_in_list.
  - apply Hex. not_in_list.
Qed.

(** ** The list reads *)

Lemma getPostById_of_row p w :
  (let* id := as_id (default JUndefined (post_id_only p !! "id")) in
   getPostById id) w = getPostById (p_id p) w.
Proof. reflexivity. Qed.

Lemma map_async_getPostById w (ps : list post_row) :
  (∀ p, p ∈ ps → p ∈ posts (db w)) →
  ∃ vs,
    map_async (λ row : jsobj,
      Ok (let* id := as_id (default JUndefined (row !! "id")) in
          getPostById id)) (post_id_only <$> ps) w = (w, Ok (Ok <$> vs)) ∧
    Forall2 (λ p v, getPostById (p_id p) w = (w, Ok v)) ps vs.
Proof.
  induction ps as [|p ps IH]; intros Hps.
  { exists []. by split; [|constructor]. }
  destruct IH as (vs & Hmap & Hall); [intros q Hq; apply Hps; by right|].
  destruct (getPostById_found (p_id p) w) as (p' & _ & _ & Hget).
  { apply list_elem_of_fmap_2, Hps. left. }
  exists (JObj (aggregate p' (db w)) :: vs). split; [|by constructor].
  rewrite !fmap_cons. cbn [map_async].
  rewrite getPostById_of_row, Hget. by rewrite Hmap.
Qed.

Lemma getPosts_rows w (ps : list post_row) :
  (∀ p, p ∈ ps → p ∈ posts (db w)) →
  ∃ vs,
    getPosts (post_id_only <$> ps) w = (w, Ok (JArr vs)) ∧
    Forall2 (λ p v, getPostById (p_id p) w = (w, Ok v)) ps vs.
Proof.
  intros Hps. destruct (map_async_getPostById w ps Hps) as (vs & Hmap & Hall).
  exists vs. split; [|done]. unfold getPosts.
  rewrite (bind_ok _ _ _ _ _ Hmap). unfold lift, bind at 1.
  by rewrite promise_all_ok.
Qed.

Lemma getAllPosts_eq w :
  ∃ vs, getAllPosts w = (w, Ok (JArr vs)) ∧
        Forall2 (λ p v, getPostById (p_id p) w = (w, Ok v)) (posts (db w)) vs.
Proof.
  destruct (getPosts_rows w (posts (db w))) as (vs & Hget & Hall); [done|].
  exists vs. split; [|done]. unfold getAllPosts, bind, query, select_post_ids.
  destruct w as [h s]. simpl in *. by rewrite Hget.
Qed.

Lemma getPostsByUser_eq userId w :
  ∃ vs, getPostsByUser userId w = (w, Ok (JArr vs)) ∧
        Forall2 (λ p v, getPostById (p_id p) w = (w, Ok v))
          (filter (λ p, p_authorId p = userId) (posts (db w))) vs.
Proof.
  destruct (getPosts_rows w (filter (λ p, p_authorId p = userId) (posts (db w))))
    as (vs & Hget & Hall).
  { by intros p [_ ?]%list_elem_of_filter. }
  exists vs. split; [|done].
  unfold getPostsByUser, bind, query, select_post_ids_by_author.
  destruct w as [h s]. simpl in *. by rewrite Hget.
Qed.

(** The posts behind the rows of the tag-name lookup. *)
Lemma join_tags_rows tagName (q : post_row) (pt : post_tag_row)
    (ts : list tag_row) :
  ∃ m, (t ← ts;
        if decide (p_id q = pt_postId pt ∧ t_id t = pt_tagId pt ∧
                   t_name t = tagName)
        then [post_id_only q] else []) = post_id_only <$> replicate m q ∧
       ((tagName ∉ t_name <$> ts) → m = 0).
Proof.
  induction ts as [|t ts (m & IH & Hm)]; [by exists 0|].
  rewrite bind_cons, IH.
  destruct (decide (p_id q = pt_postId pt ∧ t_id t = pt_tagId pt ∧
                    t_name t = tagName)) as [Hd|Hd].
  - exists (S m). split; [done|]. intros Hno. exfalso. apply Hno.
    rewrite fmap_cons. destruct Hd as (_ & _ & <-). left.
  - exists m. split; [done|]. intros Hno. apply Hm. intros ?. apply Hno.
    rewrite fmap_cons. by right.
Qed.

Lemma join_post_tags_rows tagName (q : post_row) (ts : list tag_row)
    (pts : list post_tag_row) :
  ∃ n, (pt ← pts; t ← ts;
        if decide (p_id q = pt_postId pt ∧ t_id t = pt_tagId pt ∧
                   t_name t = tagName)
        then [post_id_only q] else []) = post_id_only <$> replicate n q ∧
       ((tagName ∉ t_name <$> ts) → n = 0).
Proof.
  induction pts as [|pt pts (n & IH & Hn)]; [by exists 0|].
  rewrite bind_cons, IH.
  destruct (join_tags_rows tagName q pt ts) as (m & -> & Hm).
  exists (m + n). rewrite replicate_add, fmap_app. split; [done|].
  intros Hno. by rewrite Hm, Hn.
Qed.

Lemma posts_by_tag_name_join tagName s (qs : list post_row) :
  ∃ ps, (∀ p, p ∈ ps → p ∈ qs) ∧
        (p ← qs; pt ← post_tags s; t ← tags s;
         if decide (p_id p = pt_postId pt ∧ t_id t = pt_tagId pt ∧
                    t_name t = tagName)
         then [post_id_only p] else []) = post_id_only <$> ps ∧
        (tagName ∉ t_name <$> tags s → ps = []).
Proof.
  induction qs as [|q qs (ps & Hin & Heq & Hnil)].
  { exists []. split_and!; [|done..]. by intros p ?%elem_of_nil. }
  rewrite bind_cons, Heq.
  destruct (join_post_tags_rows tagName q (tags s) (post_tags s))
    as (n & -> & Hn).
  exists (replicate n q ++ ps). split_and!.
  - intros p [[-> _]%elem_of_replicate|?]%elem_of_app; [left|right; by apply Hin].
  - by rewrite fmap_app.
  - intros Hno. by rewrite Hn, Hnil.
Qed.

Lemma posts_by_tag_name_rows tagName s :
  ∃ ps, (∀ p, p ∈ ps → p ∈ posts s) ∧
        select_post_ids_by_tag_name tagName s = (s, Ok (post_id_only <$> ps)) ∧
        (tagName ∉ t_name <$> tags s → ps = []).
Proof.
  destruct (posts_by_tag_name_join tagName s (posts s)) as (ps & ? & Heq & ?).
  exists ps. split_and!; [done| |done].
  unfold select_post_ids_by_tag_name. by rewrite Heq.
Qed.

Lemma getPostsByTagName_eq tagName w :
  ∃ vs, getPostsByTagName tagName w = (w, Ok (JArr vs)) ∧
        Forall (λ v, ∃ postId, getPostById postId w = (w, Ok v)) vs ∧
        (tagName ∉ t_name <$> tags (db w) → vs = []).
Proof.
  destruct (posts_by_tag_name_rows tagName (db w)) as (ps & Hin & Hsel & Hnil).
  destruct (getPosts_rows w ps Hin) as (vs & Hget & Hall).
  exists vs. split_and!.
  - unfold getPostsByTagName, bind, query. rewrite Hsel.
    destruct w as [h s]. simpl in *. by rewrite Hget.
  - clear -Hall. induction Hall; constructor; eauto.
  - intros Hno. rewrite Hnil in Hall by done. by inversion Hall.
Qed.

(** ** Every post that comes back is an aggregate *)

Lemma returns_bind {A B} (Q : B → Prop) (m : M A) (k : A → M B) :
  (∀ a, returns Q (k a)) → returns Q (bind m k).
Proof.
  intros Hk w b. unfold bind. destruct (m w) as [w1 [a|e]] eqn:Hm; [|done].
  apply Hk.
Qed.

Lemma returns_getPostById postId : returns post_aggregate (getPostById postId).
Proof.
  intros w v. rewrite getPostById_eq. simpl.
  destruct (filter _ _) as [|p ps]; [done|]. intros [= <-].
  apply aggregate_shape.
Qed.

Lemma returns_addTagsToPost postId tagList :
  returns post_aggregate (addTagsToPost postId tagList).
Proof.
  unfold addTagsToPost. do 3 (apply returns_bind; intros ?).
  apply returns_getPostById.
Qed.

Lemma returns_createPost authorId title content tags :
  returns post_aggregate (createPost authorId title content tags).
Proof.
  unfold createPost. do 4 (apply returns_bind; intros ?).
  apply returns_addTagsToPost.
Qed.

Lemma returns_updatePost postId fields :
  returns post_aggregate (updatePost postId fields).
Proof.
  unfold updatePost. do 4 (apply returns_bind; intros ?).
  case_match; [apply returns_getPostById|].
  do 5 (apply returns_bind; intros ?). apply returns_getPostById.
Qed.

Lemma Forall2_aggregates w (ps : list post_row) vs :
  Forall2 (λ p v, getPostById (p_id p) w = (w, Ok v)) ps vs →
  Forall post_aggregate vs.
Proof.
  induction 1 as [|p v ps vs Hget _ IH]; constructor; [|done].
  apply (returns_getPostById (p_id p) w). by rewrite Hget.
Qed.

(** C7. Every post aggregate a read hands back has an [author] and a
    [tags] property and shows neither [authorId] nor [password], at any
    depth, so not in the author projection either.  This holds of what
    [getPostById] resolves to (and it does resolve for every post that
    has a row), of every element of the arrays [getAllPosts],
    [getPostsByUser] and [getPostsByTagName] resolve to (one element
    per row the id query selects), and of what [createPost],
    [updatePost] and [addTagsToPost] resolve to. *)
Theorem post_aggregates_hide_credentials (w : world) :
  (∀ postId v, (getPostById postId w).2 = Ok v → post_aggregate v) ∧
  (∀ postId, postId ∈ p_id <$> posts (db w) →
     ∃ v, getPostById postId w = (w, Ok v)) ∧
  (∃ vs, getAllPosts w = (w, Ok (JArr vs)) ∧
         length vs = length (posts (db w)) ∧ Forall post_aggregate vs) ∧
  (∀ userId, ∃ vs,
     getPostsByUser userId w = (w, Ok (JArr vs)) ∧
     length vs = length (filter (λ p, p_authorId p = userId) (posts (db w))) ∧
     Forall post_aggregate vs) ∧
  (∀ tagName, ∃ vs,
     getPostsByTagName tagName w = (w, Ok (JArr vs)) ∧
     Forall post_aggregate vs) ∧
  (∀ authorId title content tags v,
     (createPost authorId title content tags w).2 = Ok v → post_aggregate v) ∧
  (∀ postId fields v,
     (updatePost postId fields w).2 = Ok v → post_aggregate v) ∧
  (∀ postId tagList v,
     (addTagsToPost postId tagList w).2 = Ok v → post_aggregate v).
Proof.
  split_and!.
  - intros postId v. apply returns_getPostById.
  - intros postId Hin. destruct (getPostById_found _ _ Hin) as (p&_&_&Hget).
    eauto.
  - destruct (getAllPosts_eq w) as (vs & Heq & Hall). exists vs.
    split_and!; [done| |by eapply Forall2_aggregates].
    symmetry. by eapply Forall2_length.
  - intros userId. destruct (getPostsByUser_eq userId w) as (vs & Heq & Hall).
    exists vs. split_and!; [done| |by eapply Forall2_aggregates].
    symmetry. by eapply Forall2_length.
  - intros tagName.
    destruct (getPostsByTagName_eq tagName w) as (vs & Heq & Hall & _).
    exists vs. split; [done|]. eapply Forall_impl; [done|].
    intros v [postId Hget]. apply (returns_getPostById postId w).
    by rewrite Hget.
  - intros authorId title content tags v. apply returns_createPost.
  - intros postId fields v. apply returns_updatePost.
  - intros postId tagList v. apply returns_addTagsToPost.
Qed.

(** ** Where [PostNotFoundError] can come from *)

Ltac store_failure :=
  let s := fresh "s" in let e := fresh "e" in let H := fresh "H" in
  intros s e H; repeat (case_match; simpl in *; simplify_eq); done.

Lemma store_failure_insert_user u p n l : store_failure (insert_user u p n l).
Proof. unfold insert_user. store_failure. Qed.
Lemma store_failure_update_users id items : store_failure (update_users id items).
Proof. unfold update_users. store_failure. Qed.
Lemma store_failure_insert_post a t c : store_failure (insert_post a t c).
Proof. unfold insert_post. store_failure. Qed.
Lemma store_failure_update_posts id items : store_failure (update_posts id items).
Proof. unfold update_posts. store_failure. Qed.
Lemma store_failure_insert_tags params : store_failure (insert_tags params).
Proof. unfold insert_tags. store_failure. Qed.
Lemma store_failure_select_tags_by_names params :
  store_failure (select_tags_by_names params).
Proof. unfold select_tags_by_names. store_failure. Qed.
Lemma store_failure_delete_post_tags_not_in ids postId :
  store_failure (delete_post_tags_not_in ids postId).
Proof. unfold delete_post_tags_not_in. store_failure. Qed.
Lemma store_failure_insert_post_tag postId tagId :
  store_failure (insert_post_tag postId tagId).
Proof. unfold insert_post_tag. store_failure. Qed.

Create HintDb notfound discriminated.

Lemma nf_free_ret {A} (a : A) : nf_free (ret a).
Proof. done. Qed.
Lemma nf_free_throw {A} e : e ≠ PostNotFoundError → nf_free (@throw A e).
Proof. intros He w [=]. done. Qed.
Lemma nf_free_lift {A} (o : outcome A) :
  o ≠ Throw PostNotFoundError → nf_free (lift o).
Proof. by intros Ho w. Qed.
Lemma nf_free_query q : store_failure q → nf_free (query q).
Proof.
  intros Hq w. unfold query. specialize (Hq (db w)).
  destruct (q (db w)) as [s' [rows|e]]; simpl in *; [done|].
  intros [= ->]. by specialize (Hq _ eq_refl).
Qed.
Lemma nf_free_read_fields f : nf_free (read_fields f).
Proof. intros w. unfold read_fields. by repeat case_match. Qed.
Lemma nf_free_delete_field f k : nf_free (delete_field f k).
Proof. intros w. unfold delete_field. by case_match. Qed.
Lemma nf_free_as_id v : nf_free (as_id v).
Proof. intros w. unfold as_id. by case_match. Qed.

Lemma nf_free_bind {A B} (m : M A) (k : A → M B) :
  nf_free m → (∀ a, nf_free (k a)) → nf_free (bind m k).
Proof.
  intros Hm Hk w. unfold bind. specialize (Hm w).
  destruct (m w) as [w1 [a|e]]; simpl in *; [apply Hk|congruence].
Qed.

Lemma nf_only_of_free {A} postId (m : M A) : nf_free m → nf_only postId m.
Proof. intros Hm w Hw. by apply Hm in Hw. Qed.

Lemma nf_only_bind {A B} postId (m : M A) (k : A → M B) :
  nf_only postId m → (∀ a, nf_only postId (k a)) → nf_only postId (bind m k).
Proof.
  intros Hm Hk w. unfold bind. specialize (Hm w).
  destruct (m w) as [w1 [a|e]]; simpl in *; [apply Hk|].
  intros [= ->]. by apply Hm.
Qed.

Lemma nf_only_getPostById postId : nf_only postId (getPostById postId).
Proof.
  intros w Hw. rewrite getPostById_read_only.
  by destruct (getPostById_outcome postId w) as [[_ [v Hv]]|[Hn _]];
    [congruence|].
Qed.

Lemma get_prop_failure v k e : get_prop v k = Throw e → e = TypeError.
Proof. destruct v; simpl; congruence. Qed.

(** However the promises of a [map] over [createPostTag] settle, none
    carries [PostNotFoundError]. *)
Lemma map_async_createPostTag postId tags w :
  match (map_async (λ tag,
           match get_prop tag "id" with
           | Ok tagId => Ok (createPostTag postId tagId)
           | Throw e => Throw e
           end) tags w).2 with
  | Ok settled => promise_all settled ≠ Throw PostNotFoundError
  | Throw e => e ≠ PostNotFoundError
  end.
Proof.
  revert w. induction tags as [|tag tags IH]; intros w; [done|].
  cbn [map_async]. destruct (get_prop tag "id") as [tagId|e] eqn:Hid.
  2:{ simpl. by apply get_prop_failure in Hid as ->. }
  destruct (createPostTag postId tagId w) as [w1 r] eqn:Hc.
  specialize (IH w1).
  destruct (map_async _ tags w1) as [w2 [rs|e]]; simpl in *; [|done].
  assert (r ≠ Throw PostNotFoundError) as Hr.
  { assert (nf_free (createPostTag postId tagId)) as Hnf.
    { unfold createPostTag. apply nf_free_bind; [|intros; apply nf_free_ret].
      apply nf_free_query, store_failure_insert_post_tag. }
    specialize (Hnf w). by rewrite Hc in Hnf. }
  destruct r as [a|e]; [|congruence].
  by destruct (promise_all rs).
Qed.

Lemma nf_only_bind_val {A B} postId (m : M A) (k : A → M B) (P : A → Prop) :
  nf_only postId m → returns P m → (∀ a, P a → nf_only postId (k a)) →
  nf_only postId (bind m k).
Proof.
  intros Hm HP Hk w. unfold bind. specialize (Hm w). specialize (HP w).
  destruct (m w) as [w1 [a|e]]; simpl in *; [by apply Hk, HP|].
  intros [= ->]. by apply Hm.
Qed.

Lemma nf_only_addTagsToPost postId tagList :
  nf_only postId (addTagsToPost postId tagList).
Proof.
  unfold addTagsToPost. apply nf_only_bind.
  { apply nf_only_of_free, nf_free_lift. by destruct tagList. }
  intros tags.
  apply (nf_only_bind_val _ _ _
           (λ settled, promise_all settled ≠ Throw PostNotFoundError)).
  - apply nf_only_of_free. intros w.
    pose proof (map_async_createPostTag postId tags w) as Hmap.
    destruct (map_async _ tags w).2; congruence.
  - intros w settled Hw.
    pose proof (map_async_createPostTag postId tags w) as Hmap.
    by rewrite Hw in Hmap.
  - intros settled Hs.
    apply nf_only_bind; [by apply nf_only_of_free, nf_free_lift|].
    intros _. apply nf_only_getPostById.
Qed.

Lemma nf_free_createTags tagList : nf_free (createTags tagList).
Proof.
  unfold createTags. apply nf_free_bind.
  { apply nf_free_lift. by destruct tagList. }
  intros []; [apply nf_free_ret|]. apply nf_free_bind.
  { apply nf_free_lift. by destruct tagList. }
  intros names. apply nf_free_bind.
  { apply nf_free_query, store_failure_insert_tags. }
  intros _. apply nf_free_bind; [|intros; apply nf_free_ret].
  apply nf_free_query, store_failure_select_tags_by_names.
Qed.

Lemma nf_only_updatePost postId fields :
  nf_only postId (updatePost postId fields).
Proof.
  unfold updatePost.
  apply nf_only_bind; [apply nf_only_of_free, nf_free_read_fields|intros o].
  apply nf_only_bind; [apply nf_only_of_free, nf_free_delete_field|intros _].
  apply nf_only_bind; [apply nf_only_of_free, nf_free_read_fields|intros o'].
  apply nf_only_bind; [apply nf_only_of_free|intros _].
  { case_match; [|apply nf_free_ret].
    apply nf_free_query, store_failure_update_posts. }
  case_match; [apply nf_only_getPostById|].
  apply nf_only_bind; [apply nf_only_of_free, nf_free_createTags|intros tl].
  apply nf_only_bind; [apply nf_only_of_free, nf_free_lift; by destruct tl|].
  intros elems. apply nf_only_bind.
  { apply nf_only_of_free, nf_free_lift. clear. induction elems as [|x xs IH];
      [done|]. simpl. destruct (get_prop x "id") eqn:Hx.
    - by destruct (tag_ids xs).
    - apply get_prop_failure in Hx as ->. done. }
  intros ids. apply nf_only_bind.
  { apply nf_only_of_free, nf_free_query, store_failure_delete_post_tags_not_in. }
  intros _. apply nf_only_bind; [apply nf_only_addTagsToPost|intros _].
  apply nf_only_getPostById.
Qed.

Lemma keeps_posts_ret {A} (a : A) : keeps_posts (ret a).
Proof. done. Qed.
Lemma keeps_posts_throw {A} e : keeps_posts (@throw A e).
Proof. done. Qed.
Lemma keeps_posts_lift {A} (o : outcome A) : keeps_posts (lift o).
Proof. done. Qed.
Lemma keeps_posts_as_id v : keeps_posts (as_id v).
Proof. intros w. unfold as_id. by case_match. Qed.
Lemma keeps_posts_query q :
  (∀ s, posts (q s).1 = posts s) → keeps_posts (query q).
Proof.
  intros Hq w. unfold query. specialize (Hq (db w)). by destruct (q (db w)).
Qed.

Lemma keeps_posts_bind {A B} (m : M A) (k : A → M B) :
  keeps_posts m → (∀ a, keeps_posts (k a)) → keeps_posts (bind m k).
Proof.
  intros Hm Hk w. unfold bind. specialize (Hm w).
  destruct (m w) as [w1 [a|e]]; simpl in *; [|done].
  by rewrite Hk.
Qed.

Lemma keeps_posts_map_async {X A} (cb : X → outcome (M A)) xs :
  (∀ x p, cb x = Ok p → keeps_posts p) → keeps_posts (map_async cb xs).
Proof.
  intros Hcb. induction xs as [|x xs IH]; intros w; simpl; [done|].
  destruct (cb x) as [p|e] eqn:Hx; [|done].
  pose proof (Hcb _ _ Hx w) as Hp. destruct (p w) as [w1 r]. simpl in Hp.
  specialize (IH w1). destruct (map_async cb xs w1) as [w2 [rs|e]];
    simpl in *; congruence.
Qed.

Lemma keeps_posts_getPostById postId : keeps_posts (getPostById postId).
Proof. intros w. by rewrite getPostById_read_only. Qed.

Lemma keeps_posts_createTags tagList : keeps_posts (createTags tagList).
Proof.
  unfold createTags. apply keeps_posts_bind; [apply keeps_posts_lift|].
  intros []; [apply keeps_posts_ret|].
  apply keeps_posts_bind; [apply keeps_posts_lift|intros names].
  apply keeps_posts_bind; [|intros _].
  { apply keeps_posts_query. intros s. unfold insert_tags.
    by repeat case_match. }
  apply keeps_posts_bind; [|intros; apply keeps_posts_ret].
  apply keeps_posts_query. intros s. unfold select_tags_by_names.
  by repeat case_match.
Qed.

Lemma keeps_posts_addTagsToPost postId tagList :
  keeps_posts (addTagsToPost postId tagList).
Proof.
  unfold addTagsToPost. apply keeps_posts_bind; [apply keeps_posts_lift|].
  intros tags. apply keeps_posts_bind.
  { apply keeps_posts_map_async. intros tag p Hp. case_match; simplify_eq.
    unfold createPostTag.
    apply keeps_posts_bind; [|intros; apply keeps_posts_ret].
    apply keeps_posts_query. intros s. unfold insert_post_tag.
    by repeat case_match. }
  intros settled. apply keeps_posts_bind; [apply keeps_posts_lift|].
  intros _. apply keeps_posts_getPostById.
Qed.

Lemma nf_free_createPost authorId title content tags :
  nf_free (createPost authorId title content tags).
Proof.
  intros w. unfold createPost, bind at 1, query at 1, insert_post.
  case_bool_decide as Hins; [|done]. simpl.
  set (p := Post (posts_id_seq (db w)) authorId title content).
  set (w1 := World _ _).
  set (tags' := if is_undefined tags then JArr [] else tags).
  unfold bind at 1.
  pose proof (nf_free_createTags tags' w1) as Hct.
  pose proof (keeps_posts_createTags tags' w1) as Hkp.
  destruct (createTags tags' w1) as [w2 [tagList|e]]; simpl in *; [|done].
  change (get_prop (JObj (post_star p)) "id") with (Ok (JNum (p_id p))).
  unfold lift, bind at 1, as_id, pg_int, bind at 1, ret at 1.
  intros Hnf. apply nf_only_addTagsToPost in Hnf. apply Hnf.
  rewrite keeps_posts_addTagsToPost, Hkp. unfold w1. simpl.
  rewrite fmap_app. apply elem_of_app. right. left.
Qed.

(** ** Reading a user *)

Lemma getUserById_eq userId w :
  ∃ v, getUserById userId w = (w, Ok v) ∧
       (userId ∉ u_id <$> users (db w) → v = JUndefined) ∧
       (v = JUndefined ∨
        ∃ u vs, u ∈ users (db w) ∧ u_id u = userId ∧
                v = JObj (<["posts" := JArr vs]> (user_proj u)) ∧
                Forall post_aggregate vs).
Proof.
  unfold getUserById, bind at 1, query, select_user_by_id.
  destruct (filter (λ u, u_id u = userId) (users (db w))) as [|u us] eqn:Hf.
  { exists JUndefined. destruct w. by split_and!; [| |left]. }
  assert (u ∈ users (db w) ∧ u_id u = userId) as [Hu Hid].
  { assert (u ∈ filter (λ u, u_id u = userId) (users (db w))) as Hin
      by (rewrite Hf; left).
    by apply list_elem_of_filter in Hin as [? ?]. }
  assert (World (heap w) (db w) = w) as -> by (by destruct w).
  rewrite fmap_cons. cbn [first_row truthy negb].
  change (get_prop (JObj (user_proj u)) "id") with (Ok (JNum (u_id u))).
  unfold lift, bind at 1. cbn [truthy].
  destruct (u_id u =? 0)%Z eqn:Hz; cbn [negb].
  { exists JUndefined. split_and!; [done| |by left].
    intros Hn. exfalso. apply Hn. rewrite <-Hid. by apply list_elem_of_fmap_2. }
  destruct (getPostsByUser_eq (u_id u) w) as (vs & Hget & Hall).
  exists (JObj (<["posts" := JArr vs]> (user_proj u))). split_and!.
  - unfold as_id, pg_int, bind at 1, ret at 1.
    by rewrite (bind_ok _ _ _ _ _ Hget).
  - intros Hn. exfalso. apply Hn. rewrite <-Hid. by apply list_elem_of_fmap_2.
  - right. exists u, vs. split_and!; [done..|]. by eapply Forall2_aggregates.
Qed.

(** C5. Absence is handled in two ways.  [getUserById] with an id that
    matches no row resolves to [undefined] and leaves the world alone;
    [getPostById] with an id that matches no row rejects with
    [PostNotFoundError].  No other place raises it: whatever call a
    client makes, if it rejects with [PostNotFoundError] then the call
    is one that hands a post id of the caller to the post-aggregate
    read ([getPostById] itself, or [updatePost] and [addTagsToPost],
    which end with it) and that post has no row. *)
Theorem absence_handling (w : world) (id : Z) :
  (id ∉ u_id <$> users (db w) → getUserById id w = (w, Ok JUndefined)) ∧
  (id ∉ p_id <$> posts (db w) →
     getPostById id w = (w, Throw PostNotFoundError)) ∧
  (∀ c, (run_call c w).2 = Throw PostNotFoundError →
     ∃ postId, requested_post c = Some postId ∧
               postId ∉ p_id <$> posts (db (run_call c w).1)).
Proof.
  split_and!.
  - intros Hn. destruct (getUserById_eq id w) as (v & Heq & Hv & _).
    by rewrite Heq, (Hv Hn).
  - apply getPostById_missing.
  - intros c Hc. destruct c; simpl in *.
    + by destruct w.
    + exfalso. revert Hc. unfold createUser.
      apply nf_free_bind; [|intros; apply nf_free_ret].
      apply nf_free_query, store_failure_insert_user.
    + exfalso. revert Hc. unfold updateUser.
      apply nf_free_bind; [apply nf_free_read_fields|intros o].
      case_match; [apply nf_free_ret|].
      apply nf_free_bind; [|intros; apply nf_free_ret].
      apply nf_free_query, store_failure_update_users.
    + destruct (getUserById_eq userId w) as (v & Heq & _). by rewrite Heq in Hc.
    + by destruct w.
    + exfalso. by apply nf_free_createPost in Hc.
    + exists postId. split; [done|]. by apply nf_only_updatePost.
    + destruct (getAllPosts_eq w) as (vs & Heq & _). by rewrite Heq in Hc.
    + destruct (getPostsByUser_eq userId w) as (vs & Heq & _).
      by rewrite Heq in Hc.
    + exists postId. split; [done|]. by apply nf_only_getPostById.
    + destruct (getPostsByTagName_eq tagName w) as (vs & Heq & _).
      by rewrite Heq in Hc.
    + exfalso. by apply nf_free_createTags in Hc.
    + exists postId. split; [done|]. by apply nf_only_addTagsToPost.
Qed.

(** ** Who gets to see the password *)

Lemma exposes_aggregates k vs :
  (k = "password" ∨ k = "authorId") →
  Forall post_aggregate vs → exposes k (JArr vs) = false.
Proof.
  intros Hk Hall. apply exposes_arr. eapply Forall_impl; [done|].
  intros v (_ & ? & ?). by destruct Hk as [-> | ->].
Qed.

Lemma user_star_password u :
  user_star u !! "password" = Some (JStr (u_password u)).
Proof. reflexivity. Qed.

Lemma getAllUsers_eq w :
  getAllUsers w = (w, Ok (JArr (JObj <$> (user_proj <$> users (db w))))).
Proof. by destruct w. Qed.

Lemma getUserByUsername_eq username w :
  getUserByUsername username w =
  (w, Ok (first_row (user_star <$>
            filter (λ u, u_username u = username) (users (db w))))).
Proof. by destruct w. Qed.

Lemma createUser_returns username password name location w v :
  (createUser username password name location w).2 = Ok v →
  v = JUndefined ∨
  v = JObj (user_star (User (users_id_seq (db w)) username password
                         name location)).
Proof.
  unfold createUser, bind, query, insert_user.
  repeat case_bool_decide; simpl; intros [= <-]; eauto.
Qed.

Lemma updateUser_returns id fields w v :
  (updateUser id fields w).2 = Ok v →
  v = JUndefined ∨ ∃ u, v = JObj (user_star u).
Proof.
  unfold updateUser. intros Hv.
  apply (returns_bind (λ v, v = JUndefined ∨ ∃ u, v = JObj (user_star u))
           (read_fields fields)) in Hv; [done|].
  clear. intros o w v. case_match; [intros [= <-]; by left|].
  unfold bind, query, update_users.
  repeat case_match; simpl; try done; simplify_eq.
  all: match goal with
       | |- context [filter ?P ?l] =>
           let x := fresh "x" in destruct (filter P l) as [|x ?]
       end; simpl; intros [= <-]; eauto.
Qed.

(** C8 as stated does not hold: [createUser] resolves to the inserted
    row as [returning *] gives it, password included. *)
Lemma createUser_returns_password :
  ∃ o, (createUser "alice" "pw" "Alice" "NY" world0).2 = Ok (JObj o) ∧
       o !! "password" = Some (JStr "pw") ∧
       exposes "password" (JObj o) = true.
Proof. eexists. split_and!; vm_compute; reflexivity. Qed.

(** C8, amended.  The password is not part of what [getAllUsers] and
    [getUserById] resolve to, nor of any post aggregate (the author
    projection leaves it out); [createUser], [updateUser] and
    [getUserByUsername] resolve to the stored row as it is, password
    included, whenever they resolve to a row at all. *)
Theorem password_exposure (w : world) :
  (∃ vs, getAllUsers w = (w, Ok (JArr vs)) ∧
         length vs = length (users (db w)) ∧
         exposes "password" (JArr vs) = false) ∧
  (∀ userId, ∃ v, getUserById userId w = (w, Ok v) ∧
                  exposes "password" v = false) ∧
  (∀ postId v, (getPostById postId w).2 = Ok v →
               exposes "password" v = false) ∧
  (∀ username password name location v,
     (createUser username password name location w).2 = Ok v →
     v = JUndefined ∨
     ∃ o, v = JObj o ∧ o !! "password" = Some (JStr password)) ∧
  (∀ id fields v,
     (updateUser id fields w).2 = Ok v →
     v = JUndefined ∨ ∃ o, v = JObj o ∧ is_Some (o !! "password")) ∧
  (∀ u, u ∈ users (db w) →
     ∃ u', u' ∈ users (db w) ∧ u_username u' = u_username u ∧
           getUserByUsername (u_username u) w = (w, Ok (JObj (user_star u'))) ∧
           user_star u' !! "password" = Some (JStr (u_password u'))).
Proof.
  split_and!.
  - exists (JObj <$> (user_proj <$> users (db w))). split_and!.
    + apply getAllUsers_eq.
    + by rewrite !length_fmap.
    + apply exposes_arr. rewrite <-list_fmap_compose.
      apply Forall_fmap, Forall_forall. intros u _.
      change (exposes "password" (JObj (user_proj u)) = false).
      apply exposes_user_proj. not_in_list.
  - intros userId.
    destruct (getUserById_eq userId w) as (v & Heq & _ & [->|Hv]);
      [by exists JUndefined|].
    destruct Hv as (u & vs & _ & _ & -> & Hall). eexists. split; [done|].
    apply exposes_obj. split.
    + rewrite lookup_insert_ne by done. reflexivity.
    + intros k v [[<- <-]|[_ Hk]]%lookup_insert_Some.
      * apply exposes_aggregates; [by left|done].
      * unfold user_proj in Hk.
        repeat (apply lookup_insert_Some in Hk as [[<- <-]|[_ Hk]]; [done|]).
        done.
  - intros postId v Hv. by apply returns_getPostById in Hv as (_ & _ & ?).
  - intros username password name location v
      [->| ->]%createUser_returns; [by left|right].
    eexists. split; [done|]. reflexivity.
  - intros id fields v [->|[u ->]]%updateUser_returns; [by left|right].
    eexists. split; [done|]. by rewrite user_star_password.
  - intros u Hu. rewrite getUserByUsername_eq.
    destruct (filter _ (users (db w))) as [|u' us] eqn:Hf.
    + assert (u ∈ filter (λ x, u_username x = u_username u) (users (db w)))
        as Hin by (by apply list_elem_of_filter).
      rewrite Hf in Hin. by apply elem_of_nil in Hin.
    + assert (u' ∈ filter (λ x, u_username x = u_username u) (users (db w)))
        as Hin by (rewrite Hf; left).
      apply list_elem_of_filter in Hin as [? ?].
      exists u'. by split_and!.
Qed.

(** ** [updatePost] with an empty tag list *)

Lemma updatePost_empty_tags w postId l :
  heap w !! l = Some {["tags" := JArr []]} →
  updatePost postId (Some l) w =
    (World (<[l := ∅]> (heap w)) (db w), Throw TypeError).
Proof.
  intros Hl. rewrite (updatePost_unfold _ _ _ _ Hl).
  rewrite lookup_singleton_eq, delete_singleton_eq. simpl default.
  unfold updatePost_rest.
  erewrite bind_ok by (apply read_fields_some, lookup_insert_eq).
  rewrite map_to_list_empty. reflexivity.
Qed.

(** Without a [tags] key the join is out of reach: only the column
    update runs, and the call ends with the aggregate read. *)
Lemma updatePost_tags_absent w postId l (o : jsobj) :
  heap w !! l = Some o → o !! "tags" = None →
  let out := updatePost postId (Some l) w in
  heap out.1 = heap w ∧
  post_tags (db out.1) = post_tags (db w) ∧
  tags (db out.1) = tags (db w) ∧
  users (db out.1) = users (db w) ∧
  ((out.2 = Throw StoreError ∧ db out.1 = db w) ∨
   out = getPostById postId out.1).
Proof.
  intros Hl Ho out. unfold out. clear out.
  rewrite (updatePost_unfold _ _ _ _ Hl), Ho, delete_id, insert_id by done.
  assert (World (heap w) (db w) = w) as -> by (by destruct w).
  simpl default. unfold updatePost_rest.
  rewrite (bind_ok _ _ _ _ _ (read_fields_some _ _ _ Hl)).
  cbn [is_undefined].
  set (upd := if bool_decide _ then _ else _).
  assert (∀ w1 r, upd w = (w1, r) →
            heap w1 = heap w ∧ post_tags (db w1) = post_tags (db w) ∧
            tags (db w1) = tags (db w) ∧ users (db w1) = users (db w) ∧
            ((r = Throw StoreError ∧ db w1 = db w) ∨ ∃ rows, r = Ok rows))
    as Hupd.
  { intros w1 r. unfold upd, query, update_posts, ret.
    repeat case_match; intros; simplify_eq; simpl;
      split_and!; try done; eauto. }
  destruct (upd w) as [w1 r] eqn:Hu.
  destruct (Hupd _ _ eq_refl) as (Hh & Hpt & Ht & Hus & [[-> Hdb]|[rows ->]]).
  - rewrite (bind_throw _ _ _ _ _ Hu). simpl. split_and!; [done..|]. by left.
  - rewrite (bind_ok _ _ _ _ _ Hu). rewrite !getPostById_read_only.
    split_and!; [done..|]. right. by rewrite getPostById_eq.
Qed.

(** C2, on the code.  Starting from a post labelled [#a] and [#b]:
    with no [tags] key [updatePost] resolves to the aggregate and the
    labels stay; with [tags: []] it does not drop the labels but
    rejects with a [TypeError] ([createTags] resolves to [undefined]
    for the empty list and [updatePost] calls [map] on it), and the
    labels stay as well. *)
Theorem updatePost_empty_tags_rejects :
  let absent := updatePost 1 (Some fields_at) (with_fields ∅ world_hello) in
  let empty :=
    updatePost 1 (Some fields_at)
      (with_fields {["tags" := JArr []]} world_hello) in
  tags_of_post 1 (db world_hello) = [Tag 1 "#a"; Tag 2 "#b"] ∧
  (∃ v, absent.2 = Ok v) ∧
  tags_of_post 1 (db absent.1) = [Tag 1 "#a"; Tag 2 "#b"] ∧
  empty.2 = Throw TypeError ∧
  tags_of_post 1 (db empty.1) = [Tag 1 "#a"; Tag 2 "#b"].
Proof. split_and!; [|eexists|..]; vm_compute; reflexivity. Qed.

(** * More of the repository *)

(** ** The store stays well-formed *)

Lemma assign_all_keeps {R X : Type} (assign : string → jsval → option (R → R))
    (proj : R → X) (items : list (string * jsval)) (f : R → R) :
  (∀ k v g, (k, v) ∈ items → assign k v = Some g → ∀ r, proj (g r) = proj r) →
  assign_all assign items = Some f → ∀ r, proj (f r) = proj r.
Proof.
  revert f. induction items as [|[k v] items IH]; intros f Hall Hf r.
  { by injection Hf as <-. }
  simpl in Hf. destruct (assign k v) as [g|] eqn:Hg; [|done].
  destruct (assign_all assign items) as [h|] eqn:Hh; [|done].
  injection Hf as <-. rewrite (IH h); [|intros; eapply Hall; [by right|done]|done].
  eapply Hall; [left|done].
Qed.


Lemma post_assign_id k v g :
  k ≠ "id" → post_assign k v = Some g → ∀ p, p_id (g p) = p_id p.
Proof.
  intros Hk. unfold post_assign. repeat case_decide; [done|..|done];
    [destruct (pg_int v)|destruct (pg_text v)..]; simpl; intros [= <-]; done.
Qed.



Lemma stmt_keeps_ok_insert_post a t c : stmt_keeps_ok (insert_post a t c).
Proof.
  intros s Hok. unfold insert_post.
  destruct Hok as (Hu & (Hp1 & Hp2 & Hp3) & Ht & (Hj1 & Hj2 & Hj3)).
  case_bool_decide as Hc; simpl.
  - destruct Hc as [Ha Hfresh].
    split_and!; simpl; try done; try apply Hu; try apply Ht.
    + rewrite fmap_app. apply NoDup_app.
      split_and!; [done| |apply NoDup_singleton].
      by intros i Hi ->%list_elem_of_singleton.
    + apply Forall_app. split.
      * eapply Forall_impl; [exact Hp2|]. simpl. intros; lia.
      * apply Forall_singleton. simpl. lia.
    + apply Forall_app. split; [done|]. by apply Forall_singleton.
    + eapply Forall_impl; [exact Hj2|]. simpl. intros pt Hpt. rewrite fmap_app.
      apply elem_of_app. by left.
  - split_and!; simpl; try done; try apply Hu; try apply Ht.
    eapply Forall_impl; [exact Hp2|]. simpl. intros; lia.
Qed.

Lemma stmt_keeps_ok_update_posts id items :
  "id" ∉ items.*1 → stmt_keeps_ok (update_posts id items).
Proof.
  intros Hid s Hok. unfold update_posts.
  destruct items as [|item items]; [done|].
  destruct (assign_all post_assign (item :: items)) as [f|] eqn:Hf; [|done].
  case_bool_decide as Hc; [|done]. simpl.
  destruct Hc as (Hc1 & Hc2 & Hc3).
  destruct Hok as (Hu & (_ & Hseq & _) & Ht & (Hj1 & _ & Hj3)).
  assert (∀ p, p_id (f p) = p_id p) as Hfid.
  { eapply (assign_all_keeps post_assign p_id); [|done].
    intros k v g Hin. apply post_assign_id. intros ->. apply Hid.
    by apply (list_elem_of_fmap_2 fst) in Hin. }
  split_and!; try done; try apply Hu; try apply Ht.
  apply Forall_fmap. eapply Forall_impl; [exact Hseq|]. intros p Hp. simpl.
  case_decide; [by rewrite Hfid|done].
Qed.

Lemma stmt_keeps_ok_insert_tags params : stmt_keeps_ok (insert_tags params).
Proof.
  intros s Hok. unfold insert_tags.
  destruct (mapM pg_text params) as [[|n names]|]; [done| |done].
  destruct Hok as (Hu & Hp & Ht & (Hj1 & Hj2 & Hj3)).
  destruct (insert_tag_rows_spec (n :: names) _ _ Ht)
    as (new & -> & Hok' & _ & _).
  unfold store_ok. simpl.
  split_and!; try apply Hu; try apply Hp; try apply Hok'; try done.
  eapply Forall_impl; [exact Hj3|]. simpl. intros pt Hpt.
  rewrite fmap_app. apply elem_of_app. by left.
Qed.



Lemma stmt_keeps_ok_insert_post_tag postId tagId :
  stmt_keeps_ok (insert_post_tag postId tagId).
Proof.
  intros s Hok. unfold insert_post_tag.
  destruct (pg_int tagId) as [tid|]; [|done].
  case_bool_decide as Hin; [done|]. case_bool_decide as Hfk; [|done].
  destruct Hfk as [Hp' Ht']. simpl.
  destruct Hok as (Hu & Hp & Ht & (Hj1 & Hj2 & Hj3)).
  split_and!; simpl; try apply Hu; try apply Hp; try apply Ht.
  - apply NoDup_app. split_and!; [done| |apply NoDup_singleton].
    by intros pt Hpt ->%list_elem_of_singleton.
  - apply Forall_app. split; [done|]. by apply Forall_singleton.
  - apply Forall_app. split; [done|]. by apply Forall_singleton.
Qed.

Lemma stmt_keeps_ok_read q : (∀ s, (q s).1 = s) → stmt_keeps_ok q.
Proof. intros Hq s Hok. by rewrite Hq. Qed.

Lemma keeps_ok_same_db {A} (m : M A) :
  (∀ w, db (m w).1 = db w) → keeps_ok m.
Proof. intros Hm w Hok. by rewrite Hm. Qed.

Lemma keeps_ok_query q : stmt_keeps_ok q → keeps_ok (query q).
Proof.
  intros Hq w Hok. unfold query. specialize (Hq (db w) Hok).
  by destruct (q (db w)).
Qed.

Lemma keeps_ok_bind {A B} (m : M A) (k : A → M B) :
  keeps_ok m → (∀ a, keeps_ok (k a)) → keeps_ok (bind m k).
Proof.
  intros Hm Hk w Hok. unfold bind. specialize (Hm w Hok).
  destruct (m w) as [w1 [a|e]]; simpl in *; [by apply Hk|done].
Qed.

Lemma keeps_ok_map_async {X A} (cb : X → outcome (M A)) xs :
  (∀ x p, cb x = Ok p → keeps_ok p) → keeps_ok (map_async cb xs).
Proof.
  intros Hcb. induction xs as [|x xs IH]; intros w Hok; simpl; [done|].
  destruct (cb x) as [p|e] eqn:Hx; [|done].
  pose proof (Hcb _ _ Hx w Hok) as Hp. destruct (p w) as [w1 r]. simpl in Hp.
  specialize (IH w1 Hp). by destruct (map_async cb xs w1) as [w2 [rs|e]].
Qed.

Lemma keeps_ok_getPostById postId : keeps_ok (getPostById postId).
Proof. apply keeps_ok_same_db. intros w. by rewrite getPostById_read_only. Qed.

Lemma keeps_ok_createTags tagList : keeps_ok (createTags tagList).
Proof.
  unfold createTags. apply keeps_ok_bind; [by apply keeps_ok_same_db|].
  intros []; [by apply keeps_ok_same_db|].
  apply keeps_ok_bind; [by apply keeps_ok_same_db|intros names].
  apply keeps_ok_bind; [apply keeps_ok_query, stmt_keeps_ok_insert_tags|].
  intros _. apply keeps_ok_bind; [|intros; by apply keeps_ok_same_db].
  apply keeps_ok_query, stmt_keeps_ok_read. intros s.
  unfold select_tags_by_names. by repeat case_match.
Qed.

Lemma keeps_ok_createPostTag postId tagId :
  keeps_ok (createPostTag postId tagId).
Proof.
  unfold createPostTag.
  apply keeps_ok_bind; [|intros; by apply keeps_ok_same_db].
  apply keeps_ok_query, stmt_keeps_ok_insert_post_tag.
Qed.

Lemma keeps_ok_addTagsToPost postId tagList :
  keeps_ok (addTagsToPost postId tagList).
Proof.
  unfold addTagsToPost. apply keeps_ok_bind; [by apply keeps_ok_same_db|].
  intros tags. apply keeps_ok_bind.
  { apply keeps_ok_map_async. intros tag p Hp. case_match; simplify_eq.
    apply keeps_ok_createPostTag. }
  intros settled. apply keeps_ok_bind; [by apply keeps_ok_same_db|].
  intros _. apply keeps_ok_getPostById.
Qed.

Lemma keeps_ok_createPost authorId title content tags :
  keeps_ok (createPost authorId title content tags).
Proof.
  unfold createPost.
  apply keeps_ok_bind; [apply keeps_ok_query, stmt_keeps_ok_insert_post|].
  intros rows. apply keeps_ok_bind; [apply keeps_ok_createTags|].
  intros tagList. apply keeps_ok_bind; [by apply keeps_ok_same_db|].
  intros id. apply keeps_ok_bind.
  { apply keeps_ok_same_db. intros w. unfold as_id. by case_match. }
  intros id'. apply keeps_ok_addTagsToPost.
Qed.

Lemma keys_without (o : jsobj) k : o !! k = None → k ∉ (map_to_list o).*1.
Proof.
  intros Hk ([k' v] & -> & Hin)%list_elem_of_fmap.
  apply elem_of_map_to_list in Hin. simpl in *. congruence.
Qed.





(** ** Posts by tag name *)

Lemma unique_by {A B} `{EqDecision B} (f : A → B) (l : list A) x y :
  NoDup (f <$> l) → x ∈ l → y ∈ l → f x = f y → x = y.
Proof.
  intros Hnd Hx Hy Hxy.
  assert (y ∈ filter (λ z, f z = f x) l) as Hin
    by (by apply list_elem_of_filter).
  rewrite (filter_unique f l x Hnd Hx) in Hin.
  by apply list_elem_of_singleton in Hin.
Qed.

Lemma post_id_only_inj p q : post_id_only p = post_id_only q → p_id p = p_id q.
Proof.
  intros Heq. apply (f_equal (.!! "id")) in Heq. unfold post_id_only in Heq.
  rewrite !lookup_insert_eq in Heq. congruence.
Qed.

Lemma elem_of_if_singleton {A} (P : Prop) `{Decision P} (x r : A) :
  r ∈ (if decide P then [x] else []) ↔ P ∧ r = x.
Proof.
  case_decide.
  - rewrite list_elem_of_singleton. tauto.
  - rewrite elem_of_nil. tauto.
Qed.

Lemma tag_name_rows tagName s :
  ∃ rows,
    select_post_ids_by_tag_name tagName s = (s, Ok rows) ∧
    (∀ r, r ∈ rows ↔
       ∃ p pt t, p ∈ posts s ∧ pt ∈ post_tags s ∧ t ∈ tags s ∧
                 p_id p = pt_postId pt ∧ t_id t = pt_tagId pt ∧
                 t_name t = tagName ∧ r = post_id_only p) ∧
    (store_ok s → NoDup rows).
Proof.
  eexists. split; [reflexivity|]. split.
  - intros r. rewrite list_elem_of_bind. split.
    + intros (p & (pt & (t & Hr & Ht)%list_elem_of_bind & Hpt)%list_elem_of_bind
                & Hp).
      apply elem_of_if_singleton in Hr as [(? & ? & ?) ->].
      exists p, pt, t. by split_and!.
    + intros (p & pt & t & Hp & Hpt & Ht & H1 & H2 & H3 & ->).
      exists p. split; [|done]. apply list_elem_of_bind. exists pt.
      split; [|done]. apply list_elem_of_bind. exists t. split; [|done].
      rewrite decide_True by done. left.
  - intros (_ & (Hpid & _) & (Htid & Htnm & _) & (Hpts & _)).
    apply NoDup_bind; [| |by eapply NoDup_fmap_1].
    + intros p1 p2 r Hp1 Hp2
        (pt1 & (t1 & Hr1 & _)%list_elem_of_bind & _)%list_elem_of_bind
        (pt2 & (t2 & Hr2 & _)%list_elem_of_bind & _)%list_elem_of_bind.
      apply elem_of_if_singleton in Hr1 as [_ ->].
      apply elem_of_if_singleton in Hr2 as [_ Hr2].
      apply post_id_only_inj in Hr2. by eapply (unique_by p_id).
    + intros p Hp. apply NoDup_bind; [| |done].
      * intros pt1 pt2 r Hpt1 Hpt2 (t1 & Hr1 & Ht1)%list_elem_of_bind
          (t2 & Hr2 & Ht2)%list_elem_of_bind.
        apply elem_of_if_singleton in Hr1 as [(Ha1 & Hb1 & Hc1) _].
        apply elem_of_if_singleton in Hr2 as [(Ha2 & Hb2 & Hc2) _].
        assert (t1 = t2) as ->.
        { eapply (unique_by t_name); [done..|]. congruence. }
        destruct pt1, pt2. simpl in *. congruence.
      * intros pt Hpt. apply NoDup_bind; [| |by eapply NoDup_fmap_1].
        -- intros t1 t2 r Ht1 Ht2 Hr1 Hr2.
           apply elem_of_if_singleton in Hr1 as [(_ & _ & Hc1) _].
           apply elem_of_if_singleton in Hr2 as [(_ & _ & Hc2) _].
           eapply (unique_by t_name); [done..|]. congruence.
        -- intros t Ht. case_decide; [apply NoDup_singleton|apply NoDup_nil_2].
Qed.

Lemma getPostById_of_post w p :
  store_ok (db w) → p ∈ posts (db w) →
  getPostById (p_id p) w = (w, Ok (JObj (aggregate p (db w)))).
Proof.
  intros Hok Hp.
  destruct (getPostById_found (p_id p) w) as (p' & Hp' & Hid & ->);
    [by apply list_elem_of_fmap_2|].
  assert (p' = p) as -> by (eapply (unique_by p_id); [apply Hok|done..]).
  done.
Qed.

Lemma aggregates_of_posts w (ps : list post_row) vs :
  store_ok (db w) → (∀ p, p ∈ ps → p ∈ posts (db w)) →
  Forall2 (λ p v, getPostById (p_id p) w = (w, Ok v)) ps vs →
  vs = (λ p, JObj (aggregate p (db w))) <$> ps.
Proof.
  intros Hok Hin Hall. induction Hall as [|p v ps vs Hget _ IH]; [done|].
  rewrite fmap_cons, <-IH by (intros; apply Hin; by right). f_equal.
  rewrite getPostById_of_post in Hget; [congruence|done|apply Hin; left].
Qed.

(** X2. [getPostsByTagName] resolves, without changing anything, to
    one aggregate for each post labelled with the tag and to nothing
    else: no post twice, none left out; for a name no tag has it is the
    empty array.  It never rejects. *)
Theorem getPostsByTagName_exact (w : world) (tagName : string) :
  store_ok (db w) →
  ∃ ps,
    getPostsByTagName tagName w =
      (w, Ok (JArr ((λ p, JObj (aggregate p (db w))) <$> ps))) ∧
    NoDup ps ∧
    (∀ p, p ∈ ps ↔
          p ∈ posts (db w) ∧ tagName ∈ t_name <$> tags_of_post (p_id p) (db w)) ∧
    (tagName ∉ t_name <$> tags (db w) → ps = []).
Proof.
  intros Hok.
  destruct (tag_name_rows tagName (db w)) as (rows & Hsel & Hrows & Hnd).
  destruct (posts_by_tag_name_rows tagName (db w)) as (ps & Hin & Hsel' & Hnil).
  rewrite Hsel in Hsel'. injection Hsel' as ->.
  destruct (getPosts_rows w ps Hin) as (vs & Hget & Hall).
  assert (NoDup (p_id <$> posts (db w))) as Hpid by apply Hok.
  exists ps. split_and!.
  - unfold getPostsByTagName, bind, query. rewrite Hsel.
    rewrite (aggregates_of_posts w ps vs Hok Hin Hall) in Hget.
    destruct w as [h s]. simpl in *. by rewrite Hget.
  - eapply NoDup_fmap_1. by apply Hnd.
  - intros p. split.
    + intros Hp. split; [by apply Hin|].
      apply (list_elem_of_fmap_2 post_id_only) in Hp as Hr.
      apply Hrows in Hr as (p' & pt & t & Hp' & Hpt & Ht & H1 & H2 & H3 & Heq).
      apply post_id_only_inj in Heq.
      assert (p = p') as <- by (eapply (unique_by p_id); eauto).
      apply list_elem_of_fmap. exists t. split; [done|].
      apply elem_of_tags_of_post. split; [done|].
      rewrite H1, H2. by destruct pt.
    + intros [Hp (t & Hn & [Ht Hpt]%elem_of_tags_of_post)%list_elem_of_fmap].
      assert (post_id_only p ∈ post_id_only <$> ps) as Hr.
      { apply Hrows. exists p, (PostTag (p_id p) (t_id t)), t. by split_and!. }
      apply list_elem_of_fmap in Hr as (p' & Heq & Hp').
      apply post_id_only_inj in Heq.
      assert (p = p') as <- by (eapply (unique_by p_id); eauto).
      done.
  - done.
Qed.

(** ** All posts, and the posts of a user *)

Lemma getAllPosts_agg w :
  store_ok (db w) →
  getAllPosts w =
    (w, Ok (JArr ((λ p, JObj (aggregate p (db w))) <$> posts (db w)))).
Proof.
  intros Hok. destruct (getAllPosts_eq w) as (vs & -> & Hall).
  by rewrite (aggregates_of_posts w (posts (db w)) vs Hok).
Qed.

Lemma getPostsByUser_agg w userId :
  store_ok (db w) →
  getPostsByUser userId w =
    (w, Ok (JArr ((λ p, JObj (aggregate p (db w))) <$>
                  filter (λ p, p_authorId p = userId) (posts (db w))))).
Proof.
  intros Hok. destruct (getPostsByUser_eq userId w) as (vs & -> & Hall).
  rewrite (aggregates_of_posts w
             (filter (λ p, p_authorId p = userId) (posts (db w))) vs Hok);
    [done| |done].
  by intros p [_ ?]%list_elem_of_filter.
Qed.

(** X3. [getAllPosts] resolves to the aggregates of all posts, one per
    row and in the order of the table, and leaves the world as it is;
    although each aggregate comes from [getPostById], it never
    rejects. *)
Theorem getAllPosts_aggregates (w : world) :
  store_ok (db w) →
  getAllPosts w =
    (w, Ok (JArr ((λ p, JObj (aggregate p (db w))) <$> posts (db w)))) ∧
  (∀ p, p ∈ posts (db w) →
        getPostById (p_id p) w = (w, Ok (JObj (aggregate p (db w))))).
Proof.
  intros Hok. split; [by apply getAllPosts_agg|].
  intros p Hp. by apply getPostById_of_post.
Qed.

(** X4. [getPostsByUser] resolves to the aggregates of exactly the
    posts whose author is the given user, in the order of the table,
    and leaves the world as it is; for a user without posts, or an id no
    user has, that is the empty array. *)
Theorem getPostsByUser_aggregates (w : world) (userId : Z) :
  store_ok (db w) →
  getPostsByUser userId w =
    (w, Ok (JArr ((λ p, JObj (aggregate p (db w))) <$>
                  filter (λ p, p_authorId p = userId) (posts (db w))))) ∧
  (userId ∉ u_id <$> users (db w) →
   getPostsByUser userId w = (w, Ok (JArr []))).
Proof.
  intros Hok. rewrite getPostsByUser_agg by done.
  split; [done|]. intros Hn. rewrite filter_none; [done|].
  intros p Hp Ha. apply Hn. rewrite <-Ha.
  destruct Hok as (_ & (_ & _ & Hfk) & _). rewrite Forall_forall in Hfk.
  by apply Hfk.
Qed.

(** ** The aggregate of a post, field by field *)

Lemma aggregate_fields p (tags author : jsval) :
  delete "authorId" (<["author" := author]> (<["tags" := tags]> (post_star p))) =
  <["id" := JNum (p_id p)]>
    (<["title" := JStr (p_title p)]>
      (<["content" := JStr (p_content p)]>
        (<["tags" := tags]> (<["author" := author]> (∅ : jsobj))))).
Proof. reflexivity. Qed.

Lemma tags_of_post_NoDup postId s : store_ok s → NoDup (tags_of_post postId s).
Proof.
  intros (_ & _ & (Htid & _) & (Hpts & _)). unfold tags_of_post.
  apply NoDup_bind; [| |by eapply NoDup_fmap_1].
  - intros t1 t2 t Ht1 Ht2 (pt1 & H1 & _)%list_elem_of_bind
      (pt2 & H2 & _)%list_elem_of_bind.
    apply elem_of_if_singleton in H1 as [_ ->].
    by apply elem_of_if_singleton in H2 as [_ ->].
  - intros t Ht. apply NoDup_bind; [| |done].
    + intros pt1 pt2 t' _ _ [[Ha1 Hb1] _]%elem_of_if_singleton
        [[Ha2 Hb2] _]%elem_of_if_singleton.
      destruct pt1, pt2. simpl in *. congruence.
    + intros pt _. case_decide; [apply NoDup_singleton|apply NoDup_nil_2].
Qed.

(** X5. In a well-formed store [getPostById] of a post that has a row
    resolves to an object with exactly the properties [id], [title],
    [content], [tags] and [author]: the first three as in the row,
    [tags] the rows of the tags linked to the post, each once, and
    [author] the projection (id, username, name, location) of the user
    the post's [authorId] points to, which is never missing.  The world
    stays as it is. *)
Theorem getPostById_aggregate (w : world) (p : post_row) :
  store_ok (db w) → p ∈ posts (db w) →
  ∃ u, u ∈ users (db w) ∧ u_id u = p_authorId p ∧
       getPostById (p_id p) w =
         (w, Ok (JObj
           (<["id" := JNum (p_id p)]>
             (<["title" := JStr (p_title p)]>
               (<["content" := JStr (p_content p)]>
                 (<["tags" :=
                      JArr (JObj <$> (tag_star <$> tags_of_post (p_id p) (db w)))]>
                   (<["author" := JObj (user_proj u)]> ∅))))))) ∧
       NoDup (tags_of_post (p_id p) (db w)) ∧
       (∀ t, t ∈ tags_of_post (p_id p) (db w) ↔
             t ∈ tags (db w) ∧ PostTag (p_id p) (t_id t) ∈ post_tags (db w)).
Proof.
  intros Hok Hp.
  assert (p_authorId p ∈ u_id <$> users (db w)) as Hfk.
  { destruct Hok as (_ & (_ & _ & Hfk) & _). rewrite Forall_forall in Hfk.
    by apply Hfk. }
  apply list_elem_of_fmap in Hfk as (u & Hid & Hu).
  exists u. split_and!; [done|done| |by apply tags_of_post_NoDup|].
  - rewrite getPostById_of_post by done. unfold aggregate.
    rewrite Hid, (filter_unique u_id _ u); [|apply Hok|done].
    by rewrite aggregate_fields.
  - intros t. apply elem_of_tags_of_post.
Qed.

(** ** A user and their posts *)

(** X6. In a well-formed store [getUserById] of a user that has a row
    resolves to the projection of that row (no password) extended with
    [posts], the aggregates of the posts the user wrote, and leaves the
    world as it is.  The test [!user.id] makes one exception: a user
    whose id is 0 is reported as absent, with [undefined]. *)
Theorem getUserById_known (w : world) (u : user_row) :
  store_ok (db w) → u ∈ users (db w) →
  (u_id u ≠ 0%Z →
   getUserById (u_id u) w =
     (w, Ok (JObj (<["posts" :=
                       JArr ((λ p, JObj (aggregate p (db w))) <$>
                             filter (λ p, p_authorId p = u_id u) (posts (db w)))]>
                     (user_proj u))))) ∧
  (u_id u = 0%Z → getUserById (u_id u) w = (w, Ok JUndefined)).
Proof.
  intros Hok Hu.
  assert (query (select_user_by_id (u_id u)) w = (w, Ok [user_proj u])) as Hsel.
  { unfold query, select_user_by_id.
    rewrite (filter_unique u_id _ u); [|apply Hok|done].
    by destruct w. }
  assert (lift (get_prop (JObj (user_proj u)) "id") w =
          (w, Ok (JNum (u_id u)))) as Hid by done.
  unfold getUserById. rewrite (bind_ok _ _ _ _ _ Hsel).
  cbn [first_row truthy negb]. rewrite (bind_ok _ _ _ _ _ Hid).
  cbn [truthy]. split; intros Hz.
  - rewrite (proj2 (Z.eqb_neq _ _) Hz). cbn [negb].
    rewrite (bind_ok _ _ w w (u_id u)) by done.
    by rewrite (bind_ok _ _ _ _ _ (getPostsByUser_agg w (u_id u) Hok)).
  - by rewrite (proj2 (Z.eqb_eq _ _) Hz).
Qed.

(** ** Registering, then looking up *)

(** X7. Insert, then look up.  A username that no row has looks up as
    [undefined]; once [createUser] has inserted it, [getUserByUsername]
    resolves to the very row [createUser] resolved to, every other
    username looks up as before, and [getAllUsers] lists the users that
    were there followed by the projection of the new one. *)
Theorem createUser_then_lookup (w : world)
    (username password name location : string) :
  store_ok (db w) →
  username ∉ u_username <$> users (db w) →
  let u := User (users_id_seq (db w)) username password name location in
  let out := createUser username password name location w in
  getUserByUsername username w = (w, Ok JUndefined) ∧
  getUserByUsername username out.1 = out ∧
  (∀ other, other ≠ username →
     (getUserByUsername other out.1).2 = (getUserByUsername other w).2) ∧
  getAllUsers out.1 =
    (out.1, Ok (JArr ((JObj <$> (user_proj <$> users (db w))) ++
                      [JObj (user_proj u)]))).
Proof.
  intros Hok Hn u out.
  assert (filter (λ x, u_username x = username) (users (db w)) = []) as Hnone.
  { apply filter_none. intros x Hx Heq. apply Hn. rewrite <-Heq.
    by apply list_elem_of_fmap_2. }
  unfold out. rewrite createUser_fresh by done. fold u.
  set (w1 := World _ _).
  assert (users (db w1) = users (db w) ++ [u]) as Hus by done.
  cbn [fst snd]. split_and!.
  - by rewrite getUserByUsername_eq, Hnone.
  - rewrite getUserByUsername_eq, Hus, filter_app, Hnone.
    by rewrite filter_cons_True.
  - intros other Hne. rewrite !getUserByUsername_eq, Hus. simpl.
    rewrite filter_app, (filter_cons_False _ u), filter_nil, app_nil_r; [done|].
    simpl. congruence.
  - by rewrite getAllUsers_eq, Hus, !fmap_app.
Qed.

(** ** Creating a post with tags *)

Lemma resolved_names (ts : list tag_row) (names : list string) n :
  NoDup (t_id <$> ts) →
  (∀ m, m ∈ names → m ∈ t_name <$> ts) →
  (∃ t, t ∈ ts ∧ t_name t = n ∧
        t_id t ∈ t_id <$> filter (λ t, t_name t ∈ names) ts) ↔ n ∈ names.
Proof.
  intros Hnd Hall. split.
  - intros (t & Ht & <- & (t' & Hid & [Hn Ht']%list_elem_of_filter)%list_elem_of_fmap).
    by rewrite (unique_by t_id ts t t' Hnd Ht Ht' Hid).
  - intros Hn. pose proof (Hall n Hn) as Hrow.
    apply list_elem_of_fmap in Hrow as (t & -> & Ht).
    exists t. split_and!; [done..|]. apply list_elem_of_fmap_2.
    by apply list_elem_of_filter.
Qed.

Lemma createPost_run w authorId title content names :
  store_ok (db w) →
  authorId ∈ u_id <$> users (db w) →
  names ≠ [] →
  ∃ new,
    let s := db w in
    let p := Post (posts_id_seq s) authorId title content in
    let ts := tags s ++ new in
    let ids := t_id <$> filter (λ t, t_name t ∈ names) ts in
    let s' := Store (users s) (posts s ++ [p]) ts
                (link_rows (p_id p) ids (post_tags s))
                (users_id_seq s) (posts_id_seq s + 1)
                (tags_id_seq s + Z.of_nat (length names)) in
    createPost authorId title content (js_strings names) w =
      getPostById (p_id p) (World (heap w) s') ∧
    NoDup (t_id <$> ts) ∧
    (∀ n, n ∈ names → n ∈ t_name <$> ts) ∧
    (∀ t, t ∈ new → t_name t ∈ names).
Proof.
  intros Hok Ha Hne.
  assert (posts_id_seq (db w) ∉ p_id <$> posts (db w)) as Hfresh.
  { intros (q & Hid & Hq)%list_elem_of_fmap.
    destruct Hok as (_ & (_ & Hseq & _) & _).
    rewrite Forall_forall in Hseq. specialize (Hseq _ Hq). lia. }
  set (s := db w) in *.
  set (p := Post (posts_id_seq s) authorId title content).
  set (w1 := World (heap w) (with_posts (posts s ++ [p]) (bump_posts_seq s))).
  assert (query (insert_post authorId title content) w =
          (w1, Ok [post_star p])) as Hins.
  { unfold query, insert_post. fold s. by rewrite bool_decide_eq_true_2. }
  assert (store_ok (db w1)) as Hok1.
  { pose proof (stmt_keeps_ok_insert_post authorId title content s Hok) as H.
    unfold insert_post in H. by rewrite bool_decide_eq_true_2 in H. }
  destruct (createTags_run w1 names Hok1 Hne) as (new & Hct & Hok2 & Hall & Hnew).
  exists new. simpl in Hct, Hok2, Hall. cbv zeta. fold s p.
  split_and!; [|apply Hok2|done..].
  unfold createPost. cbn [is_undefined js_strings].
  rewrite (bind_ok _ _ _ _ _ Hins). fold (js_strings names).
  rewrite (bind_ok _ _ _ _ _ Hct). cbn [first_row].
  change (get_prop (JObj (post_star p)) "id") with (Ok (JNum (p_id p))).
  rewrite (bind_ok _ _ _ _ (JNum (p_id p))) by done.
  rewrite (bind_ok _ _ _ _ (p_id p)) by done.
  rewrite addTagsToPost_rows; [done| |].
  - simpl. rewrite fmap_app. apply elem_of_app. right. left.
  - intros t [_ Ht]%list_elem_of_filter. by apply list_elem_of_fmap_2.
Qed.

(** X8. [createPost] with a non-empty list of tag names, for an author
    that exists: the post row is appended with the next id of the
    sequence, the names are resolved to tag rows (created where
    missing), each is linked to the new post, and the call resolves to
    the aggregate of the new post as [getPostById] reads it back: the
    post is labelled with exactly the given names.  Rows that were
    there stay, and the store stays well-formed. *)
Theorem createPost_with_tags (w : world) (authorId : Z)
    (title content : string) (names : list string) :
  store_ok (db w) →
  authorId ∈ u_id <$> users (db w) →
  names ≠ [] →
  let p := Post (posts_id_seq (db w)) authorId title content in
  let out := createPost authorId title content (js_strings names) w in
  let s' := db out.1 in
  out.2 = Ok (JObj (aggregate p s')) ∧
  getPostById (p_id p) out.1 = out ∧
  posts s' = posts (db w) ++ [p] ∧
  tag_names_of_post (p_id p) s' = list_to_set names ∧
  post_tags (db w) `prefix_of` post_tags s' ∧
  tags (db w) `prefix_of` tags s' ∧
  users s' = users (db w) ∧ heap out.1 = heap w ∧
  store_ok s'.
Proof.
  intros Hok Ha Hne p out s'.
  assert (store_ok s') as Hok' by (by apply keeps_ok_createPost).
  destruct (createPost_run w authorId title content names Hok Ha Hne)
    as (new & Hrun & Hnd & Hall & Hnew).
  cbv zeta in Hrun. fold p in Hrun.
  set (ts := tags (db w) ++ new) in *.
  set (ids := t_id <$> filter (λ t, t_name t ∈ names) ts) in *.
  set (w' := World _ _) in Hrun.
  assert (p ∈ posts (db w')) as Hp by (apply elem_of_app; right; left).
  assert (db out.1 = db w') as Hdb
    by (unfold out; by rewrite Hrun, getPostById_read_only).
  assert (out = (w', Ok (JObj (aggregate p (db w'))))) as Hout.
  { unfold out. rewrite Hrun. apply getPostById_of_post; [|done].
    by rewrite <-Hdb. }
  assert (∀ i, PostTag (p_id p) i ∈ post_tags (db w') ↔ i ∈ ids) as Hlinked.
  { intros i. simpl. rewrite elem_of_link_rows. split.
    - intros [Hin|(j & Hj & [= ->])]; [|done]. exfalso.
      destruct Hok as (_ & (_ & Hseq & _) & _ & (_ & Hfk & _)).
      rewrite Forall_forall in Hfk. rewrite Forall_forall in Hseq.
      apply Hfk, list_elem_of_fmap in Hin as (q & Hid & Hq). simpl in Hid.
      specialize (Hseq _ Hq). lia.
    - intros Hi. right. eauto. }
  unfold s'. rewrite Hout. cbn [fst snd].
  split_and!; try done.
  - apply getPostById_of_post; [by rewrite <-Hdb|done].
  - apply set_eq. intros n. unfold tag_names_of_post.
    rewrite elem_of_list_to_set, elem_of_list_to_set, list_elem_of_fmap.
    rewrite <-(resolved_names ts names n Hnd Hall). split.
    + intros (t & -> & [Ht Hl]%elem_of_tags_of_post). exists t.
      split_and!; [done..|]. by apply Hlinked.
    + intros (t & Ht & <- & Hi). exists t. split; [done|].
      apply elem_of_tags_of_post. split; [done|]. by apply Hlinked.
  - apply link_rows_prefix.
  - by apply prefix_app_r.
  - by rewrite <-Hdb.
Qed.

(** ** Linking a tag, once or twice *)

Lemma createPostTag_eq w postId tagId :
  createPostTag postId tagId w =
  match pg_int tagId with
  | None => (w, Throw StoreError)
  | Some t =>
      if bool_decide (PostTag postId t ∈ post_tags (db w))
      then (w, Ok JUndefined)
      else if bool_decide (postId ∈ p_id <$> posts (db w) ∧
                           t ∈ t_id <$> tags (db w))
      then (World (heap w)
              (with_post_tags (post_tags (db w) ++ [PostTag postId t]) (db w)),
            Ok JUndefined)
      else (w, Throw StoreError)
  end.
Proof.
  unfold createPostTag, bind, query, insert_post_tag. destruct w as [h s].
  simpl. destruct (pg_int tagId); [|done]. by repeat case_bool_decide.
Qed.


(** ** What [addTagsToPost] leaves alone *)

Lemma links_only_same {A} postId (m : M A) :
  (∀ w, (m w).1 = w) → links_only postId m.
Proof.
  intros Hm w. rewrite Hm. split_and!; [done..|]. exists [].
  by rewrite app_nil_r.
Qed.

Lemma links_only_bind {A B} postId (m : M A) (k : A → M B) :
  links_only postId m → (∀ a, links_only postId (k a)) →
  links_only postId (bind m k).
Proof.
  intros Hm Hk w. unfold bind. specialize (Hm w).
  destruct (m w) as [w1 [a|e]]; simpl in *; [|done].
  destruct Hm as (H1 & H2 & H3 & H4 & new1 & H5 & H6).
  destruct (Hk a w1) as (K1 & K2 & K3 & K4 & new2 & K5 & K6).
  split_and!; [congruence..|]. exists (new1 ++ new2).
  split; [by rewrite K5, H5, app_assoc|by apply Forall_app].
Qed.

Lemma links_only_map_async {X A} postId (cb : X → outcome (M A)) xs :
  (∀ x p, cb x = Ok p → links_only postId p) →
  links_only postId (map_async cb xs).
Proof.
  intros Hcb. induction xs as [|x xs IH]; intros w; simpl.
  { split_and!; [done..|]. exists []. by rewrite app_nil_r. }
  destruct (cb x) as [p|e] eqn:Hx.
  2:{ split_and!; [done..|]. exists []. by rewrite app_nil_r. }
  pose proof (Hcb _ _ Hx w) as Hp. destruct (p w) as [w1 r]. simpl in Hp.
  specialize (IH w1).
  destruct Hp as (H1 & H2 & H3 & H4 & new1 & H5 & H6).
  destruct IH as (K1 & K2 & K3 & K4 & new2 & K5 & K6).
  assert (∀ w2, heap w2 = heap w1 → users (db w2) = users (db w1) →
            posts (db w2) = posts (db w1) → tags (db w2) = tags (db w1) →
            post_tags (db w2) = post_tags (db w1) ++ new2 →
            heap w2 = heap w ∧ users (db w2) = users (db w) ∧
            posts (db w2) = posts (db w) ∧ tags (db w2) = tags (db w) ∧
            ∃ new, post_tags (db w2) = post_tags (db w) ++ new ∧
                   Forall (λ pt, pt_postId pt = postId) new) as Hgoal.
  { intros w2 ? ? ? ? Hpt. split_and!; [congruence..|]. exists (new1 ++ new2).
    split; [by rewrite Hpt, H5, app_assoc|by apply Forall_app]. }
  destruct (map_async cb xs w1) as [w2 [rs|e]]; simpl in *; by apply Hgoal.
Qed.

Lemma links_only_createPostTag postId tagId :
  links_only postId (createPostTag postId tagId).
Proof.
  intros w. rewrite createPostTag_eq.
  assert (∃ new, post_tags (db w) = post_tags (db w) ++ new ∧
                 Forall (λ pt, pt_postId pt = postId) new) as Hsame
    by (exists []; by rewrite app_nil_r).
  destruct (pg_int tagId) as [t|]; [|done].
  repeat case_bool_decide; try done. simpl. split_and!; [done..|].
  exists [PostTag postId t]. split; [done|]. by apply Forall_singleton.
Qed.

Lemma links_only_addTagsToPost postId tagList :
  links_only postId (addTagsToPost postId tagList).
Proof.
  unfold addTagsToPost. apply links_only_bind; [by apply links_only_same|].
  intros tags. apply links_only_bind.
  { apply links_only_map_async. intros tag p Hp. case_match; simplify_eq.
    apply links_only_createPostTag. }
  intros settled. apply links_only_bind; [by apply links_only_same|].
  intros _. apply links_only_same, getPostById_read_only.
Qed.

(** X10. [addTagsToPost], whatever it is given and however it settles,
    only ever adds join rows, and only rows of the post it was called
    for: the rows that were there stay in place, and users, posts, tags
    and the caller's objects are not touched.  Given anything but an
    array it rejects with a [TypeError] before any query is sent. *)
Theorem addTagsToPost_only_links (w : world) (postId : Z) (tagList : jsval) :
  let out := addTagsToPost postId tagList w in
  heap out.1 = heap w ∧ users (db out.1) = users (db w) ∧
  posts (db out.1) = posts (db w) ∧ tags (db out.1) = tags (db w) ∧
  (∃ new, post_tags (db out.1) = post_tags (db w) ++ new ∧
          Forall (λ pt, pt_postId pt = postId) new) ∧
  ((∀ xs, tagList ≠ JArr xs) → out = (w, Throw TypeError)).
Proof.
  intros out.
  destruct (links_only_addTagsToPost postId tagList w) as (?&?&?&?&?).
  split_and!; [done..|]. intros Hna. unfold out, addTagsToPost.
  destruct tagList; try done. by destruct (Hna xs).
Qed.

Lemma link_rows_absorb postId ids pts :
  (∀ i, i ∈ ids → PostTag postId i ∈ pts) → link_rows postId ids pts = pts.
Proof.
  unfold link_rows. induction ids as [|i ids IH]; intros Hin; [done|].
  simpl. unfold link_row at 2. rewrite bool_decide_eq_true_2 by (apply Hin; left).
  apply IH. intros j Hj. apply Hin. by right.
Qed.

(** X11. Linking twice is linking once.  For a post that has a row and
    tag rows as [createTags] hands them back, [addTagsToPost] links
    every one of them and resolves to the aggregate of the post; called
    again with the same rows it changes nothing and resolves to the
    same aggregate. *)
Theorem addTagsToPost_idempotent (w : world) (postId : Z) (R : list tag_row) :
  postId ∈ p_id <$> posts (db w) →
  (∀ t, t ∈ R → t ∈ tags (db w)) →
  let rows := JArr (JObj <$> (tag_star <$> R)) in
  let out := addTagsToPost postId rows w in
  (∀ t, t ∈ R → PostTag postId (t_id t) ∈ post_tags (db out.1)) ∧
  getPostById postId out.1 = out ∧
  addTagsToPost postId rows out.1 = out.
Proof.
  intros Hp HR rows out.
  assert (∀ t, t ∈ R → t_id t ∈ t_id <$> tags (db w)) as HR'
    by (intros; by apply list_elem_of_fmap_2, HR).
  pose proof (addTagsToPost_rows (heap w) (db w) postId R Hp HR') as Hrun.
  cbv zeta in Hrun. assert (World (heap w) (db w) = w) as Hw by (by destruct w).
  rewrite Hw in Hrun. set (w1 := World _ _) in Hrun.
  assert (out = getPostById postId w1) as Hout by done.
  assert (out.1 = w1) as Hw1 by (by rewrite Hout, getPostById_read_only).
  assert (∀ t, t ∈ R → PostTag postId (t_id t) ∈ post_tags (db w1)) as Hl.
  { intros t Ht. simpl. apply elem_of_link_rows. right. exists (t_id t).
    split; [by apply list_elem_of_fmap_2|done]. }
  rewrite Hw1. split_and!; [done|done|].
  pose proof (addTagsToPost_rows (heap w1) (db w1) postId R Hp HR') as Hrun2.
  cbv zeta in Hrun2. unfold rows.
  change (World (heap w1) (db w1)) with w1 in Hrun2. rewrite Hrun2.
  rewrite link_rows_absorb.
  - by rewrite with_post_tags_id.
  - intros i (t & -> & Ht)%list_elem_of_fmap. by apply Hl.
Qed.

(** ** What [createTags] leaves alone *)

Lemma insert_tag_rows_prefix names ts seq ts' seq' :
  insert_tag_rows names ts seq = (Some ts', seq') → ts `prefix_of` ts'.
Proof.
  revert ts seq. induction names as [|n names IH]; intros ts seq; simpl.
  { by intros [= <- _]. }
  case_bool_decide; [apply IH|]. case_bool_decide; [done|].
  intros Hrows. etrans; [|by eapply IH]. by apply prefix_app_r.
Qed.

Lemma insert_tags_frame params s :
  users (insert_tags params s).1 = users s ∧
  posts (insert_tags params s).1 = posts s ∧
  post_tags (insert_tags params s).1 = post_tags s ∧
  tags s `prefix_of` tags (insert_tags params s).1.
Proof.
  unfold insert_tags. destruct (mapM pg_text params) as [[|n names]|]; [done| |done].
  destruct (insert_tag_rows _ _ _) as [[ts'|] seq'] eqn:Hrows; [|done].
  simpl. split_and!; [done..|]. by eapply insert_tag_rows_prefix.
Qed.

Lemma tags_only_same {A} (m : M A) : (∀ w, (m w).1 = w) → tags_only m.
Proof. intros Hm w. by rewrite Hm. Qed.

Lemma tags_only_bind {A B} (m : M A) (k : A → M B) :
  tags_only m → (∀ a, tags_only (k a)) → tags_only (bind m k).
Proof.
  intros Hm Hk w. unfold bind. specialize (Hm w).
  destruct (m w) as [w1 [a|e]]; simpl in *; [|done].
  destruct Hm as (H1 & H2 & H3 & H4). destruct (Hk a w1) as (K1 & K2 & K3 & K4).
  split_and!; [congruence..|]. by etrans.
Qed.

Lemma tags_only_createTags tagList : tags_only (createTags tagList).
Proof.
  unfold createTags. apply tags_only_bind; [by apply tags_only_same|].
  intros []; [by apply tags_only_same|].
  apply tags_only_bind; [by apply tags_only_same|intros names].
  apply tags_only_bind.
  { intros w. unfold query.
    pose proof (insert_tags_frame names (db w)) as Hf.
    by destruct (insert_tags names (db w)). }
  intros _. apply tags_only_bind; [|intros; by apply tags_only_same].
  apply tags_only_same. intros w. unfold query, select_tags_by_names.
  destruct w as [h s]. simpl. by destruct (mapM pg_text names) as [[|]|].
Qed.

(** X12. [createTags], whatever it is given and however it settles,
    changes nothing but the [tags] table, where the rows that were
    there stay in place.  Given something that is not an array it sends
    no query at all: it resolves to [undefined] when the value's
    [length] is 0 (the empty string, an object with [length: 0]) and
    rejects with a [TypeError] otherwise ([undefined], [null], a
    number, a non-empty string). *)
Theorem createTags_only_adds_tags (w : world) (tagList : jsval) :
  let out := createTags tagList w in
  heap out.1 = heap w ∧ users (db out.1) = users (db w) ∧
  posts (db out.1) = posts (db w) ∧
  post_tags (db out.1) = post_tags (db w) ∧
  tags (db w) `prefix_of` tags (db out.1) ∧
  ((∀ xs, tagList ≠ JArr xs) →
   out = (w, match length_is_zero tagList with
             | Ok true => Ok JUndefined
             | _ => Throw TypeError
             end)) ∧
  createTags JUndefined w = (w, Throw TypeError) ∧
  createTags JNull w = (w, Throw TypeError) ∧
  createTags (JStr "") w = (w, Ok JUndefined) ∧
  (∀ n, createTags (JNum n) w = (w, Throw TypeError)).
Proof.
  intros out. destruct (tags_only_createTags tagList w) as (?&?&?&?).
  split_and!; try done.
  - apply keeps_heap_createTags.
  - intros Hna. unfold out, createTags, bind, lift.
    destruct tagList; try done; simpl.
    + by case_bool_decide.
    + by destruct (Hna xs).
    + by repeat case_match.
Qed.

(** ** Column updates *)

Lemma assign_all_None {R : Type} (assign : string → jsval → option (R → R))
    items k v :
  (k, v) ∈ items → assign k v = None → assign_all assign items = None.
Proof.
  induction items as [|[k' v'] items IH]; intros Hin Hk;
    [by apply elem_of_nil in Hin|].
  simpl. apply elem_of_cons in Hin as [[= <- <-]|Hin]; [by rewrite Hk|].
  rewrite (IH Hin Hk). by destruct (assign k' v').
Qed.

Lemma assign_all_Some {R : Type} (assign : string → jsval → option (R → R))
    items :
  (∀ k v, (k, v) ∈ items → is_Some (assign k v)) →
  is_Some (assign_all assign items).
Proof.
  induction items as [|[k v] items IH]; intros Hall; [by eexists|].
  simpl. destruct (Hall k v) as [g ->]; [left|].
  destruct IH as [h ->]; [intros; apply Hall; by right|]. by eexists.
Qed.

(** What [assign_all] does to one column: untouched when no item names
    it, set to the item's value otherwise. *)
Lemma assign_all_column {R X : Type} (assign : string → jsval → option (R → R))
    (proj : R → X) (col : string) (items : list (string * jsval)) (f : R → R) :
  (∀ k v g, assign k v = Some g → k ≠ col → ∀ r, proj (g r) = proj r) →
  NoDup items.*1 →
  assign_all assign items = Some f →
  (col ∉ items.*1 → ∀ r, proj (f r) = proj r) ∧
  (∀ v g x, (col, v) ∈ items → assign col v = Some g →
            (∀ r, proj (g r) = x) → ∀ r, proj (f r) = x).
Proof.
  intros Hother. revert f.
  induction items as [|[k v] items IH]; intros f Hnd Hf.
  { injection Hf as <-. split; [done|]. by intros v g x ?%elem_of_nil. }
  simpl in Hf, Hnd. apply NoDup_cons in Hnd as [Hk Hnd].
  destruct (assign k v) as [g|] eqn:Hg; [|done].
  destruct (assign_all assign items) as [h|] eqn:Hh; [|done].
  injection Hf as <-. destruct (IH h Hnd eq_refl) as [IH1 IH2]. split.
  - intros Hcol r. rewrite IH1.
    + eapply Hother; [done|]. intros ->. apply Hcol. left.
    + intros Hin. apply Hcol. by right.
  - intros v' g' x [[= <- <-]|Hin]%elem_of_cons Hg' Hx r.
    + rewrite IH1 by done. rewrite Hg in Hg'. injection Hg' as <-. apply Hx.
    + by eapply IH2.
Qed.

Lemma with_users_id s : with_users (users s) s = s.
Proof. by destruct s. Qed.

Lemma with_posts_id s : with_posts (posts s) s = s.
Proof. by destruct s. Qed.

Lemma fmap_if_none {A} (P : A → Prop) `{∀ x, Decision (P x)} (f : A → A)
    (l : list A) :
  (∀ x, x ∈ l → ¬ P x) → (λ x, if decide (P x) then f x else x) <$> l = l.
Proof.
  intros Hl. induction l as [|x l IH]; [done|].
  rewrite fmap_cons, IH by (intros; apply Hl; by right).
  by rewrite decide_False by (apply Hl; left).
Qed.

Lemma updateUser_items w id l (o : jsobj) :
  heap w !! l = Some o → o ≠ ∅ →
  updateUser id (Some l) w =
    (let* rows := query (update_users id (map_to_list o)) in
     ret (first_row rows)) w.
Proof.
  intros Hl Ho. unfold updateUser.
  rewrite (bind_ok _ _ _ _ _ (read_fields_some _ _ _ Hl)).
  rewrite bool_decide_eq_false_2; [done|].
  rewrite set_string_empty_iff, keys_nil_iff. done.
Qed.




Lemma text_column {R : Type} (assign : string → jsval → option (R → R))
    (proj : R → string) (col : string) (o : jsobj) (f : R → R) :
  (∀ k v g, assign k v = Some g → k ≠ col → ∀ r, proj (g r) = proj r) →
  (∀ x g, assign col (JStr x) = Some g → ∀ r, proj (g r) = x) →
  map_Forall (λ _ v, ∃ x, v = JStr x) o →
  assign_all assign (map_to_list o) = Some f →
  ∀ r, proj (f r) = text_field o col (proj r).
Proof.
  intros Hother Hcol Htext Hf r.
  destruct (assign_all_column assign proj col _ f Hother
              (NoDup_fst_map_to_list o) Hf) as [Hkeep Hset].
  unfold text_field. destruct (o !! col) as [v|] eqn:Hv.
  - destruct (Htext _ _ Hv) as [x ->].
    destruct (assign col (JStr x)) as [g|] eqn:Hg.
    + eapply Hset; [by apply elem_of_map_to_list|done|]. by apply Hcol.
    + rewrite (assign_all_None assign _ col (JStr x)) in Hf; [done| |done].
      by apply elem_of_map_to_list.
  - by apply Hkeep, keys_without.
Qed.

Lemma sets_text_items cols o k v :
  sets_text cols o → (k, v) ∈ map_to_list o → k ∈ cols ∧ ∃ x, v = JStr x.
Proof. intros [_ Ho] Hin%elem_of_map_to_list. by apply (Ho k v). Qed.

Lemma sets_text_values cols o :
  sets_text cols o → map_Forall (λ _ v, ∃ x : string, v = JStr x) o.
Proof. intros [_ Ho] k v Hk. by destruct (Ho k v Hk). Qed.

Lemma fmap_if_proj {A B} (P : A → Prop) `{∀ x, Decision (P x)} (f : A → A)
    (proj : A → B) (l : list A) :
  (∀ x, proj (f x) = proj x) →
  proj <$> ((λ x, if decide (P x) then f x else x) <$> l) = proj <$> l.
Proof.
  intros Hf. rewrite <-list_fmap_compose. apply list_fmap_ext.
  intros i x _. simpl. by case_decide.
Qed.

Lemma assign_users_text o :
  sets_text ["password"; "name"; "location"] o →
  ∃ f, assign_all user_assign (map_to_list o) = Some f ∧
       ∀ u, f u = patch_user o u.
Proof.
  intros Ho.
  destruct (assign_all_Some user_assign (map_to_list o)) as [f Hf].
  { intros k v Hin. destruct (sets_text_items _ _ _ _ Ho Hin) as [Hk [x ->]].
    repeat (apply elem_of_cons in Hk as [->|Hk]; [by eexists|]).
    by apply elem_of_nil in Hk. }
  exists f. split; [done|]. intros u.
  assert (∀ k v g, (k, v) ∈ map_to_list o → user_assign k v = Some g →
                   ∀ r, u_id (g r) = u_id r ∧ u_username (g r) = u_username r)
    as Hkeep.
  { intros k v g Hin. destruct (sets_text_items _ _ _ _ Ho Hin) as [Hk [x ->]].
    repeat (apply elem_of_cons in Hk as [->|Hk];
            [by intros [= <-]|]).
    by apply elem_of_nil in Hk. }
  assert (∀ col proj,
    (∀ k v g, user_assign k v = Some g → k ≠ col → ∀ r, proj (g r) = proj r) →
    (∀ x g, user_assign col (JStr x) = Some g → ∀ r, proj (g r) = x) →
    proj (f u) = text_field o col (proj u)) as Htext.
  { intros col proj H1 H2. eapply text_column; [done..| |done].
    by eapply sets_text_values. }
  pose proof (assign_all_keeps user_assign u_id _ f
                (λ k v g Hin Hg r, proj1 (Hkeep k v g Hin Hg r)) Hf u) as Hid.
  pose proof (assign_all_keeps user_assign u_username _ f
                (λ k v g Hin Hg r, proj2 (Hkeep k v g Hin Hg r)) Hf u) as Hname.
  assert (u_password (f u) = text_field o "password" (u_password u)) as Hp.
  { apply Htext.
    - intros k v g. unfold user_assign. repeat case_decide; try done;
        [destruct (pg_int v)|destruct (pg_text v)..]; simpl;
        intros [= <-]; done.
    - by intros x g [= <-]. }
  assert (u_name (f u) = text_field o "name" (u_name u)) as Hn.
  { apply Htext.
    - intros k v g. unfold user_assign. repeat case_decide; try done;
        [destruct (pg_int v)|destruct (pg_text v)..]; simpl;
        intros [= <-]; done.
    - by intros x g [= <-]. }
  assert (u_location (f u) = text_field o "location" (u_location u)) as Hl.
  { apply Htext.
    - intros k v g. unfold user_assign. repeat case_decide; try done;
        [destruct (pg_int v)|destruct (pg_text v)..]; simpl;
        intros [= <-]; done.
    - by intros x g [= <-]. }
  unfold patch_user. rewrite <-Hid, <-Hname, <-Hp, <-Hn, <-Hl.
  by destruct (f u).
Qed.

Lemma assign_posts_text o :
  sets_text ["title"; "content"] o →
  ∃ f, assign_all post_assign (map_to_list o) = Some f ∧
       ∀ p, f p = patch_post o p.
Proof.
  intros Ho.
  destruct (assign_all_Some post_assign (map_to_list o)) as [f Hf].
  { intros k v Hin. destruct (sets_text_items _ _ _ _ Ho Hin) as [Hk [x ->]].
    repeat (apply elem_of_cons in Hk as [->|Hk]; [by eexists|]).
    by apply elem_of_nil in Hk. }
  exists f. split; [done|]. intros p.
  assert (∀ k v g, (k, v) ∈ map_to_list o → post_assign k v = Some g →
                   ∀ r, p_id (g r) = p_id r ∧ p_authorId (g r) = p_authorId r)
    as Hkeep.
  { intros k v g Hin. destruct (sets_text_items _ _ _ _ Ho Hin) as [Hk [x ->]].
    repeat (apply elem_of_cons in Hk as [->|Hk];
            [by intros [= <-]|]).
    by apply elem_of_nil in Hk. }
  assert (∀ col proj,
    (∀ k v g, post_assign k v = Some g → k ≠ col → ∀ r, proj (g r) = proj r) →
    (∀ x g, post_assign col (JStr x) = Some g → ∀ r, proj (g r) = x) →
    proj (f p) = text_field o col (proj p)) as Htext.
  { intros col proj H1 H2. eapply text_column; [done..| |done].
    by eapply sets_text_values. }
  pose proof (assign_all_keeps post_assign p_id _ f
                (λ k v g Hin Hg r, proj1 (Hkeep k v g Hin Hg r)) Hf p) as Hid.
  pose proof (assign_all_keeps post_assign p_authorId _ f
                (λ k v g Hin Hg r, proj2 (Hkeep k v g Hin Hg r)) Hf p) as Ha.
  assert (p_title (f p) = text_field o "title" (p_title p)) as Ht.
  { apply Htext.
    - intros k v g. unfold post_assign. repeat case_decide; try done;
        [destruct (pg_int v)..|destruct (pg_text v)]; simpl;
        intros [= <-]; done.
    - by intros x g [= <-]. }
  assert (p_content (f p) = text_field o "content" (p_content p)) as Hc.
  { apply Htext.
    - intros k v g. unfold post_assign. repeat case_decide; try done;
        [destruct (pg_int v)..|destruct (pg_text v)]; simpl;
        intros [= <-]; done.
    - by intros x g [= <-]. }
  unfold patch_post. rewrite <-Hid, <-Ha, <-Ht, <-Hc.
  by destruct (f p).
Qed.

Lemma sets_text_items_cons cols o :
  sets_text cols o → ∃ item items, map_to_list o = item :: items.
Proof.
  intros [Ho _]. destruct (map_to_list o) as [|item items] eqn:Hl.
  - by apply map_to_list_empty_iff in Hl.
  - by eexists _, _.
Qed.

Lemma update_users_text id o s :
  store_ok s → sets_text ["password"; "name"; "location"] o →
  update_users id (map_to_list o) s =
    (with_users ((λ u, if decide (u_id u = id) then patch_user o u else u)
                   <$> users s) s,
     Ok (user_star ∘ patch_user o <$> filter (λ u, u_id u = id) (users s))).
Proof.
  intros Hok Ho. destruct (assign_users_text o Ho) as (f & Hf & Hpatch).
  destruct (sets_text_items_cons _ _ Ho) as (item & items & Hitems).
  unfold update_users. rewrite Hitems in Hf |- *. rewrite Hf.
  assert ((λ u, if decide (u_id u = id) then f u else u) <$> users s =
          (λ u, if decide (u_id u = id) then patch_user o u else u) <$> users s)
    as ->.
  { apply list_fmap_ext. intros i u _. case_decide; [apply Hpatch|done]. }
  rewrite bool_decide_eq_true_2.
  - do 2 f_equal. apply list_fmap_ext. intros i u _. simpl. by rewrite Hpatch.
  - destruct Hok as ((Hu1 & Hu2 & _) & (_ & _ & Hfk) & _).
    unfold users_constraints.
    rewrite (fmap_if_proj _ _ u_id), (fmap_if_proj _ _ u_username); done.
Qed.

Lemma update_posts_text postId o s :
  store_ok s → sets_text ["title"; "content"] o →
  update_posts postId (map_to_list o) s =
    (with_posts ((λ p, if decide (p_id p = postId) then patch_post o p else p)
                   <$> posts s) s,
     Ok (post_star ∘ patch_post o <$> filter (λ p, p_id p = postId) (posts s))).
Proof.
  intros Hok Ho. destruct (assign_posts_text o Ho) as (f & Hf & Hpatch).
  destruct (sets_text_items_cons _ _ Ho) as (item & items & Hitems).
  unfold update_posts. rewrite Hitems in Hf |- *. rewrite Hf.
  assert ((λ p, if decide (p_id p = postId) then f p else p) <$> posts s =
          (λ p, if decide (p_id p = postId) then patch_post o p else p)
            <$> posts s) as ->.
  { apply list_fmap_ext. intros i p _. case_decide; [apply Hpatch|done]. }
  rewrite bool_decide_eq_true_2.
  - do 2 f_equal. apply list_fmap_ext. intros i p _. simpl. by rewrite Hpatch.
  - destruct Hok as (_ & (Hp1 & _ & Hfk) & _ & (_ & Hj & _)).
    unfold posts_constraints.
    rewrite (fmap_if_proj _ _ p_id) by done. split_and!; [done| |done].
    apply Forall_fmap. eapply Forall_impl; [exact Hfk|].
    intros p Hp. simpl. by case_decide.
Qed.

(** X14. Updating the profile of a user.  When [fields] sets some of
    [password], [name] and [location] to strings, [updateUser] rewrites
    exactly these columns of the row with the given id and resolves to
    the whole new row, password included; every other row and table,
    and the caller's object, stay as they were.  When no user has the
    id the update matches nothing: the call resolves to [undefined] and
    the world is unchanged. *)
Theorem updateUser_profile (w : world) (id : Z) (l : loc) (o : jsobj) :
  store_ok (db w) →
  heap w !! l = Some o →
  sets_text ["password"; "name"; "location"] o →
  let out := updateUser id (Some l) w in
  heap out.1 = heap w ∧
  users (db out.1) =
    (λ u, if decide (u_id u = id) then patch_user o u else u) <$> users (db w) ∧
  posts (db out.1) = posts (db w) ∧
  tags (db out.1) = tags (db w) ∧
  post_tags (db out.1) = post_tags (db w) ∧
  (∀ u, u ∈ users (db w) → u_id u = id →
        out.2 = Ok (JObj (user_star (patch_user o u)))) ∧
  (id ∉ u_id <$> users (db w) → out = (w, Ok JUndefined)).
Proof.
  intros Hok Hl Ho out. unfold out. clear out.
  rewrite (updateUser_items _ _ _ _ Hl (proj1 Ho)). unfold bind, query.
  rewrite (update_users_text _ _ _ Hok Ho). destruct w as [h s]. simpl.
  split_and!; try done; try by destruct s.
  - intros u Hu <-. rewrite (filter_unique u_id); [done|apply Hok|done].
  - intros Hid. rewrite filter_none, fmap_if_none, with_users_id; [done|..].
    + intros u Hu Heq. apply Hid. rewrite <-Heq. by apply list_elem_of_fmap_2.
    + intros u Hu Heq. apply Hid. rewrite <-Heq. by apply list_elem_of_fmap_2.
Qed.

Lemma sets_text_no_tags o : sets_text ["title"; "content"] o → o !! "tags" = None.
Proof.
  intros [_ Ho]. destruct (o !! "tags") as [v|] eqn:Hv; [|done].
  destruct (Ho _ _ Hv) as [Hin _]. exfalso. revert Hin. not_in_list.
Qed.

Lemma posts_with_posts ps s : posts (with_posts ps s) = ps.
Proof. by destruct s. Qed.

Lemma aggregate_with_posts p ps s :
  aggregate p (with_posts ps s) = aggregate p s.
Proof. by destruct s. Qed.

(** The column update of [updatePost] when [fields] sets some of
    [title] and [content] to strings. *)
Lemma updatePost_text_step w postId (o : jsobj) :
  store_ok (db w) → sets_text ["title"; "content"] o →
  ∃ rows,
    (if bool_decide (0 < String.length (set_string (map_to_list o).*1))
     then query (update_posts postId (map_to_list o)) else ret []) w =
    (World (heap w)
       (with_posts ((λ p, if decide (p_id p = postId) then patch_post o p else p)
                      <$> posts (db w)) (db w)), Ok rows).
Proof.
  intros Hok Ho. rewrite bool_decide_eq_true_2.
  - unfold query. rewrite (update_posts_text _ _ _ Hok Ho).
    destruct w. by eexists.
  - assert (String.length (set_string (map_to_list o).*1) ≠ 0); [|lia].
    rewrite set_string_empty_iff, keys_nil_iff. apply Ho.
Qed.

(** X15. Editing the text of a post.  When [fields] has no [tags] key
    and sets some of [title] and [content] to strings, [updatePost]
    rewrites exactly these columns of the post and resolves to its
    aggregate with the new text and the author and tags it had; users,
    tags, the join, the other posts and the caller's object stay as
    they were.  When no post has the id the call rejects with
    [PostNotFoundError] and the world is unchanged. *)
Theorem updatePost_text (w : world) (postId : Z) (l : loc) (o : jsobj) :
  store_ok (db w) →
  heap w !! l = Some o →
  sets_text ["title"; "content"] o →
  let out := updatePost postId (Some l) w in
  heap out.1 = heap w ∧
  posts (db out.1) =
    (λ p, if decide (p_id p = postId) then patch_post o p else p)
      <$> posts (db w) ∧
  users (db out.1) = users (db w) ∧
  tags (db out.1) = tags (db w) ∧
  post_tags (db out.1) = post_tags (db w) ∧
  (∀ p, p ∈ posts (db w) → p_id p = postId →
        out.2 = Ok (JObj (aggregate (patch_post o p) (db w)))) ∧
  (postId ∉ p_id <$> posts (db w) → out = (w, Throw PostNotFoundError)).
Proof.
  intros Hok Hl Ho out. unfold out. clear out.
  pose proof (sets_text_no_tags _ Ho) as Htags.
  rewrite (updatePost_unfold _ _ _ _ Hl), Htags, delete_id, insert_id by done.
  assert (World (heap w) (db w) = w) as -> by (by destruct w).
  simpl default. unfold updatePost_rest.
  rewrite (bind_ok _ _ _ _ _ (read_fields_some _ _ _ Hl)).
  destruct (updatePost_text_step w postId o Hok Ho) as [rows Hstep].
  rewrite (bind_ok _ _ _ _ _ Hstep). cbn [is_undefined].
  set (w1 := World _ _).
  assert (store_ok (db w1)) as Hok1.
  { pose proof (stmt_keeps_ok_update_posts postId (map_to_list o)
                  (keys_without o "id" ltac:(
                     destruct (o !! "id") as [v|] eqn:Hv; [|done];
                     destruct (proj2 Ho _ _ Hv) as [Hin _]; exfalso;
                     revert Hin; not_in_list)) (db w) Hok) as Hk.
    by rewrite (update_posts_text _ _ _ Hok Ho) in Hk. }
  rewrite getPostById_read_only.
  split_and!; try done; try (subst w1; simpl; by destruct (db w)).
  - intros p Hp <-.
    assert (patch_post o p ∈ posts (db w1)) as Hp1.
    { subst w1. cbn [db]. rewrite posts_with_posts.
      apply list_elem_of_fmap. exists p. by rewrite decide_True. }
    pose proof (getPostById_of_post w1 _ Hok1 Hp1) as Hget.
    change (p_id (patch_post o p)) with (p_id p) in Hget. rewrite Hget.
    subst w1. simpl. by rewrite aggregate_with_posts.
  - intros Hid. subst w1.
    rewrite fmap_if_none, with_posts_id.
    + assert (World (heap w) (db w) = w) as -> by (by destruct w).
      by apply getPostById_missing.
    + intros p Hp Heq. apply Hid. rewrite <-Heq. by apply list_elem_of_fmap_2.
Qed.

(** X16. No transaction.  [updatePost] sends the column update before
    it looks at the tags, and nothing undoes it: with some of [title]
    and [content] set to strings and [tags: []], the call rejects with
    a [TypeError] (the empty list makes [createTags] resolve to
    [undefined]), yet the new text is in the [posts] table; the tags
    and the join are untouched. *)
Theorem updatePost_partial_write (w : world) (postId : Z) (l : loc)
    (o : jsobj) :
  store_ok (db w) →
  heap w !! l = Some o →
  o !! "tags" = Some (JArr []) →
  sets_text ["title"; "content"] (delete "tags" o) →
  let out := updatePost postId (Some l) w in
  out.2 = Throw TypeError ∧
  posts (db out.1) =
    (λ p, if decide (p_id p = postId) then patch_post (delete "tags" o) p
          else p) <$> posts (db w) ∧
  users (db out.1) = users (db w) ∧
  tags (db out.1) = tags (db w) ∧
  post_tags (db out.1) = post_tags (db w).
Proof.
  intros Hok Hl Htags Ho out. unfold out. clear out.
  rewrite (updatePost_unfold _ _ _ _ Hl), Htags. simpl default.
  unfold updatePost_rest.
  erewrite bind_ok by (apply read_fields_some, lookup_insert_eq).
  set (w0 := World _ _).
  destruct (updatePost_text_step w0 postId _ Hok Ho) as [rows Hstep].
  rewrite (bind_ok _ _ _ _ _ Hstep). cbn [is_undefined].
  rewrite (bind_ok _ _ _ _ _ (createTags_empty _)).
  subst w0. simpl. split_and!; try done; by destruct (db w).
Qed.


(** ** Rows that point nowhere *)

Lemma nf_rows_of_unknown_post s postId tid :
  postId ∉ p_id <$> posts s →
  Forall (λ pt, pt_postId pt ∈ p_id <$> posts s) (post_tags s) →
  PostTag postId tid ∉ post_tags s.
Proof.
  intros Hp Hfk Hin. rewrite Forall_forall in Hfk. by apply Hfk in Hin.
Qed.

Lemma insert_post_tag_unknown_post s postId v :
  postId ∉ p_id <$> posts s →
  Forall (λ pt, pt_postId pt ∈ p_id <$> posts s) (post_tags s) →
  insert_post_tag postId v s = (s, Throw StoreError).
Proof.
  intros Hp Hfk. unfold insert_post_tag. destruct (pg_int v) as [tid|]; [|done].
  rewrite bool_decide_eq_false_2 by by apply nf_rows_of_unknown_post.
  rewrite bool_decide_eq_false_2; [done|]. by intros [? _].
Qed.

Lemma link_all_unknown_post h s postId elems :
  postId ∉ p_id <$> posts s →
  Forall (λ pt, pt_postId pt ∈ p_id <$> posts s) (post_tags s) →
  Forall (λ v, v ≠ JUndefined ∧ v ≠ JNull) elems →
  map_async (λ tag,
      match get_prop tag "id" with
      | Ok tagId => Ok (createPostTag postId tagId)
      | Throw e => Throw e
      end) elems (World h s) =
  (World h s, Ok (replicate (length elems) (Throw StoreError))).
Proof.
  intros Hp Hfk. induction 1 as [|v elems [Hu Hn] _ IH]; [done|].
  simpl map_async.
  assert (∃ tagId, get_prop v "id" = Ok tagId) as [tagId ->]
    by (destruct v; try done; by eexists).
  unfold createPostTag at 1, bind, query. simpl db.
  rewrite insert_post_tag_unknown_post by done. simpl. by rewrite IH.
Qed.

Lemma addTagsToPost_no_post (w : world) (postId : Z) (elems : list jsval) :
  store_ok (db w) →
  postId ∉ p_id <$> posts (db w) →
  Forall (λ v, v ≠ JUndefined ∧ v ≠ JNull) elems →
  addTagsToPost postId (JArr elems) w =
    (w, Throw (match elems with [] => PostNotFoundError | _ => StoreError end)).
Proof.
  intros Hok Hp Helems. destruct w as [h s]. unfold addTagsToPost.
  rewrite (bind_ok _ _ _ (World h s) elems) by done.
  rewrite (bind_ok _ _ _ _ _
             (link_all_unknown_post h s postId elems Hp
                ltac:(apply Hok) Helems)).
  destruct elems as [|v elems]; [|done].
  simpl. rewrite (bind_ok _ _ _ (World h s) []) by done.
  by apply getPostById_missing.
Qed.

(** X18. Tagging a post that does not exist.  When no post has the id,
    [addTagsToPost] on a non-empty array (of anything but [null] and
    [undefined]) rejects with the store error of the first insert, not
    with [PostNotFoundError], and changes nothing; on the empty array
    it sends no insert and rejects with [PostNotFoundError]. *)
Theorem addTagsToPost_unknown_post (w : world) (postId : Z)
    (elems : list jsval) :
  store_ok (db w) →
  postId ∉ p_id <$> posts (db w) →
  Forall (λ v, v ≠ JUndefined ∧ v ≠ JNull) elems →
  addTagsToPost postId (JArr elems) w =
    (w, Throw (match elems with [] => PostNotFoundError | _ => StoreError end)).
Proof. apply addTagsToPost_no_post. Qed.

Lemma filter_all {A} (P : A → Prop) `{∀ x, Decision (P x)} (l : list A) :
  (∀ x, x ∈ l → P x) → filter P l = l.
Proof.
  intros Hl. induction l as [|x l IH]; [done|].
  rewrite filter_cons_True by (apply Hl; left).
  f_equal. apply IH. intros; apply Hl; by right.
Qed.

(** X19. Retagging a post that does not exist.  [updatePost] with a
    non-empty list of tag names and an id that no post has creates the
    missing tags first and only then fails on the join: it rejects with
    a store error, not with [PostNotFoundError], and the tags it
    created stay behind; posts, users and the join are unchanged. *)
Theorem updatePost_unknown_post_tags (w : world) (postId : Z) (l : loc)
    (D : list string) :
  store_ok (db w) →
  postId ∉ p_id <$> posts (db w) →
  D ≠ [] →
  heap w !! l = Some {["tags" := js_strings D]} →
  let out := updatePost postId (Some l) w in
  out.2 = Throw StoreError ∧
  users (db out.1) = users (db w) ∧
  posts (db out.1) = posts (db w) ∧
  post_tags (db out.1) = post_tags (db w) ∧
  tags (db w) `prefix_of` tags (db out.1) ∧
  (∀ n, n ∈ D → n ∈ t_name <$> tags (db out.1)) ∧
  (∀ t, t ∈ tags (db out.1) → t ∈ tags (db w) ∨ t_name t ∈ D).
Proof.
  intros Hok Hp HD Hl out. unfold out. clear out.
  set (w1 := World (<[l := ∅]> (heap w)) (db w)).
  destruct (createTags_run w1 D Hok HD) as (new & Hct & Hok2 & Hall & Hnew).
  simpl in Hct, Hok2, Hall.
  set (ts := tags (db w) ++ new) in *.
  set (R := filter (λ t, t_name t ∈ D) ts) in *.
  assert (R ≠ []) as HR.
  { destruct D as [|n D]; [done|].
    assert (n ∈ t_name <$> ts) as (t & Hn & Ht)%list_elem_of_fmap
      by (apply Hall; left).
    assert (t ∈ R) as HtR
      by (apply list_elem_of_filter; split; [rewrite <-Hn; left|done]).
    intros Hnil. rewrite Hnil in HtR. by apply elem_of_nil in HtR. }
  rewrite (updatePost_unfold _ _ _ _ Hl).
  rewrite lookup_singleton_eq, delete_singleton_eq. simpl default.
  fold w1. unfold updatePost_rest.
  rewrite (bind_ok _ _ w1 w1 ∅) by (apply read_fields_some, lookup_insert_eq).
  rewrite map_to_list_empty. simpl.
  rewrite (bind_ok _ _ w1 w1 []) by done.
  rewrite (bind_ok _ _ _ _ _ Hct).
  erewrite bind_ok by done.
  erewrite bind_ok by (unfold lift; by rewrite tag_ids_rows).
  set (s2 := Store (users (db w)) (posts (db w)) ts (post_tags (db w))
               (users_id_seq (db w)) (posts_id_seq (db w))
               (tags_id_seq (db w) + Z.of_nat (length D))) in *.
  assert (∀ pt, pt ∈ post_tags (db w) → pt_postId pt ≠ postId) as Hnone.
  { intros pt Hpt Heq. apply Hp. rewrite <-Heq.
    destruct Hok as (_ & _ & _ & (_ & Hfk & _)).
    rewrite Forall_forall in Hfk. by apply Hfk. }
  erewrite bind_ok.
  2:{ unfold query. simpl db.
      rewrite delete_post_tags_not_in_eq
        by (intros Hnil; apply fmap_nil_inv in Hnil; done).
      rewrite filter_all.
      - rewrite with_post_tags_id. reflexivity.
      - intros pt Hpt [_ Heq]. by eapply Hnone. }
  simpl heap.
  erewrite bind_throw.
  2:{ apply (addTagsToPost_no_post (World (<[l:=∅]> (heap w)) s2) postId
               (JObj <$> (tag_star <$> R))); [done|done|].
      apply Forall_fmap, Forall_fmap, Forall_true. done. }
  assert (JObj <$> (tag_star <$> R) ≠ []) as HR'.
  { intros Hnil. by do 2 apply fmap_nil_inv in Hnil. }
  destruct (JObj <$> (tag_star <$> R)) as [|v vs]; [done|].
  simpl. split_and!; try done.
  - by apply prefix_app_r.
  - intros t [Ht|Ht]%elem_of_app; [by left|right; by apply Hnew].
Qed.

(** X20. A post needs its author.  [createPost] with an author id that
    no user has rejects with the store error of the insert; no post, no
    tag and no join row is created, whatever tags were given. *)
Theorem createPost_unknown_author (w : world) (authorId : Z)
    (title content : string) (tags0 : jsval) :
  authorId ∉ u_id <$> users (db w) →
  let out := createPost authorId title content tags0 w in
  out.2 = Throw StoreError ∧
  heap out.1 = heap w ∧
  users (db out.1) = users (db w) ∧
  posts (db out.1) = posts (db w) ∧
  tags (db out.1) = tags (db w) ∧
  post_tags (db out.1) = post_tags (db w).
Proof.
  intros Ha out.
  assert (out = (World (heap w) (bump_posts_seq (db w)), Throw StoreError))
    as ->.
  { unfold out, createPost. apply bind_throw. unfold query, insert_post.
    by rewrite bool_decide_eq_false_2 by (by intros [? _]). }
  destruct w as [h s]. by destruct s.
Qed.

(** * The properties at work on the scenario *)

Ltac by_compute := apply (bool_decide_unpack _); vm_compute; exact I.

Lemma store_ok_empty_store : store_ok empty_store.
Proof. by_compute. Qed.

Lemma store_ok_world_hello : store_ok (db world_hello).
Proof. by_compute. Qed.

(** Post 1 is labelled [#a] and [#b]; asking for [#a] alone leaves
    exactly [#a]. *)
Lemma updatePost_reconciles_tags_witness :
  let w := with_fields {["tags" := js_strings ["#a"]]} world_hello in
  (store_ok (db w) ∧ 1%Z ∈ p_id <$> posts (db w) ∧ ["#a"] ≠ [] ∧
   heap w !! fields_at = Some {["tags" := js_strings ["#a"]]}) ∧
  tag_names_of_post 1 (db (updatePost 1 (Some fields_at) w).1) =
    list_to_set ["#a"].
Proof.
  intros w.
  assert (store_ok (db w)) as H1 by by_compute.
  assert (1%Z ∈ p_id <$> posts (db w)) as H2 by by_compute.
  assert (["#a"] ≠ []) as H3 by discriminate.
  assert (heap w !! fields_at = Some {["tags" := js_strings ["#a"]]}) as H4
    by reflexivity.
  split; [done|].
  exact (proj1 (updatePost_reconciles_tags w 1 fields_at ["#a"] H1 H2 H3 H4)).
Defined.

Lemma createTags_upsert_get_idempotent_witness :
  store_ok (db world_hello) ∧
  let out1 := createTags (js_strings ["#b"; "#c"]) world_hello in
  let out2 := createTags (js_strings ["#c"; "#d"]) out1.1 in
  ∀ n, n ∈ ["#b"; "#c"] ++ ["#c"; "#d"] →
       ∃ t, filter (λ t, t_name t = n) (tags (db out2.1)) = [t].
Proof.
  assert (store_ok (db world_hello)) as H1 by by_compute.
  split; [done|].
  exact (proj1 (proj2 (proj2
    (createTags_upsert_get_idempotent world_hello ["#b"; "#c"] ["#c"; "#d"] H1)))).
Defined.

Lemma createPost_without_tags_throws_witness :
  (store_ok (db world_alice) ∧ 1%Z ∈ u_id <$> users (db world_alice) ∧
   (JUndefined = JUndefined ∨ JUndefined = JArr [])) ∧
  (createPost 1 "Hello" "World" JUndefined world_alice).2 = Throw TypeError.
Proof.
  assert (store_ok (db world_alice)) as H1 by by_compute.
  assert (1%Z ∈ u_id <$> users (db world_alice)) as H2 by by_compute.
  assert (JUndefined = JUndefined ∨ JUndefined = JArr []) as H3 by (by left).
  split; [done|].
  exact (proj1 (createPost_without_tags_throws world_alice 1 "Hello" "World"
                  JUndefined H1 H2 H3)).
Defined.

Lemma absence_handling_witness :
  ((7%Z ∉ u_id <$> users (db world_hello)) ∧
   (7%Z ∉ p_id <$> posts (db world_hello)) ∧
   (run_call (UpdatePost 7 None) world_hello).2 = Throw PostNotFoundError) ∧
  getUserById 7 world_hello = (world_hello, Ok JUndefined) ∧
  getPostById 7 world_hello = (world_hello, Throw PostNotFoundError) ∧
  ∃ postId, requested_post (UpdatePost 7 None) = Some postId ∧
            postId ∉ p_id <$> posts (db (run_call (UpdatePost 7 None) world_hello).1).
Proof.
  assert (7%Z ∉ u_id <$> users (db world_hello)) as H1 by by_compute.
  assert (7%Z ∉ p_id <$> posts (db world_hello)) as H2 by by_compute.
  assert ((run_call (UpdatePost 7 None) world_hello).2 =
          Throw PostNotFoundError) as H3 by (vm_compute; reflexivity).
  split; [done|].
  destruct (absence_handling world_hello 7) as (Hu & Hp & Hc).
  split_and!; [exact (Hu H1)|exact (Hp H2)|exact (Hc _ H3)].
Defined.

Lemma createUser_conflict_tolerance_witness :
  (store_ok (db world0) ∧ "alice" ∉ u_username <$> users (db world0)) ∧
  let out1 := createUser "alice" "pw" "Alice" "NY" world0 in
  let out2 := createUser "alice" "other" "Al" "LA" out1.1 in
  out1.2 = Ok (JObj (user_star (User 1 "alice" "pw" "Alice" "NY"))) ∧
  out2.2 = Ok JUndefined ∧
  users (db out2.1) = [User 1 "alice" "pw" "Alice" "NY"].
Proof.
  assert (store_ok (db world0)) as H1 by by_compute.
  assert ("alice" ∉ u_username <$> users (db world0)) as H2 by by_compute.
  split; [done|].
  destruct (createUser_conflict_tolerance world0 "alice" "pw" "Alice" "NY"
              "other" "Al" "LA" H1 H2) as (E1 & E2 & E3 & E4 & _).
  cbv zeta. split_and!; [exact E1|exact E3|].
  rewrite E4, E2. reflexivity.
Defined.

Lemma post_aggregates_hide_credentials_witness :
  let v := JObj (aggregate (Post 1 1 "Hello" "World") (db world_hello)) in
  (getPostById 1 world_hello).2 = Ok v ∧ post_aggregate v.
Proof.
  intros v.
  assert ((getPostById 1 world_hello).2 = Ok v) as H1
    by (vm_compute; reflexivity).
  split; [done|].
  exact (proj1 (post_aggregates_hide_credentials world_hello) 1%Z v H1).
Defined.

Lemma password_exposure_witness :
  let u := User 1 "alice" "pw" "Alice" "NY" in
  (u ∈ users (db world_hello) ∧
   (createUser "bob" "secret" "Bob" "LA" world_hello).2 =
     Ok (JObj (user_star (User 2 "bob" "secret" "Bob" "LA")))) ∧
  (∃ u', u' ∈ users (db world_hello) ∧ u_username u' = "alice" ∧
         getUserByUsername "alice" world_hello =
           (world_hello, Ok (JObj (user_star u'))) ∧
         user_star u' !! "password" = Some (JStr (u_password u'))) ∧
  (JObj (user_star (User 2 "bob" "secret" "Bob" "LA")) = JUndefined ∨
   ∃ o, JObj (user_star (User 2 "bob" "secret" "Bob" "LA")) = JObj o ∧
        o !! "password" = Some (JStr "secret")).
Proof.
  intros u.
  assert (u ∈ users (db world_hello)) as H1 by by_compute.
  assert ((createUser "bob" "secret" "Bob" "LA" world_hello).2 =
          Ok (JObj (user_star (User 2 "bob" "secret" "Bob" "LA")))) as H2
    by (vm_compute; reflexivity).
  split; [done|].
  destruct (password_exposure world_hello) as (_ & _ & _ & Hc & _ & Hn).
  split; [exact (Hn u H1)|exact (Hc _ _ _ _ _ H2)].
Defined.

Lemma noop_updates_witness :
  ((None : option loc) = None ∨
   ∃ l, (None : option loc) = Some l ∧ heap world_hello !! l = Some ∅) ∧
  updateUser 1 None world_hello = (world_hello, Ok JUndefined) ∧
  updatePost 1 None world_hello =
    (world_hello, (getPostById 1 world_hello).2).
Proof.
  assert ((None : option loc) = None ∨
          ∃ l, (None : option loc) = Some l ∧ heap world_hello !! l = Some ∅)
    as H1 by (by left).
  split; [done|].
  destruct (noop_updates world_hello 1 None H1) as (E1 & E2 & _).
  split; [exact E1|exact E2].
Defined.

Lemma updatePost_deletes_tags_key_witness :
  let o : jsobj := <["title" := JStr "Hi"]> {["tags" := js_strings ["#c"]]} in
  let w := with_fields o world_hello in
  heap w !! fields_at = Some o ∧
  heap (updatePost 1 (Some fields_at) w).1 =
    <[fields_at := delete "tags" o]> (heap w).
Proof.
  intros o w.
  assert (heap w !! fields_at = Some o) as H1 by reflexivity.
  split; [done|].
  exact (proj1 (updatePost_deletes_tags_key w 1 fields_at o H1)).
Defined.

(** ** More of the repository, on the scenario *)

Lemma sets_text_singleton cols k x :
  k ∈ cols → sets_text cols {[k := JStr x]}.
Proof.
  intros Hk. split; [apply map_non_empty_singleton|].
  apply map_Forall_singleton. split; [done|by eexists].
Qed.


Lemma getPostsByTagName_exact_witness :
  store_ok (db world_hello) ∧
  ∃ ps,
    getPostsByTagName "#a" world_hello =
      (world_hello,
       Ok (JArr ((λ p, JObj (aggregate p (db world_hello))) <$> ps))) ∧
    NoDup ps ∧
    (∀ p, p ∈ ps ↔
          p ∈ posts (db world_hello) ∧
          "#a" ∈ t_name <$> tags_of_post (p_id p) (db world_hello)) ∧
    ("#a" ∉ t_name <$> tags (db world_hello) → ps = []).
Proof.
  assert (store_ok (db world_hello)) as H1 by by_compute.
  split; [done|]. exact (getPostsByTagName_exact world_hello "#a" H1).
Defined.

Lemma getAllPosts_aggregates_witness :
  store_ok (db world_hello) ∧
  getAllPosts world_hello =
    (world_hello,
     Ok (JArr ((λ p, JObj (aggregate p (db world_hello)))
               <$> posts (db world_hello)))).
Proof.
  assert (store_ok (db world_hello)) as H1 by by_compute.
  split; [done|]. exact (proj1 (getAllPosts_aggregates world_hello H1)).
Defined.

Lemma getPostsByUser_aggregates_witness :
  (store_ok (db world_hello) ∧ 7%Z ∉ u_id <$> users (db world_hello)) ∧
  getPostsByUser 7 world_hello = (world_hello, Ok (JArr [])).
Proof.
  assert (store_ok (db world_hello)) as H1 by by_compute.
  assert (7%Z ∉ u_id <$> users (db world_hello)) as H2 by by_compute.
  split; [done|].
  exact (proj2 (getPostsByUser_aggregates world_hello 7 H1) H2).
Defined.

Lemma getPostById_aggregate_witness :
  let p := Post 1 1 "Hello" "World" in
  (store_ok (db world_hello) ∧ p ∈ posts (db world_hello)) ∧
  ∃ u, u ∈ users (db world_hello) ∧ u_id u = 1%Z ∧
       getPostById 1 world_hello =
         (world_hello, Ok (JObj
           (<["id" := JNum 1]>
             (<["title" := JStr "Hello"]>
               (<["content" := JStr "World"]>
                 (<["tags" :=
                      JArr (JObj <$> (tag_star <$>
                              tags_of_post 1 (db world_hello)))]>
                   (<["author" := JObj (user_proj u)]> ∅))))))) ∧
       NoDup (tags_of_post 1 (db world_hello)) ∧
       (∀ t, t ∈ tags_of_post 1 (db world_hello) ↔
             t ∈ tags (db world_hello) ∧
             PostTag 1 (t_id t) ∈ post_tags (db world_hello)).
Proof.
  intros p.
  assert (store_ok (db world_hello)) as H1 by by_compute.
  assert (p ∈ posts (db world_hello)) as H2 by by_compute.
  split; [done|]. exact (getPostById_aggregate world_hello p H1 H2).
Defined.

Lemma getUserById_known_witness :
  let alice := User 1 "alice" "pw" "Alice" "NY" in
  let zero := User 0 "alice" "pw" "Alice" "NY" in
  (store_ok (db world_hello) ∧ alice ∈ users (db world_hello) ∧
   u_id alice ≠ 0%Z) ∧
  (store_ok (db world_zero) ∧ zero ∈ users (db world_zero) ∧
   u_id zero = 0%Z) ∧
  getUserById 1 world_hello =
    (world_hello,
     Ok (JObj (<["posts" :=
                  JArr ((λ p, JObj (aggregate p (db world_hello))) <$>
                        filter (λ p, p_authorId p = 1%Z)
                               (posts (db world_hello)))]>
                (user_proj alice)))) ∧
  getUserById 0 world_zero = (world_zero, Ok JUndefined).
Proof.
  intros alice zero.
  assert (store_ok (db world_hello)) as H1 by by_compute.
  assert (alice ∈ users (db world_hello)) as H2 by by_compute.
  assert (u_id alice ≠ 0%Z) as H3 by discriminate.
  assert (store_ok (db world_zero)) as H4 by by_compute.
  assert (zero ∈ users (db world_zero)) as H5 by by_compute.
  assert (u_id zero = 0%Z) as H6 by reflexivity.
  split_and!; [done..| |].
  - exact (proj1 (getUserById_known world_hello alice H1 H2) H3).
  - exact (proj2 (getUserById_known world_zero zero H4 H5) H6).
Defined.

Lemma createUser_then_lookup_witness :
  (store_ok (db world_hello) ∧
   "bob" ∉ u_username <$> users (db world_hello)) ∧
  let out := createUser "bob" "pw2" "Bob" "LA" world_hello in
  getUserByUsername "bob" world_hello = (world_hello, Ok JUndefined) ∧
  getUserByUsername "bob" out.1 = out.
Proof.
  assert (store_ok (db world_hello)) as H1 by by_compute.
  assert ("bob" ∉ u_username <$> users (db world_hello)) as H2 by by_compute.
  split; [done|].
  destruct (createUser_then_lookup world_hello "bob" "pw2" "Bob" "LA" H1 H2)
    as (Ha & Hb & _).
  exact (conj Ha Hb).
Defined.

Lemma createPost_with_tags_witness :
  (store_ok (db world_alice) ∧ 1%Z ∈ u_id <$> users (db world_alice) ∧
   ["#a"; "#b"] ≠ []) ∧
  let out :=
    createPost 1 "Hello" "World" (js_strings ["#a"; "#b"]) world_alice in
  getPostById (posts_id_seq (db world_alice)) out.1 = out ∧
  tag_names_of_post (posts_id_seq (db world_alice)) (db out.1) =
    list_to_set ["#a"; "#b"].
Proof.
  assert (store_ok (db world_alice)) as H1 by by_compute.
  assert (1%Z ∈ u_id <$> users (db world_alice)) as H2 by by_compute.
  assert (["#a"; "#b"] ≠ []) as H3 by discriminate.
  split; [done|].
  destruct (createPost_with_tags world_alice 1 "Hello" "World" ["#a"; "#b"]
              H1 H2 H3) as (_ & Ha & _ & Hb & _).
  exact (conj Ha Hb).
Defined.


Lemma addTagsToPost_only_links_witness :
  (∀ xs, JUndefined ≠ JArr xs) ∧
  addTagsToPost 1 JUndefined world_hello = (world_hello, Throw TypeError).
Proof.
  assert (∀ xs, JUndefined ≠ JArr xs) as H1 by discriminate.
  split; [done|].
  destruct (addTagsToPost_only_links world_hello 1 JUndefined)
    as (_ & _ & _ & _ & _ & Hc).
  exact (Hc H1).
Defined.

Lemma addTagsToPost_idempotent_witness :
  let R := [Tag 1 "#a"] in
  let rows := JArr (JObj <$> (tag_star <$> R)) in
  (1%Z ∈ p_id <$> posts (db world_hello) ∧
   (∀ t, t ∈ R → t ∈ tags (db world_hello))) ∧
  let out := addTagsToPost 1 rows world_hello in
  getPostById 1 out.1 = out ∧ addTagsToPost 1 rows out.1 = out.
Proof.
  intros R rows.
  assert (1%Z ∈ p_id <$> posts (db world_hello)) as H1 by by_compute.
  assert (∀ t, t ∈ R → t ∈ tags (db world_hello)) as H2.
  { intros t ->%list_elem_of_singleton. by_compute. }
  split; [done|].
  exact (proj2 (addTagsToPost_idempotent world_hello 1 R H1 H2)).
Defined.

Lemma createTags_only_adds_tags_witness :
  (∀ xs, JStr "abc" ≠ JArr xs) ∧
  createTags (JStr "abc") world_hello = (world_hello, Throw TypeError).
Proof.
  assert (∀ xs, JStr "abc" ≠ JArr xs) as H1 by discriminate.
  split; [done|].
  destruct (createTags_only_adds_tags world_hello (JStr "abc"))
    as (_ & _ & _ & _ & _ & Hc & _).
  exact (Hc H1).
Defined.


Lemma updateUser_profile_witness :
  let o : jsobj := {["name" := JStr "Al"]} in
  let w := with_fields o world_hello in
  let alice := User 1 "alice" "pw" "Alice" "NY" in
  (store_ok (db w) ∧ heap w !! fields_at = Some o ∧
   sets_text ["password"; "name"; "location"] o ∧
   alice ∈ users (db w) ∧ u_id alice = 1%Z) ∧
  let out := updateUser 1 (Some fields_at) w in
  out.2 = Ok (JObj (user_star (User 1 "alice" "pw" "Al" "NY"))) ∧
  users (db out.1) = [User 1 "alice" "pw" "Al" "NY"].
Proof.
  intros o w alice.
  assert (store_ok (db w)) as H1 by by_compute.
  assert (heap w !! fields_at = Some o) as H2 by reflexivity.
  assert (sets_text ["password"; "name"; "location"] o) as H3
    by (apply sets_text_singleton; in_list).
  assert (alice ∈ users (db w)) as H4 by by_compute.
  assert (u_id alice = 1%Z) as H5 by reflexivity.
  split; [done|].
  destruct (updateUser_profile w 1 fields_at o H1 H2 H3)
    as (_ & Hu & _ & _ & _ & Hr & _).
  split; [exact (Hr alice H4 H5)|exact Hu].
Defined.

Lemma updatePost_text_witness :
  let o : jsobj := {["title" := JStr "Hi"]} in
  let w := with_fields o world_hello in
  let p := Post 1 1 "Hello" "World" in
  (store_ok (db w) ∧ heap w !! fields_at = Some o ∧
   sets_text ["title"; "content"] o ∧
   p ∈ posts (db w) ∧ p_id p = 1%Z) ∧
  let out := updatePost 1 (Some fields_at) w in
  out.2 = Ok (JObj (aggregate (Post 1 1 "Hi" "World") (db w))) ∧
  posts (db out.1) = [Post 1 1 "Hi" "World"].
Proof.
  intros o w p.
  assert (store_ok (db w)) as H1 by by_compute.
  assert (heap w !! fields_at = Some o) as H2 by reflexivity.
  assert (sets_text ["title"; "content"] o) as H3
    by (apply sets_text_singleton; in_list).
  assert (p ∈ posts (db w)) as H4 by by_compute.
  assert (p_id p = 1%Z) as H5 by reflexivity.
  split; [done|].
  destruct (updatePost_text w 1 fields_at o H1 H2 H3)
    as (_ & Hp & _ & _ & _ & Hr & _).
  split; [exact (Hr p H4 H5)|exact Hp].
Defined.

Lemma updatePost_partial_write_witness :
  let o : jsobj := <["title" := JStr "Hi"]> {["tags" := JArr []]} in
  let w := with_fields o world_hello in
  (store_ok (db w) ∧ heap w !! fields_at = Some o ∧
   o !! "tags" = Some (JArr []) ∧
   sets_text ["title"; "content"] (delete "tags" o)) ∧
  let out := updatePost 1 (Some fields_at) w in
  out.2 = Throw TypeError ∧
  posts (db out.1) = [Post 1 1 "Hi" "World"].
Proof.
  intros o w.
  assert (store_ok (db w)) as H1 by by_compute.
  assert (heap w !! fields_at = Some o) as H2 by reflexivity.
  assert (o !! "tags" = Some (JArr [])) as H3 by reflexivity.
  assert (delete "tags" o = {["title" := JStr "Hi"]}) as Heq
    by (vm_compute; reflexivity).
  assert (sets_text ["title"; "content"] (delete "tags" o)) as H4
    by (rewrite Heq; apply sets_text_singleton; in_list).
  split; [done|].
  destruct (updatePost_partial_write w 1 fields_at o H1 H2 H3 H4)
    as (Hr & Hp & _).
  split; [exact Hr|]. rewrite Hp, Heq. reflexivity.
Defined.


Lemma addTagsToPost_unknown_post_witness :
  let elems := [JObj (tag_star (Tag 1 "#a"))] in
  (store_ok (db world_hello) ∧ (7%Z ∉ p_id <$> posts (db world_hello)) ∧
   Forall (λ v, v ≠ JUndefined ∧ v ≠ JNull) elems) ∧
  addTagsToPost 7 (JArr elems) world_hello = (world_hello, Throw StoreError).
Proof.
  intros elems.
  assert (store_ok (db world_hello)) as H1 by by_compute.
  assert (7%Z ∉ p_id <$> posts (db world_hello)) as H2 by by_compute.
  assert (Forall (λ v, v ≠ JUndefined ∧ v ≠ JNull) elems) as H3
    by (repeat constructor; discriminate).
  split; [done|].
  exact (addTagsToPost_unknown_post world_hello 7 elems H1 H2 H3).
Defined.

Lemma updatePost_unknown_post_tags_witness :
  let w := with_fields {["tags" := js_strings ["#c"]]} world_hello in
  (store_ok (db w) ∧ (7%Z ∉ p_id <$> posts (db w)) ∧ ["#c"] ≠ [] ∧
   heap w !! fields_at = Some {["tags" := js_strings ["#c"]]}) ∧
  let out := updatePost 7 (Some fields_at) w in
  out.2 = Throw StoreError ∧
  post_tags (db out.1) = post_tags (db w) ∧
  (∀ n, n ∈ ["#c"] → n ∈ t_name <$> tags (db out.1)).
Proof.
  intros w.
  assert (store_ok (db w)) as H1 by by_compute.
  assert (7%Z ∉ p_id <$> posts (db w)) as H2 by by_compute.
  assert (["#c"] ≠ []) as H3 by discriminate.
  assert (heap w !! fields_at = Some {["tags" := js_strings ["#c"]]}) as H4
    by reflexivity.
  split; [done|].
  destruct (updatePost_unknown_post_tags w 7 fields_at ["#c"] H1 H2 H3 H4)
    as (Ha & _ & _ & Hb & _ & Hc & _).
  exact (conj Ha (conj Hb Hc)).
Defined.

Lemma createPost_unknown_author_witness :
  (7%Z ∉ u_id <$> users (db world_hello)) ∧
  let out := createPost 7 "Hi" "There" (js_strings ["#c"]) world_hello in
  out.2 = Throw StoreError ∧
  posts (db out.1) = posts (db world_hello) ∧
  tags (db out.1) = tags (db world_hello).
Proof.
  assert (7%Z ∉ u_id <$> users (db world_hello)) as H1 by by_compute.
  split; [done|].
  destruct (createPost_unknown_author world_hello 7 "Hi" "There"
              (js_strings ["#c"]) H1) as (Ha & _ & _ & Hb & Hc & _).
  exact (conj Ha (conj Hb Hc)).
Defined.
